(** * uplite: a shallow embedding of [uplite.js] and its request-handling contract

    The development follows the layout of the script:
    - [JS]: the string built-ins the script calls (UTF-16 code units);
    - [NodePath]: [path.basename], [path.extname], [path.normalize] and
      [path.join] of Node's POSIX [path] module;
    - [Fs]: the directory tree the handlers read and change;
    - [Eff]: handler programs as trees of filesystem and console operations,
      with [try]/[catch], run against a world that other requests may change
      between two operations;
    - [Multer], [Http], [MulterMiddleware]: parts, requests, responses and
      the multipart middleware built by [upload.array];
    - [Uplite]: the script itself: settings, [auth], [storage], [fileFilter],
      the routes and the global error handler;
    - [UpliteMain]: the password generator, the address of the request
      log and the addresses of the banner.

    The body parsers and the router come in through the error with which
    they turn a request away before its route. Time passes: the clock
    moves on between two readings, so that the name of a stored file and
    its modification time need not agree.

    Left out: the middleware that sets the cache and content-type headers
    on every response, the static assets and the text of the views. File
    contents are their length; [mtimeMs] is an integer. *)

From Stdlib Require Import List ZArith NArith Lia Bool String Ascii.
From Stdlib Require Import Permutation Sorted DecimalString DecimalPos DecimalZ.
Import ListNotations.

Set Implicit Arguments.

(* ------------------------------------------------------------------ *)
(** ** JavaScript strings *)
(* ------------------------------------------------------------------ *)

Module JS.

Local Open Scope N_scope.

(** A JavaScript string is a sequence of UTF-16 code units; regular
    expressions without the [u] flag, [split], [trim] and [===] all work on
    code units. *)
Definition code := N.
Definition jsstring := list code.

(** ASCII literals. *)
Definition js (s : string) : jsstring :=
  map N_of_ascii (list_ascii_of_string s).
Arguments js s%_string.

Definition code_eqb (a b : code) : bool := N.eqb a b.

(** [a === b] on strings. *)
Fixpoint streq (a b : jsstring) : bool :=
  match a, b with
  | [], [] => true
  | x :: a', y :: b' => code_eqb x y && streq a' b'
  | _, _ => false
  end.

Definition between (lo hi c : code) : bool := (lo <=? c) && (c <=? hi).

(** The class [\s]: WhiteSpace and LineTerminator code points. *)
Definition isWhiteSpace (c : code) : bool :=
  between 9 13 c || code_eqb c 32 || code_eqb c 160 || code_eqb c 5760
  || between 8192 8202 c || code_eqb c 8232 || code_eqb c 8233
  || code_eqb c 8239 || code_eqb c 8287 || code_eqb c 12288
  || code_eqb c 65279.

(** [s.trim()]. *)
Fixpoint trimStart (s : jsstring) : jsstring :=
  match s with
  | c :: t => if isWhiteSpace c then trimStart t else s
  | [] => []
  end.

Definition trimEnd (s : jsstring) : jsstring := rev (trimStart (rev s)).

Definition trim (s : jsstring) : jsstring := trimEnd (trimStart s).

(** [s.toLowerCase()] for a string of the Basic Latin block (every unit
    below 128), where the built-in works unit by unit and changes the
    letters [A-Z] only. Outside of that block the built-in follows the
    Unicode case tables, which are not part of this development: what is
    proved of the case of letters is stated of Basic Latin strings. *)
Definition isBasicLatin (c : code) : bool := c <? 128.

Definition lowerCode (c : code) : code :=
  if between 65 90 c then c + 32 else c.

Definition toLowerCase (s : jsstring) : jsstring := map lowerCode s.

(** [s.split(sep)] for a one-unit separator: always at least one piece. *)
Fixpoint split (sep : code) (s : jsstring) : list jsstring :=
  match s with
  | [] => [[]]
  | c :: t =>
      if code_eqb c sep then [] :: split sep t
      else match split sep t with
           | piece :: rest => (c :: piece) :: rest
           | [] => [[c]]
           end
  end.

(** [pieces.join(sep)]. *)
Fixpoint join (sep : jsstring) (pieces : list jsstring) : jsstring :=
  match pieces with
  | [] => []
  | [p] => p
  | p :: rest => p ++ sep ++ join sep rest
  end.

(** [s.replace(".", "")]: a string pattern replaces the first occurrence
    only. *)
Fixpoint removeFirst (x : code) (s : jsstring) : jsstring :=
  match s with
  | [] => []
  | c :: t => if code_eqb c x then t else c :: removeFirst x t
  end.

(** [list.includes(s)]. *)
Definition includes (l : list jsstring) (s : jsstring) : bool :=
  existsb (streq s) l.

(** Number to string for an integer (template literal [`${n}`]). *)
Definition numberToString (n : Z) : jsstring :=
  js (NilZero.string_of_int (Z.to_int n)).

(** A string is truthy when it is not empty. *)
Definition truthy (s : jsstring) : bool :=
  match s with [] => false | _ => true end.

(** [a || b] on strings. *)
Definition orElse (a b : jsstring) : jsstring := if truthy a then a else b.

(** [list.sort(compareFn)]: the sort is stable; an element goes before
    the first one that [compareFn] does not put before it. *)
Section Sort.
Variable A : Type.
Variable compareFn : A -> A -> Z.

Fixpoint insertSorted (x : A) (l : list A) : list A :=
  match l with
  | [] => [x]
  | y :: t =>
      if (compareFn x y <=? 0)%Z then x :: l else y :: insertSorted x t
  end.

Definition sort (l : list A) : list A := fold_right insertSorted [] l.
End Sort.

(** [list.filter(Boolean)] on values that are an object or [null]. *)
Fixpoint filterBoolean {A : Type} (l : list (option A)) : list A :=
  match l with
  | [] => []
  | Some a :: t => a :: filterBoolean t
  | None :: t => filterBoolean t
  end.

End JS.

Import JS.

(* ------------------------------------------------------------------ *)
(** ** Node's [path] module (POSIX flavour) *)
(* ------------------------------------------------------------------ *)

Module NodePath.

Definition SLASH : code := 47%N.
Definition DOT : code := 46%N.

Definition isSlash (c : code) : bool := code_eqb c SLASH.
Definition isDot (c : code) : bool := code_eqb c DOT.

Fixpoint dropWhile (f : code -> bool) (s : jsstring) : jsstring :=
  match s with
  | c :: t => if f c then dropWhile f t else s
  | [] => []
  end.

Fixpoint takeWhile (f : code -> bool) (s : jsstring) : jsstring :=
  match s with
  | c :: t => if f c then c :: takeWhile f t else []
  | [] => []
  end.

(** [path.basename(p)]: scanning from the right, the separators that end
    the string are skipped, and the component runs back to the separator
    before it. The empty string when [p] holds separators only. *)
Definition basename (p : jsstring) : jsstring :=
  rev (takeWhile (fun c => negb (isSlash c)) (dropWhile isSlash (rev p))).

(** [path.extname(p)]: from the last dot of the last component to its end;
    empty when the component has no dot, when its only dot is its first
    character, or when the component is [..]. *)
Definition extname (p : jsstring) : jsstring :=
  let b := rev (basename p) in
  let ext := takeWhile (fun c => negb (isDot c)) b in
  match dropWhile (fun c => negb (isDot c)) b with
  | [] => []
  | _dot :: before =>
      match before, ext with
      | [], _ => []
      | [d], [] => if isDot d then [] else [DOT]
      | _, _ => DOT :: rev ext
      end
  end.

(** [normalizeString]: the components of a path, left to right, on a stack
    kept in reverse; empty components and [.] are skipped, [..] removes the
    component before it, or stays when there is none and the path is
    relative ([allowAboveRoot]). *)
Definition isDotDot (seg : jsstring) : bool := streq seg [DOT; DOT].

Definition pushSegment (allowAboveRoot : bool) (stack : list jsstring)
    (seg : jsstring) : list jsstring :=
  if streq seg [] || streq seg [DOT] then stack
  else if isDotDot seg then
    match stack with
    | top :: below =>
        if isDotDot top then seg :: stack else below
    | [] => if allowAboveRoot then [seg] else []
    end
  else seg :: stack.

Definition normalizeSegments (allowAboveRoot : bool) (segs : list jsstring)
    : list jsstring :=
  rev (fold_left (pushSegment allowAboveRoot) segs []).

Definition isAbsolute (p : jsstring) : bool :=
  match p with c :: _ => isSlash c | [] => false end.

Definition endsWithSlash (p : jsstring) : bool :=
  match rev p with c :: _ => isSlash c | [] => false end.

(** [path.normalize(p)]. *)
Definition normalize (p : jsstring) : jsstring :=
  match p with
  | [] => [DOT]
  | _ =>
      let abs := isAbsolute p in
      let trailing := endsWithSlash p in
      let body := JS.join [SLASH] (normalizeSegments (negb abs) (split SLASH p)) in
      match body with
      | [] => if abs then [SLASH] else if trailing then [DOT; SLASH] else [DOT]
      | _ =>
          (if abs then [SLASH] else []) ++ body
          ++ (if trailing then [SLASH] else [])
      end
  end.

(** [path.join(a, b)]: the non-empty arguments glued with a separator, then
    normalized. *)
Definition join (a b : jsstring) : jsstring :=
  match a, b with
  | [], [] => [DOT]
  | [], _ => normalize b
  | _, [] => normalize a
  | _, _ => normalize (a ++ [SLASH] ++ b)
  end.

(** [path.resolve(p)] for a process whose working directory is the
    absolute [cwd]: always absolute, normalized, without a separator at
    its end. *)
Definition resolve (cwd p : jsstring) : jsstring :=
  let full := if isAbsolute p then p else cwd ++ [SLASH] ++ p in
  SLASH :: JS.join [SLASH] (normalizeSegments false (split SLASH full)).

End NodePath.

Import NodePath.

(* ------------------------------------------------------------------ *)
(** ** The filesystem *)
(* ------------------------------------------------------------------ *)

Module Fs.

(** A location is the list of components from the root. *)
Definition Path := list jsstring.

Inductive Node :=
| FileNode (mtimeMs : Z) (size : Z)
| DirNode (mtimeMs : Z).

(** The tree, flat: every entry with its location, in the order the
    directory enumeration yields them. The root is always there. *)
Definition FS := list (Path * Node).

Inductive Errno := ENOENT | ENOTDIR | EISDIR | EEXIST.

Record Stats := mkStats { st_mtimeMs : Z; st_size : Z; st_isDirectory : bool }.

(** How the system resolves an absolute path string: components between
    separators, [.] and empty ones skipped, [..] one level up. All the
    paths of the script start from the absolute [uploadDir]. *)
Definition resolve (p : jsstring) : Path :=
  normalizeSegments false (split SLASH p).

Fixpoint path_eqb (p q : Path) : bool :=
  match p, q with
  | [], [] => true
  | a :: p', b :: q' => streq a b && path_eqb p' q'
  | _, _ => false
  end.

(** [isPrefix p q]: [q] is [p] or lies below it. *)
Fixpoint isPrefix (p q : Path) : bool :=
  match p, q with
  | [], _ => true
  | a :: p', b :: q' => streq a b && isPrefix p' q'
  | _ :: _, [] => false
  end.

Definition lookup (t : FS) (p : Path) : option Node :=
  match p with
  | [] => Some (DirNode 0)
  | _ =>
      match find (fun e => path_eqb (fst e) p) t with
      | Some e => Some (snd e)
      | None => None
      end
  end.

Definition exists_ (t : FS) (p : Path) : bool :=
  match lookup t p with Some _ => true | None => false end.

Definition isChildOf (dir : Path) (q : Path) : bool :=
  match q with
  | [] => false
  | _ => path_eqb (removelast q) dir
  end.

Definition children (t : FS) (dir : Path) : list jsstring :=
  map (fun e => last (fst e) []) (filter (fun e => isChildOf dir (fst e)) t).

Definition readdir (t : FS) (p : Path) : Errno + list jsstring :=
  match lookup t p with
  | Some (DirNode _) => inr (children t p)
  | Some (FileNode _ _) => inl ENOTDIR
  | None => inl ENOENT
  end.

Definition stat (t : FS) (p : Path) : Errno + Stats :=
  match lookup t p with
  | Some (FileNode m s) => inr (mkStats m s false)
  | Some (DirNode m) => inr (mkStats m 0 true)
  | None => inl ENOENT
  end.

(** [fs.remove] of fs-extra: the entry and everything below it; nothing
    happens, and nothing is reported, when the entry is not there. *)
Definition remove (t : FS) (p : Path) : FS :=
  filter (fun e => negb (isPrefix p (fst e))) t.

(** [fs.unlink]: one file. *)
Definition unlink (t : FS) (p : Path) : Errno + FS :=
  match p with
  | [] => inl EISDIR
  | _ =>
      match lookup t p with
      | Some (FileNode _ _) =>
          inr (filter (fun e => negb (path_eqb (fst e) p)) t)
      | Some (DirNode _) => inl EISDIR
      | None => inl ENOENT
      end
  end.

Fixpoint replaceEntry (t : FS) (p : Path) (n : Node) : FS :=
  match t with
  | [] => []
  | e :: t' =>
      if path_eqb (fst e) p then (p, n) :: t' else e :: replaceEntry t' p n
  end.

(** A write stream opened on [p] and fed [size] bytes at time [now]: the
    directory of [p] must be there; an existing file is overwritten. Where
    a new entry comes in the enumeration of its directory is the system's
    choice; here it comes last. *)
Definition writeFile (t : FS) (p : Path) (now size : Z) : Errno + FS :=
  match p with
  | [] => inl EISDIR
  | _ =>
      match lookup t (removelast p) with
      | None => inl ENOENT
      | Some (FileNode _ _) => inl ENOTDIR
      | Some (DirNode _) =>
          match lookup t p with
          | Some (DirNode _) => inl EISDIR
          | Some (FileNode _ _) => inr (replaceEntry t p (FileNode now size))
          | None => inr (t ++ [(p, FileNode now size)])
          end
      end
  end.

(** [fs.ensureDirSync], a recursive [mkdir]: the directory and the
    missing ones above it; a file in the way is an error, [EEXIST] when
    the file is at the path itself and [ENOTDIR] when it is above it. *)
Fixpoint ensureDirs (t : FS) (above : Path) (rest : Path) (now : Z)
    : Errno + FS :=
  match rest with
  | [] => inr t
  | seg :: rest' =>
      let here := above ++ [seg] in
      match lookup t here with
      | Some (DirNode _) => ensureDirs t here rest' now
      | Some (FileNode _ _) =>
          match rest' with
          | [] => inl EEXIST
          | _ :: _ => inl ENOTDIR
          end
      | None => ensureDirs (t ++ [(here, DirNode now)]) here rest' now
      end
  end.

Definition ensureDir (t : FS) (p : Path) (now : Z) : Errno + FS :=
  ensureDirs t [] p now.

End Fs.

(* ------------------------------------------------------------------ *)
(** ** Handler programs *)
(* ------------------------------------------------------------------ *)

Module Eff.

Inductive Level := LOG | WARN | ERROR.

Inductive MulterCode :=
| LIMIT_PART_COUNT | LIMIT_FILE_SIZE | LIMIT_FILE_COUNT | LIMIT_FIELD_KEY
| LIMIT_FIELD_VALUE | LIMIT_FIELD_COUNT | LIMIT_UNEXPECTED_FILE.

(** The values the script can see thrown or handed to [next]. *)
Inductive Error :=
| SystemError (code : Fs.Errno) (syscall path : jsstring)
| PlainError (msg : jsstring)
| MulterError (code : MulterCode) (field : jsstring).

Definition errnoName (e : Fs.Errno) : jsstring :=
  match e with
  | Fs.ENOENT => js "ENOENT: no such file or directory"
  | Fs.ENOTDIR => js "ENOTDIR: not a directory"
  | Fs.EISDIR => js "EISDIR: illegal operation on a directory"
  | Fs.EEXIST => js "EEXIST: file already exists"
  end.

(** multer's table of messages. *)
Definition multerMessage (c : MulterCode) : jsstring :=
  match c with
  | LIMIT_PART_COUNT => js "Too many parts"
  | LIMIT_FILE_SIZE => js "File too large"
  | LIMIT_FILE_COUNT => js "Too many files"
  | LIMIT_FIELD_KEY => js "Field name too long"
  | LIMIT_FIELD_VALUE => js "Field value too long"
  | LIMIT_FIELD_COUNT => js "Too many fields"
  | LIMIT_UNEXPECTED_FILE => js "Unexpected field"
  end.

(** [err.message]. *)
Definition message (e : Error) : jsstring :=
  match e with
  | SystemError c syscall p =>
      errnoName c ++ js ", " ++ syscall ++ js " '" ++ p ++ js "'"
  | PlainError m => m
  | MulterError c _ => multerMessage c
  end.

(** An argument of a [console] call: a string, an [Error] object, or an
    array of strings. How Node prints an object (its inspection) is not
    part of the model: the console keeps the arguments. *)
Inductive LogArg :=
| Str (text : jsstring)
| Err (err : Error)
| Strs (texts : list jsstring).

(** What a request's handler runs in: the directory tree, the clock, the
    calls made to the console, and the two things that are not in the
    hands of the request. [others] are the changes that other requests in
    flight make to the tree, the next one landing just before this
    request's next filesystem call (the only points where the event loop
    lets another request in). [ticks] is the passing of time: by how much
    the clock has moved on each next time it is read, by [Date.now()] or
    by the system stamping a file (the two readings need not agree, and a
    tick may be negative); with no tick left the clock stands still. *)
Record World := mkWorld {
  fs : Fs.FS;
  clock : Z;
  console : list (Level * list LogArg);
  others : list (Fs.FS -> Fs.FS);
  ticks : list Z
}.

Inductive Op : Type -> Type :=
| ReadDir (p : jsstring) : Op (list jsstring)
| PathExists (p : jsstring) : Op bool
| Stat (p : jsstring) : Op Fs.Stats
| Remove (p : jsstring) : Op unit
| Unlink (p : jsstring) : Op unit
| WriteStream (p : jsstring) (size : Z) : Op unit
| DateNow : Op Z
| Console (l : Level) (args : list LogArg) : Op unit.

(** A handler: a value, a thrown error, or an operation followed by what
    the handler does with its outcome. *)
Inductive Prog (A : Type) : Type :=
| Ret (a : A)
| Throw (e : Error)
| Do (X : Type) (op : Op X) (k : Error + X -> Prog A).

Arguments Ret {A} a.
Arguments Throw {A} e.
Arguments Do {A X} op k.

Fixpoint bind {A B : Type} (p : Prog A) (f : A -> Prog B) : Prog B :=
  match p with
  | Ret a => f a
  | Throw e => Throw e
  | Do op k => Do op (fun r => bind (k r) f)
  end.

(** [try { p } catch (err) { h err }]. *)
Fixpoint tryCatch {A : Type} (p : Prog A) (h : Error -> Prog A) : Prog A :=
  match p with
  | Ret a => Ret a
  | Throw e => h e
  | Do op k => Do op (fun r => tryCatch (k r) h)
  end.

(** [await op]: the operation's value, or its error thrown. *)
Definition call {X : Type} (op : Op X) : Prog X :=
  Do op (fun r => match r with inl e => Throw e | inr x => Ret x end).

(** An operation whose failure is collected, not thrown. *)
Definition attempt {X : Type} (op : Op X) : Prog (Error + X) :=
  Do op (fun r => Ret r).

Definition consoleLog (args : list LogArg) : Prog unit :=
  call (Console LOG args).
Definition consoleWarn (args : list LogArg) : Prog unit :=
  call (Console WARN args).
Definition consoleError (args : list LogArg) : Prog unit :=
  call (Console ERROR args).

(** [Promise.all(l.map(f))]: the values in the order of [l], or the
    rejection of one of them. *)
Fixpoint promiseAll {A B : Type} (f : A -> Prog B) (l : list A)
    : Prog (list B) :=
  match l with
  | [] => Ret []
  | a :: l' =>
      bind (f a) (fun b => bind (promiseAll f l') (fun bs => Ret (b :: bs)))
  end.

Definition isAsync {X : Type} (op : Op X) : bool :=
  match op with
  | DateNow => false
  | Console _ _ => false
  | _ => true
  end.

(** Another request's change lands before a filesystem call. *)
Definition yield (w : World) : World :=
  match others w with
  | [] => w
  | change :: rest =>
      mkWorld (change (fs w)) (clock w) (console w) rest (ticks w)
  end.

(** The clock the next time it is read. *)
Definition clockNext (clock : Z) (ticks : list Z) : Z :=
  match ticks with
  | [] => clock
  | elapsed :: _ => (clock + elapsed)%Z
  end.

(** The clock has been read: it moves on by the next tick. *)
Definition tick (w : World) : World :=
  mkWorld (fs w) (clockNext (clock w) (ticks w)) (console w) (others w)
    (tl (ticks w)).

Definition setFs (w : World) (t : Fs.FS) : World :=
  mkWorld t (clock w) (console w) (others w) (ticks w).

(** A call to the console. *)
Definition logged (w : World) (l : Level) (args : list LogArg) : World :=
  mkWorld (fs w) (clock w) (console w ++ [(l, args)]) (others w) (ticks w).

Definition sysResult {X : Type} (syscall p : jsstring) (r : Fs.Errno + X)
    : Error + X :=
  match r with
  | inl code => inl (SystemError code syscall p)
  | inr x => inr x
  end.

(** One operation on the world. *)
Definition exec {X : Type} (op : Op X) (w : World) : (Error + X) * World :=
  match op in Op T return (Error + T) * World with
  | ReadDir p =>
      (sysResult (js "scandir") p (Fs.readdir (fs w) (Fs.resolve p)), w)
  | PathExists p => (inr (Fs.exists_ (fs w) (Fs.resolve p)), w)
  | Stat p => (sysResult (js "stat") p (Fs.stat (fs w) (Fs.resolve p)), w)
  | Remove p => (inr tt, setFs w (Fs.remove (fs w) (Fs.resolve p)))
  | Unlink p =>
      match Fs.unlink (fs w) (Fs.resolve p) with
      | inl code => (inl (SystemError code (js "unlink") p), w)
      | inr t => (inr tt, setFs w t)
      end
  | WriteStream p size =>
      match Fs.writeFile (fs w) (Fs.resolve p) (clock w) size with
      | inl code => (inl (SystemError code (js "open") p), w)
      | inr t => (inr tt, tick (setFs w t))
      end
  | DateNow => (inr (clock w), tick w)
  | Console l args => (inr tt, logged w l args)
  end.

Fixpoint run {A : Type} (p : Prog A) (w : World) : (Error + A) * World :=
  match p with
  | Ret a => (inr a, w)
  | Throw e => (inl e, w)
  | Do op k =>
      let w1 := if isAsync op then yield w else w in
      let (r, w2) := exec op w1 in
      run (k r) w2
  end.

(** A world no other request touches, the clock standing still. *)
Definition quiet (t : Fs.FS) (now : Z) : World := mkWorld t now [] [] [].

End Eff.

Import Eff.

Declare Scope prog_scope.
Delimit Scope prog_scope with prog.
Notation "x <- p ;; q" := (bind p (fun x => q))
  (at level 61, p at next level, right associativity) : prog_scope.
Notation "p ;; q" := (bind p (fun _ => q))
  (at level 61, right associativity) : prog_scope.

Local Open Scope prog_scope.

(* ------------------------------------------------------------------ *)
(** ** Requests and responses *)
(* ------------------------------------------------------------------ *)

Module Multer.

(** One part of a multipart body, as busboy hands it over: the field it
    was sent under, the client's file name and the length of its content. *)
Record Part := mkPart {
  fieldname : jsstring;
  originalname : jsstring;
  bytes : Z
}.

(** The body of an upload as multer sees it: the parts of a well-formed
    [multipart/form-data] body, or a body of another content type, which
    multer leaves alone. *)
Inductive Body :=
| Multipart (parts : list Part)
| OtherBody.

(** An entry of [req.files]. *)
Record File := mkFile {
  file_fieldname : jsstring;
  file_originalname : jsstring;
  file_destination : jsstring;
  file_filename : jsstring;
  file_path : jsstring;
  file_size : Z
}.

End Multer.

Module Http.

(** [new Date(timeMs).toLocaleString()]: the text depends on the locale
    and the time zone of the process, and is kept as the call. *)
Inductive LocaleText := LocaleString (timeMs : Z).

(** The [fileInfo] of the info view, as far as it is about the file; the
    values of the machine and of the connection ([os], [arch], [host],
    [userIP]) are left out. *)
Record FileInfo := mkFileInfo {
  info_name : jsstring;
  info_size : jsstring;
  info_modified : LocaleText;
  info_absolutePath : jsstring
}.

(** What a view is rendered with. *)
Inductive Locals :=
| IndexLocals (files : list jsstring)
| InfoLocals (fileInfo : FileInfo)
| ConfirmDeleteLocals (fileName : jsstring).

Inductive Payload :=
| Text (text : jsstring)
| View (name : jsstring) (locals : Locals)
| Redirect (location : jsstring)
| FileContent (path : jsstring)
| DirectoryIndex (path : jsstring) (names : list jsstring)
| NotFoundPage.

Record Response := mkResponse {
  status : Z;
  headers : list (jsstring * jsstring);
  payload : Payload
}.

(** [res.status(code).send(text)], [res.render(view, locals)],
    [res.redirect(url)]. *)
Definition send (code : Z) (text : jsstring) : Response :=
  mkResponse code [] (Text text).
Definition render (view : jsstring) (locals : Locals) : Response :=
  mkResponse 200 [] (View view locals).
Definition redirect (url : jsstring) : Response :=
  mkResponse 302 [(js "Location", url)] (Redirect url).

(** The routes of the script, with the route parameter decoded. *)
Inductive Route :=
| GetIndex
| PostUpload (body : Multer.Body)
| GetInfo (filename : jsstring)
| GetDelete (filename : jsstring)
| PostDelete (filename : jsstring)
| GetFiles (subpath : jsstring).

(** A request: its route, what [basicAuth(req)] finds in its
    [Authorization] header (a name and a pass, or nothing), and
    [refused]: the error, if any, with which the request is turned away
    before the handlers of its route run, by [express.urlencoded] or
    [express.json] for a body they cannot read, or by the router for a
    route parameter it cannot decode. *)
Record Request := mkRequest {
  route : Route;
  basicAuth : option (jsstring * jsstring);
  refused : option Error
}.

End Http.

Import Multer Http.

(* ------------------------------------------------------------------ *)
(** ** multer: the middleware of [upload.array(field, maxCount)] *)
(* ------------------------------------------------------------------ *)

(** What multer's [make-middleware] and the wrapper of [array] do with
    the file parts of a body, one after the other: count, filter, write;
    the first error removes what the request has written and goes to
    [next]. *)
Module MulterMiddleware.

Section Middleware.

(** The options the script passes: the disk storage's two callbacks, the
    filter, [limits.fileSize], and the field and count of [array]. *)
Variable destination : Part -> Prog jsstring.
Variable filename : Part -> Prog jsstring.
Variable fileFilter : Part -> Prog bool.
Variable fileSize : Z.
Variable field : jsstring.
Variable maxCount : Z.

(** [removeUploadedFiles]: every file written for this request is
    unlinked; the errors of that are collected, not raised. *)
Fixpoint removeUploadedFiles (uploaded : list File) : Prog unit :=
  match uploaded with
  | [] => Ret tt
  | f :: rest =>
      _ <- attempt (Unlink (file_path f)) ;; removeUploadedFiles rest
  end.

(** [abortWithError]: clean up, then hand the error to [next]. *)
Definition abortWithError {A : Type} (uploaded : list File) (err : Error)
    : Prog A :=
  removeUploadedFiles uploaded ;; Throw err.

(** [wrappedFileFilter]: the count left for the field, then the
    script's filter. *)
Definition wrappedFileFilter (filesLeft : Z) (part : Part)
    : Prog (Z * bool) :=
  if negb (streq (fieldname part) field) || (filesLeft <=? 0)%Z then
    Throw (MulterError LIMIT_UNEXPECTED_FILE (fieldname part))
  else
    include <- fileFilter part ;;
    Ret ((filesLeft - 1)%Z, include).

(** The disk storage's [_handleFile]: the stream stops at
    [limits.fileSize]. *)
Definition handleFile (part : Part) : Prog File :=
  dest <- destination part ;;
  name <- filename part ;;
  let finalPath := NodePath.join dest name in
  let written := Z.min (bytes part) fileSize in
  call (WriteStream finalPath written) ;;
  Ret (mkFile (fieldname part) (originalname part) dest name finalPath
         written).

(** busboy's [file] event. The stream of a part raises [limit] as soon
    as it has handed over [limits.fileSize] bytes, so a part of exactly
    that length is refused as well. *)
Definition onFile (filesLeft : Z) (uploaded : list File) (part : Part)
    : Prog (Z * list File) :=
  verdict <- tryCatch (wrappedFileFilter filesLeft part)
               (fun err => abortWithError uploaded err) ;;
  let (left, include) := verdict in
  if include then
    file <- tryCatch (handleFile part)
              (fun err => abortWithError uploaded err) ;;
    if (fileSize <=? bytes part)%Z then
      abortWithError (uploaded ++ [file])
        (MulterError LIMIT_FILE_SIZE (fieldname part))
    else Ret (left, uploaded ++ [file])
  else Ret (left, uploaded).

(** The parts in the order of the body; a part without a file name is
    not a file. *)
Fixpoint processParts (filesLeft : Z) (uploaded : list File)
    (parts : list Part) : Prog (list File) :=
  match parts with
  | [] => Ret uploaded
  | part :: rest =>
      if truthy (originalname part) then
        state <- onFile filesLeft uploaded part ;;
        processParts (fst state) (snd state) rest
      else processParts filesLeft uploaded rest
  end.

(** The middleware: [req.files] for a multipart body, nothing for
    another one. *)
Definition middleware (body : Body) : Prog (option (list File)) :=
  match body with
  | OtherBody => Ret None
  | Multipart parts =>
      files <- processParts maxCount [] parts ;;
      Ret (Some files)
  end.

End Middleware.

End MulterMiddleware.

(* ------------------------------------------------------------------ *)
(** ** The script *)
(* ------------------------------------------------------------------ *)

Module Uplite.

Definition COMMA : code := 44%N.
Definition UNDERSCORE : code := 95%N.
Definition QUOTE : code := 34%N.

(** The value minimist gives an option: the text after it, unless that
    text reads as a number, which makes it a Number; [true] for an option
    without a value. *)
Inductive ArgValue :=
| StringArg (text : jsstring)
| NumberArg (n : Z)
| TrueArg.

(** The command line after minimist; [port], [max-files] and [max-size]
    as the numbers they are used as ([max-size] is the integer that
    [parseInt] reads). *)
Record Args := mkArgs {
  arg_port : Z;
  arg_user : ArgValue;
  arg_password : ArgValue;
  arg_dir : ArgValue;
  arg_max_files : Z;
  arg_max_size : Z;
  arg_extensions : ArgValue
}.

Definition defaultArgs : Args :=
  mkArgs 58080 (StringArg (js "admin")) (StringArg (js "password"))
    (StringArg (js "./")) 10 (5 * 1024 * 1024 * 1024) (StringArg (js "")).

(** The constants the script computes when it starts, for a command line
    whose name, pass, directory and extensions are strings. *)
Record Settings := mkSettings {
  port : Z;
  username : jsstring;
  password : jsstring;
  uploadDir : jsstring;
  maxFiles : Z;
  maxSize : Z;
  allowedExtensions : list jsstring
}.

(** [args.extensions ? args.extensions.split(",").map(...) : []]. *)
Definition parseExtensions (extensions : jsstring) : list jsstring :=
  if truthy extensions
  then map (fun ext => toLowerCase (trim ext)) (split COMMA extensions)
  else [].

(** [cwd] is the working directory of the process and [generated] what
    [generateSimpleRandomPassword(8)] returns. There are no settings when
    one of the four options is not a string: [path.resolve] and [split]
    then throw and the script stops, or the name or the pass is a value
    that no header equals under [!==] and no request gets past [auth]. *)
Definition configure (args : Args) (cwd generated : jsstring)
    : option Settings :=
  match arg_user args, arg_password args, arg_dir args, arg_extensions args
  with
  | StringArg user, StringArg pass, StringArg dir, StringArg extensions =>
      Some (mkSettings (arg_port args) user
              (if streq pass (js "password") then generated else pass)
              (NodePath.resolve cwd dir)
              (arg_max_files args) (arg_max_size args)
              (parseExtensions extensions))
  | _, _, _, _ => None
  end.

(** The class [[^a-zA-Z0-9_\-.]] is the complement of this one. *)
Definition isNameChar (c : code) : bool :=
  (between 97 122 c || between 65 90 c || between 48 57 c
   || code_eqb c 95 || code_eqb c 45 || code_eqb c 46)%N.

(** [.replace(/[^a-zA-Z0-9_\-.]/g, "_")]. *)
Definition replaceOutside (s : jsstring) : jsstring :=
  map (fun c => if isNameChar c then c else UNDERSCORE) s.

(** [.replace(/\s+/g, "_")]: [inRun] tells that the unit before was
    white space, already replaced. *)
Fixpoint replaceRuns (inRun : bool) (s : jsstring) : jsstring :=
  match s with
  | [] => []
  | c :: t =>
      if isWhiteSpace c
      then (if inRun then [] else [UNDERSCORE]) ++ replaceRuns true t
      else c :: replaceRuns false t
  end.

Definition replaceWhitespaceRuns (s : jsstring) : jsstring :=
  replaceRuns false s.

Definition cleanFileName (originalname : jsstring) : jsstring :=
  replaceWhitespaceRuns (replaceOutside originalname).

(** The template [`${timestamp}-${cleanFileName}`]. *)
Definition storageName (timestamp : Z) (originalname : jsstring) : jsstring :=
  numberToString timestamp ++ js "-" ++ cleanFileName originalname.

(** [`${(size / (1024 * 1024)).toFixed(2)} MB`] for a size in bytes,
    an integer from 0 to 2^53: the division by a power of two is exact,
    and [toFixed(2)] takes the multiple of 1/100 closest to the quotient,
    the larger one of two that are as close. [hundredths] is that
    multiple, counted in hundredths. *)
Definition hundredths (size : Z) : Z :=
  ((200 * size + 1048576) / 2097152)%Z.

Definition sizeText (size : Z) : jsstring :=
  let n := hundredths size in
  numberToString (n / 100)%Z ++ js "."
  ++ numberToString (n mod 100 / 10)%Z ++ numberToString (n mod 10)%Z
  ++ js " MB".

(** An element of [fileDetails]. *)
Record Detail := mkDetail { name : jsstring; time : Z }.

Section Routes.

Variable cfg : Settings.

Definition unauthorized : Response :=
  mkResponse 401
    [(js "WWW-Authenticate",
      js "Basic realm=" ++ [QUOTE] ++ js "uplite" ++ [QUOTE])]
    (Text (js "Access Denied")).

(** [auth]: a response when the chain stops there, nothing on [next()]. *)
Definition auth (req : Request) : option Response :=
  match basicAuth req with
  | None => Some unauthorized
  | Some (name, pass) =>
      if negb (streq name (username cfg)) || negb (streq pass (password cfg))
      then Some unauthorized
      else None
  end.

(** [storage]. *)
Definition destination (file : Part) : Prog jsstring := Ret (uploadDir cfg).

Definition filename (file : Part) : Prog jsstring :=
  timestamp <- call DateNow ;;
  Ret (storageName timestamp (originalname file)).

(** [upload]'s [fileFilter]. *)
Definition fileExtension (originalname : jsstring) : jsstring :=
  removeFirst DOT (toLowerCase (extname originalname)).

Definition invalidType : Error :=
  PlainError (js "Invalid file type. Allowed extensions are: "
              ++ JS.join (js ", ") (allowedExtensions cfg)).

Definition fileFilter (file : Part) : Prog bool :=
  consoleLog [Str (js "Processing file:"); Str (originalname file)] ;;
  if (List.length (allowedExtensions cfg) =? 0)%nat then
    consoleLog [Str (js "File accepted (no restrictions).")] ;;
    Ret true
  else if includes (allowedExtensions cfg) (fileExtension (originalname file))
  then
    consoleLog [Str (js "File accepted:"); Str (originalname file)] ;;
    Ret true
  else
    consoleError [Str (js "File rejected due to invalid extension:");
                  Str (originalname file)] ;;
    Throw invalidType.

(** [upload.array("file", maxFiles)]. *)
Definition upload (body : Body) : Prog (option (list File)) :=
  MulterMiddleware.middleware destination filename fileFilter
    (maxSize cfg) (js "file") (maxFiles cfg) body.

Definition internalServerError : Response :=
  send 500 (js "Internal Server Error").

(** [GET /]. The existence check of an entry comes before its [stat];
    the entries are taken in the order of the enumeration. *)
Definition detailOf (file : jsstring) : Prog (option Detail) :=
  let filePath := NodePath.join (uploadDir cfg) file in
  present <- call (PathExists filePath) ;;
  if negb present then Ret None
  else
    stats <- call (Stat filePath) ;;
    Ret (Some (mkDetail file (Fs.st_mtimeMs stats))).

Definition byTimeDescending (a b : Detail) : Z := (time b - time a)%Z.

Definition getIndex : Prog Response :=
  tryCatch
    (files <- call (ReadDir (uploadDir cfg)) ;;
     fileDetails <- promiseAll detailOf files ;;
     let sortedFiles :=
       map name (sort byTimeDescending (filterBoolean fileDetails)) in
     Ret (render (js "index") (IndexLocals sortedFiles)))
    (fun err =>
       consoleError [Str (js "Error reading files:"); Err err] ;;
       Ret internalServerError).

(** [POST /upload], after [auth] and [upload]. *)
Definition postUploadHandler (files : option (list File)) : Prog Response :=
  tryCatch
    (match files with
     | None | Some [] => Ret (send 400 (js "No files were uploaded."))
     | Some l =>
         consoleLog [Str (js "Uploaded files:");
                     Strs (map file_originalname l)] ;;
         Ret (redirect (js "/"))
     end)
    (fun err =>
       consoleError [Str (js "Upload error:"); Str (message err)] ;;
       Ret (send 500 (orElse (message err)
                        (js "An error occurred during upload.")))).

Definition postUpload (body : Body) : Prog Response :=
  files <- upload body ;;
  postUploadHandler files.

(** [GET /info/:filename]. *)
Definition getInfo (filename : jsstring) : Prog Response :=
  let fileName := basename filename in
  let filePath := NodePath.join (uploadDir cfg) fileName in
  tryCatch
    (present <- call (PathExists filePath) ;;
     if negb present then Ret (send 404 (js "File not found."))
     else
       stats <- call (Stat filePath) ;;
       Ret (render (js "info")
              (InfoLocals (mkFileInfo fileName (sizeText (Fs.st_size stats))
                             (LocaleString (Fs.st_mtimeMs stats)) filePath))))
    (fun err =>
       consoleError [Str (js "Error getting file info:"); Err err] ;;
       Ret internalServerError).

(** [GET /delete/:filename]. *)
Definition getDelete (filename : jsstring) : Prog Response :=
  let fileName := basename filename in
  let filePath := NodePath.join (uploadDir cfg) fileName in
  tryCatch
    (present <- call (PathExists filePath) ;;
     if negb present then
       consoleWarn
         [Str (js "Attempted to access deletion page for non-existent file: "
               ++ fileName)] ;;
       Ret (send 404 (js "File not found."))
     else Ret (render (js "confirm-delete") (ConfirmDeleteLocals fileName)))
    (fun err =>
       consoleError [Str (js "Error checking file existence for deletion:");
                     Err err] ;;
       Ret internalServerError).

(** [POST /delete/:filename]. *)
Definition postDelete (filename : jsstring) : Prog Response :=
  let fileName := basename filename in
  let filePath := NodePath.join (uploadDir cfg) fileName in
  tryCatch
    (present <- call (PathExists filePath) ;;
     (if present then
        call (Remove filePath) ;;
        consoleLog [Str (js "Deleted file: " ++ fileName)]
      else
        consoleWarn [Str (js "Attempted to delete non-existent file: "
                          ++ fileName)]) ;;
     Ret (redirect (js "/")))
    (fun err =>
       consoleError [Str (js "Error deleting file:"); Err err] ;;
       Ret internalServerError).

(** [/files]: serve-static, then serve-index, in outline; both only
    read. A path that leaves the directory is handed to [next] as an
    error; for a path that names nothing no handler is left, and Express
    answers with its own page. A directory asked for without its final
    slash is first redirected to the path with the slash: the response
    given here for a directory is that of the request that follows. *)
Definition getFiles (subpath : jsstring) : Prog Response :=
  let target := NodePath.join (uploadDir cfg) subpath in
  if negb (Fs.isPrefix (Fs.resolve (uploadDir cfg)) (Fs.resolve target))
  then Throw (PlainError (js "Forbidden"))
  else
    found <- attempt (Stat target) ;;
    match found with
    | inl _ => Ret (mkResponse 404 [] NotFoundPage)
    | inr stats =>
        if Fs.st_isDirectory stats then
          names <- call (ReadDir target) ;;
          Ret (mkResponse 200 [] (DirectoryIndex target names))
        else Ret (mkResponse 200 [] (FileContent target))
    end.

(** The global error handler. *)
Definition errorHandler (err : Error) : Prog Response :=
  consoleError [Str (js "Unhandled Error:"); Str (message err)] ;;
  Ret (send 500 (orElse (message err) (js "An unexpected error occurred."))).

(** A route behind [auth]. *)
Definition behindAuth (req : Request) (handler : Prog Response)
    : Prog Response :=
  match auth req with
  | Some denied => Ret denied
  | None => handler
  end.

Definition dispatch (req : Request) : Prog Response :=
  match route req with
  | GetIndex => behindAuth req getIndex
  | PostUpload body => behindAuth req (postUpload body)
  | GetInfo filename => behindAuth req (getInfo filename)
  | GetDelete filename => behindAuth req (getDelete filename)
  | PostDelete filename => behindAuth req (postDelete filename)
  | GetFiles subpath => behindAuth req (getFiles subpath)
  end.

(** What is registered before the routes (lines 101-131) and the router
    itself: a request they refuse never reaches [auth]. *)
Definition beforeRoutes (req : Request) : Prog unit :=
  match refused req with
  | Some err => Throw err
  | None => Ret tt
  end.

(** The application: an error handed to [next] reaches the global error
    handler. *)
Definition app (req : Request) : Prog Response :=
  tryCatch (beforeRoutes req ;; dispatch req) errorHandler.

(** One request served in a world: the response and the world after. *)
Definition serve (req : Request) (w : World) : (Error + Response) * World :=
  run (app req) w.

(** [fs.ensureDirSync(uploadDir)] when the script starts; the script
    stops on an error. *)
Definition startup (t : Fs.FS) (now : Z) : Fs.Errno + Fs.FS :=
  Fs.ensureDir t (Fs.resolve (uploadDir cfg)) now.

End Routes.

(** [value !== configured] for a string of the [Authorization] header
    and a value of the command line: a string is never the Number or the
    [true] that minimist has made of an option. *)
Definition differs (given : jsstring) (configured : ArgValue) : bool :=
  match configured with
  | StringArg text => negb (streq given text)
  | NumberArg _ | TrueArg => true
  end.

(** Lines 27 and 37-39: the pass that [auth] compares with. *)
Definition passwordChecked (args : Args) (generated : jsstring) : ArgValue :=
  match arg_password args with
  | StringArg pass =>
      StringArg (if streq pass (js "password") then generated else pass)
  | other => other
  end.

(** [auth] on the values of the command line, whatever they are. *)
Definition authByArgs (args : Args) (generated : jsstring) (req : Request)
    : option Response :=
  match basicAuth req with
  | None => Some unauthorized
  | Some (name, pass) =>
      if differs name (arg_user args)
         || differs pass (passwordChecked args generated)
      then Some unauthorized
      else None
  end.

End Uplite.

Import Uplite.

Unset Implicit Arguments.

(* ------------------------------------------------------------------ *)
(** ** The rest of the script: generated password, request log, banner *)
(* ------------------------------------------------------------------ *)

Module UpliteMain.

Definition COLON : code := 58%N.

(** [s.charAt(i)]: the unit at [i], the empty string outside of [s]. *)
Definition charAt (s : jsstring) (i : Z) : jsstring :=
  if (i <? 0)%Z then []
  else match nth_error s (Z.to_nat i) with
       | Some c => [c]
       | None => []
       end.

Definition chars : jsstring := js "abcdefghijklmnopqrstuvwxyz0123456789".

(** A double from 0 up to, not including, 1, which is what
    [Math.random()] returns: [mantissa * 2^-scale] with
    [0 <= mantissa < 2^53], [mantissa < 2^scale] and [scale <= 1074];
    every such double has this form. *)
Record Draw := mkDraw { mantissa : Z; scale : Z }.

Definition isDraw (d : Draw) : Prop :=
  (0 <= mantissa d < 2 ^ 53 /\ mantissa d < 2 ^ scale d
   /\ 0 <= scale d <= 1074)%Z.

(** Rounding to a double, for an integer [m >= 0] counted in units of
    [2^-scale]: an integer below 2^53 is a double as it is; of a larger
    one the 53 leading bits are kept and the rest is rounded to the
    nearest, to the even one of two that are as near. *)
Definition roundToDouble (m : Z) : Z :=
  (if m <? 2 ^ 53 then m
   else
     let shift := Z.log2 m - 52 in
     let q := m / 2 ^ shift in
     let r := m mod 2 ^ shift in
     let half := 2 ^ (shift - 1) in
     (if (half <? r) || ((r =? half) && Z.odd q) then q + 1 else q)
     * 2 ^ shift)%Z.

(** [Math.floor(x * chars.length)] for the draw [x]: the product is the
    double closest to the exact one. *)
Definition randomIndex (x : Draw) (n : Z) : Z :=
  (roundToDouble (mantissa x * n) / 2 ^ scale x)%Z.

(** The loop of [generateSimpleRandomPassword]: [random i] is what
    [Math.random()] returns at turn [i]. *)
Fixpoint passwordLoop (random : nat -> Draw) (i turns : nat)
    (result : jsstring) : jsstring :=
  match turns with
  | O => result
  | S turns' =>
      let index := randomIndex (random i) (Z.of_nat (List.length chars)) in
      passwordLoop random (S i) turns' (result ++ charAt chars index)
  end.

Definition generateSimpleRandomPassword (random : nat -> Draw) (length : Z)
    : jsstring :=
  passwordLoop random 0 (Z.to_nat length) [].

(** [s.startsWith(prefix)] and [s.includes(needle)]. *)
Fixpoint startsWith (s prefix : jsstring) : bool :=
  match prefix, s with
  | [], _ => true
  | p :: prefix', c :: s' => code_eqb c p && startsWith s' prefix'
  | _ :: _, [] => false
  end.

Fixpoint stringIncludes (s needle : jsstring) : bool :=
  startsWith s needle
  || match s with
     | [] => false
     | _ :: s' => stringIncludes s' needle
     end.

(** The request log: [req.headers["x-forwarded-for"] ||
    req.connection.remoteAddress], then the part after the last colon when
    the address holds [::ffff:]. *)
Definition clientIP (forwardedFor : option jsstring)
    (remoteAddress : jsstring) : jsstring :=
  match forwardedFor with
  | Some header => orElse header remoteAddress
  | None => remoteAddress
  end.

Definition ipv4 (clientIP : jsstring) : jsstring :=
  if stringIncludes clientIP (js "::ffff:")
  then last (split COLON clientIP) []
  else clientIP.

(** An entry of [os.networkInterfaces()]. *)
Record Iface := mkIface { family : jsstring; address : jsstring }.

(** [set.add(x)] on a [Set] of strings, kept in insertion order. *)
Definition setAdd (s : list jsstring) (x : jsstring) : list jsstring :=
  if includes s x then s else s ++ [x].

(** The template [`http://${host}:${port}`]. *)
Definition url (host : jsstring) (port : Z) : jsstring :=
  js "http://" ++ host ++ js ":" ++ numberToString port.

(** The addresses the banner prints, in the order it prints them. *)
Definition uniqueAddresses (port : Z) (networkInterfaces : list (list Iface))
    : list jsstring :=
  let local :=
    setAdd (setAdd [] (url (js "localhost") port)) (url (js "127.0.0.1") port)
  in
  fold_left
    (fun s interfaces =>
       fold_left
         (fun s' iface =>
            if streq (family iface) (js "IPv4")
            then setAdd s' (url (address iface) port)
            else s')
         interfaces s)
    networkInterfaces local.

End UpliteMain.

Import UpliteMain.

(* ------------------------------------------------------------------ *)
(** ** Specification vocabulary *)
(* ------------------------------------------------------------------ *)

(** The path that lines 177-178, 203-204 and 218-219 compute from the
    route parameter. *)
Definition requestedPath (cfg : Settings) (filename : jsstring) : jsstring :=
  NodePath.join (uploadDir cfg) (basename filename).

(** [p] is [dir] or lies below it. *)
Definition within (dir p : jsstring) : bool :=
  Fs.isPrefix (Fs.resolve dir) (Fs.resolve p).

(** A request carrying the configured credentials, not refused before its
    route. *)
Definition authorized (cfg : Settings) (r : Route) : Request :=
  mkRequest r (Some (username cfg, password cfg)) None.

(** The request's credentials are absent or differ from the configured
    pair. *)
Definition badCredentials (cfg : Settings) (req : Request) : Prop :=
  match basicAuth req with
  | None => True
  | Some (name, pass) => name <> username cfg \/ pass <> password cfg
  end.

(** No path separator and no control character. *)
Definition isControl (c : code) : bool :=
  ((c <? 32) || between 127 159 c)%N.

Definition isSeparator (c : code) : bool :=
  (code_eqb c 47 || code_eqb c 92)%N.

Definition safeName (n : jsstring) : bool :=
  forallb (fun c => negb (isSeparator c || isControl c)) n.

(** Every entry directly in [uploadDir] has a safe name. *)
Definition StoredNamesSafe (cfg : Settings) (t : Fs.FS) : Prop :=
  forall e, In e t ->
    Fs.isChildOf (Fs.resolve (uploadDir cfg)) (fst e) = true ->
    safeName (last (fst e) []) = true.

(** A component that names an entry: not empty, not [.] and not [..]. *)
Definition properSegment (seg : jsstring) : bool :=
  negb (streq seg [] || streq seg [DOT] || isDotDot seg).

Definition slashFree (s : jsstring) : Prop := ~ In SLASH s.

(** The order of the listing: [a] may come before [b]. *)
Definition newerFirst (a b : Detail) : Prop := (time b <= time a)%Z.

(** Every operation a program can reach satisfies [P]. *)
Inductive AllOps (P : forall X : Type, Op X -> Prop) {A : Type}
    : Prog A -> Prop :=
| AllOps_Ret (a : A) : AllOps P (Ret a)
| AllOps_Throw (e : Error) : AllOps P (Throw e)
| AllOps_Do (X : Type) (op : Op X) (k : Error + X -> Prog A) :
    P X op -> (forall r, AllOps P (k r)) -> AllOps P (Do op k).

(** An operation that cannot put an unsafe name into [uploadDir]: a write
    whose target, when it is directly in [uploadDir], has a safe name. *)
Definition keepsNamesSafe (cfg : Settings) (X : Type) (op : Op X) : Prop :=
  match op with
  | WriteStream p _ =>
      Fs.isChildOf (Fs.resolve (uploadDir cfg)) (Fs.resolve p) = true ->
      safeName (last (Fs.resolve p) []) = true
  | _ => True
  end.

(** A world in which an invariant of the tree holds and is kept by the
    changes other requests still make. *)
Definition holdsIn (I : Fs.FS -> Prop) (w : World) : Prop :=
  I (fs w) /\ Forall (fun change => forall t, I t -> I (change t)) (others w).

(** The middleware the script builds, and its step for one file. *)
Definition uploadParts (cfg : Settings) (filesLeft : Z) (uploaded : list File)
    (parts : list Part) : Prog (list File) :=
  MulterMiddleware.processParts (destination cfg) filename (fileFilter cfg)
    (maxSize cfg) (js "file") filesLeft uploaded parts.

Definition uploadOne (cfg : Settings) (filesLeft : Z) (uploaded : list File)
    (part : Part) : Prog (Z * list File) :=
  MulterMiddleware.onFile (destination cfg) filename (fileFilter cfg)
    (maxSize cfg) (js "file") filesLeft uploaded part.

(** The parts multer takes for files: those with a file name. *)
Definition isFilePart (p : Part) : bool := truthy (originalname p).

Definition fileParts (parts : list Part) : list Part := filter isFilePart parts.

(** A string of the Basic Latin block. *)
Definition basicLatin (s : jsstring) : Prop :=
  Forall (fun c => isBasicLatin c = true) s.


(** What the filter refuses: there is an allow-list, and the extension
    of the part is not in it. *)
Definition disallowed (cfg : Settings) (p : Part) : Prop :=
  allowedExtensions cfg <> []
  /\ ~ In (fileExtension (originalname p)) (allowedExtensions cfg).

(** The body of the response of the global error handler. *)
Definition errorResponse (err : Error) : Response :=
  send 500 (orElse (message err) (js "An unexpected error occurred.")).

(** A tree whose locations are made of entry names. *)
Definition wellFormedTree (t : Fs.FS) : Prop :=
  forall e, In e t ->
    Forall (fun s => properSegment s = true /\ slashFree s) (fst e).

Definition mtimeAt (t : Fs.FS) (p : Fs.Path) : Z :=
  match Fs.stat t p with
  | inr stats => Fs.st_mtimeMs stats
  | inl _ => 0%Z
  end.

(** The entries directly in [uploadDir], in the order of the enumeration,
    each with its modification time. *)
Definition listed (cfg : Settings) (t : Fs.FS) : list Detail :=
  map (fun n => mkDetail n (mtimeAt t (Fs.resolve (uploadDir cfg) ++ [n])))
    (Fs.children t (Fs.resolve (uploadDir cfg))).

(** [p] is a directory of [t]. *)
Definition isDirectory (t : Fs.FS) (p : Fs.Path) : Prop :=
  exists m, Fs.lookup t p = Some (Fs.DirNode m).

(** What another request does to the tree: nothing, or a delete. *)
Definition idle (t : Fs.FS) : Fs.FS := t.

Definition deleting (p : Fs.Path) (t : Fs.FS) : Fs.FS := Fs.remove t p.

(** An operation that leaves the tree as it is. *)
Definition readOnly (X : Type) (op : Op X) : Prop :=
  match op with
  | Remove _ => False
  | Unlink _ => False
  | WriteStream _ _ => False
  | _ => True
  end.

(** The routes that only look: the listing, the info page and the
    confirmation page of a delete. *)
Definition looksOnly (r : Route) : Prop :=
  match r with
  | GetIndex => True
  | GetInfo _ => True
  | GetDelete _ => True
  | _ => False
  end.

(** A call to the console with one string. *)
Definition addConsole (w : World) (l : Level) (text : jsstring) : World :=
  logged w l [Str text].

(** Where the part is stored when its name is made at [now]. *)
Definition storagePath (cfg : Settings) (now : Z) (p : Part) : Fs.Path :=
  Fs.resolve (uploadDir cfg) ++ [storageName now (originalname p)].

(** A file part that passes the three checks of the middleware. *)
Definition acceptable (cfg : Settings) (p : Part) : Prop :=
  fieldname p = js "file" /\ ~ disallowed cfg p /\ (bytes p < maxSize cfg)%Z.

(** What an upload that goes through stores, in the order of the parts:
    the name of a file part is made from the clock as [Date.now()] reads
    it for that part, and the file is stamped with the clock as the system
    reads it next. *)
Fixpoint stores (cfg : Settings) (clock : Z) (ticks : list Z)
    (parts : list Part) : list (Fs.Path * Fs.Node) :=
  match parts with
  | [] => []
  | p :: rest =>
      if isFilePart p then
        let stamped := clockNext clock ticks in
        (storagePath cfg clock p, Fs.FileNode stamped (bytes p))
        :: stores cfg (clockNext stamped (tl ticks)) (tl (tl ticks)) rest
      else stores cfg clock ticks rest
  end.

(** What a location holds once [saved] has been stored there, when it
    is stored there; what it held otherwise. *)
Definition written (path : Fs.Path) (held : option Fs.Node)
    (saved : Fs.Path * Fs.Node) : option Fs.Node :=
  if Fs.path_eqb (fst saved) path then Some (snd saved) else held.

(** What a location holds after the files have been stored in turn. *)
Definition heldAfter (saved : list (Fs.Path * Fs.Node)) (t : Fs.FS)
    (path : Fs.Path) : option Fs.Node :=
  fold_left (written path) saved (Fs.lookup t path).

(** Parts the middleware lets through, in a world where they can be
    stored: [uploadDir] is there, the file parts are not more than
    [filesLeft], each passes the checks, and no directory has the name a
    part is stored under. *)
Definition storable (cfg : Settings) (filesLeft : Z) (parts : list Part)
    (w : World) : Prop :=
  isDirectory (fs w) (Fs.resolve (uploadDir cfg))
  /\ (Z.of_nat (List.length (fileParts parts)) <= filesLeft)%Z
  /\ (forall p, In p parts -> isFilePart p = true -> acceptable cfg p)
  /\ (forall saved m,
        In saved (stores cfg (clock w) (ticks w) parts) ->
        Fs.lookup (fs w) (fst saved) <> Some (Fs.DirNode m)).

(** Every operation a program can reach satisfies [P], and every value it
    returns satisfies [Q]. *)
Inductive Sat (P : forall X : Type, Op X -> Prop) {A : Type} (Q : A -> Prop)
    : Prog A -> Prop :=
| Sat_Ret (a : A) : Q a -> Sat P Q (Ret a)
| Sat_Throw (e : Error) : Sat P Q (Throw e)
| Sat_Do (X : Type) (op : Op X) (k : Error + X -> Prog A) :
    P X op -> (forall r, Sat P Q (k r)) -> Sat P Q (Do op k).

(** A path string that names an entry directly in [uploadDir]. *)
Definition inUploadDir (cfg : Settings) (p : jsstring) : Prop :=
  Fs.isChildOf (Fs.resolve (uploadDir cfg)) (Fs.resolve p) = true.

(** An operation that changes nothing but entries directly in
    [uploadDir]. *)
Definition touchesUploadsOnly (cfg : Settings) (X : Type) (op : Op X) : Prop :=
  match op with
  | WriteStream p _ => inUploadDir cfg p
  | Unlink p => inUploadDir cfg p
  | Remove _ => False
  | _ => True
  end.

(** The entries of [t0] that are not directly in [uploadDir] are entries
    of [t], as they were. *)
Definition outsideKept (cfg : Settings) (t0 t : Fs.FS) : Prop :=
  forall e, In e t0 ->
    Fs.isChildOf (Fs.resolve (uploadDir cfg)) (fst e) = false -> In e t.

(** A lower-case letter or a digit. *)
Definition isPasswordChar (c : code) : bool :=
  (between 97 122 c || between 48 57 c)%N.

(** Neither the first nor the last unit of [s] is white space. *)
Definition trimmed (s : jsstring) : Prop :=
  (forall c t, s = c :: t -> isWhiteSpace c = false)
  /\ (forall c t, s = t ++ [c] -> isWhiteSpace c = false).

(** A sample installation, for the examples. *)
Module Sample.

(** At most 2 files of at most 100 bytes, [jpg] only, in [/srv/up]. *)
Definition cfg : Settings :=
  mkSettings 58080 (js "admin") (js "s3cret") (js "/srv/up") 2 100 [js "jpg"].

(** The same without an allow-list. *)
Definition unrestricted : Settings :=
  mkSettings 58080 (js "admin") (js "s3cret") (js "/srv/up") 2 100 [].

Definition tree : Fs.FS :=
  [ ([js "srv"], Fs.DirNode 1);
    ([js "srv"; js "up"], Fs.DirNode 2);
    ([js "srv"; js "up"; js "a.txt"], Fs.FileNode 10 5);
    ([js "srv"; js "up"; js "b.txt"], Fs.FileNode 20 7);
    ([js "srv"; js "up"; js "c.txt"], Fs.FileNode 10 9);
    ([js "srv"; js "secret.key"], Fs.FileNode 3 32) ].

Definition world : World := quiet tree 1700000000000.

(** The same tree while time passes: 2 ms until the clock is read again,
    then none, then 3, then 1. *)
Definition busy : World := mkWorld tree 1700000000000 [] [] [2; 0; 3; 1]%Z.

(** [uplite --password s3cret --dir /srv/up --max-files 2 --max-size 100
    --extensions jpg,] started in [/home/app]. *)
Definition args : Args :=
  mkArgs 58080 (StringArg (js "admin")) (StringArg (js "s3cret"))
    (StringArg (js "/srv/up")) 2 100 (StringArg (js "jpg,")).

Definition trailing : Settings :=
  match configure args (js "/home/app") (js "k3x9q2ab") with
  | Some cfg => cfg
  | None => unrestricted
  end.

(** Two pictures and a text field. *)
Definition photos : list Part :=
  [ mkPart (js "file") (js "a b.jpg") 5;
    mkPart (js "comment") (js "") 3;
    mkPart (js "file") (js "c.JPG") 7 ].

End Sample.

(* ------------------------------------------------------------------ *)
(** ** Strings *)
(* ------------------------------------------------------------------ *)

Lemma streq_refl (a : jsstring) : streq a a = true.
Proof.
  induction a as [|c a IH]; simpl; [reflexivity|].
  unfold code_eqb. rewrite N.eqb_refl. exact IH.
Qed.

Lemma streq_eq (a b : jsstring) : streq a b = true <-> a = b.
Proof.
  split.
  - revert b. induction a as [|x a IH]; intros [|y b] H; simpl in H;
      try discriminate; [reflexivity|].
    apply andb_true_iff in H. destruct H as [Hxy Hab].
    apply N.eqb_eq in Hxy. subst y. f_equal. apply IH. exact Hab.
  - intros ->. apply streq_refl.
Qed.

Lemma streq_neq (a b : jsstring) : a <> b -> streq a b = false.
Proof.
  intros H. destruct (streq a b) eqn:E; [|reflexivity].
  apply streq_eq in E. contradiction.
Qed.

Lemma includes_In (l : list jsstring) (s : jsstring) :
  includes l s = true <-> In s l.
Proof.
  unfold includes. rewrite existsb_exists. split.
  - intros [x [Hx E]]. apply streq_eq in E. subst x. exact Hx.
  - intros H. exists s. split; [exact H | apply streq_refl].
Qed.

(* ------------------------------------------------------------------ *)
(** ** Running programs *)
(* ------------------------------------------------------------------ *)

Lemma run_bind {A B : Type} (p : Prog A) (f : A -> Prog B) (w : World) :
  run (bind p f) w =
  match run p w with
  | (inl e, w') => (inl e, w')
  | (inr a, w') => run (f a) w'
  end.
Proof.
  revert w. induction p as [a|e|X op k IH]; intros w; simpl; try reflexivity.
  destruct (exec op (if isAsync op then yield w else w)) as [r w2].
  apply IH.
Qed.

Lemma run_tryCatch {A : Type} (p : Prog A) (h : Error -> Prog A) (w : World) :
  run (tryCatch p h) w =
  match run p w with
  | (inl e, w') => run (h e) w'
  | (inr a, w') => (inr a, w')
  end.
Proof.
  revert w. induction p as [a|e|X op k IH]; intros w; simpl; try reflexivity.
  destruct (exec op (if isAsync op then yield w else w)) as [r w2].
  apply IH.
Qed.
(* ------------------------------------------------------------------ *)
(** ** The auth gate *)
(* ------------------------------------------------------------------ *)

Lemma auth_bad (cfg : Settings) (req : Request) :
  badCredentials cfg req -> auth cfg req = Some unauthorized.
Proof.
  unfold badCredentials, auth.
  destruct (basicAuth req) as [[name pass]|]; [|reflexivity].
  intros [H|H]; rewrite (streq_neq _ _ H); simpl; [reflexivity|].
  rewrite orb_true_r. reflexivity.
Qed.

Lemma auth_good (cfg : Settings) (r : Route) :
  auth cfg (authorized cfg r) = None.
Proof.
  unfold auth, authorized. simpl. rewrite !streq_refl. reflexivity.
Qed.

Lemma app_routed (cfg : Settings) (req : Request) :
  refused req = None -> app cfg req = tryCatch (dispatch cfg req) errorHandler.
Proof. intros H. unfold app, beforeRoutes. rewrite H. reflexivity. Qed.

Lemma app_refused (cfg : Settings) (req : Request) (err : Error) :
  refused req = Some err -> app cfg req = errorHandler err.
Proof. intros H. unfold app, beforeRoutes. rewrite H. reflexivity. Qed.

(** C2, as stated, fails: a request without credentials whose body
    [express.json] cannot parse is answered 500 by the global error
    handler, with the message of the parser and without the challenge;
    [auth] is never reached. *)
Lemma unparsable_body_is_answered_500_without_challenge :
  let req :=
    mkRequest GetIndex None
      (Some (PlainError (js "Unexpected end of JSON input"))) in
  badCredentials Sample.cfg req
  /\ fst (serve Sample.cfg req Sample.world)
     = inr (send 500 (js "Unexpected end of JSON input"))
  /\ fst (serve Sample.cfg req Sample.world) <> inr unauthorized.
Proof.
  cbv zeta. split; [exact I|]. split; [reflexivity|discriminate].
Qed.

(** C2, amended. A request whose credentials are absent or differ from
    the configured pair: when the body parsers and the router let it
    through to its route, it is answered by [auth] itself, the program of
    the request being the 401 response with its [WWW-Authenticate]
    challenge and holding no operation at all, so the world (directory
    tree, console, pending changes) is the one before; when they refuse
    it, the global error handler answers 500 with the message of their
    error and no challenge, and logs it. In both cases the directory tree
    is left as it is. *)
Theorem bad_credentials_are_rejected_by_auth_or_before :
  forall (cfg : Settings) (req : Request) (w : World),
    badCredentials cfg req ->
    (refused req = None ->
     app cfg req = Ret unauthorized
     /\ serve cfg req w = (inr unauthorized, w)
     /\ status unauthorized = 401%Z
     /\ In (js "WWW-Authenticate",
            js "Basic realm=" ++ [QUOTE] ++ js "uplite" ++ [QUOTE])
           (headers unauthorized))
    /\ (forall err : Error,
          refused req = Some err ->
          serve cfg req w
          = (inr (send 500 (orElse (message err)
                              (js "An unexpected error occurred."))),
             logged w ERROR [Str (js "Unhandled Error:"); Str (message err)]))
    /\ fs (snd (serve cfg req w)) = fs w.
Proof.
  intros cfg req w Hbad.
  assert (Happ : refused req = None -> app cfg req = Ret unauthorized).
  { intros Hnone. rewrite (app_routed cfg req Hnone).
    unfold dispatch, behindAuth. rewrite (auth_bad cfg req Hbad).
    destruct (route req); reflexivity. }
  assert (Hrefused : forall err, refused req = Some err ->
            serve cfg req w
            = (inr (send 500 (orElse (message err)
                                (js "An unexpected error occurred."))),
               logged w ERROR
                 [Str (js "Unhandled Error:"); Str (message err)])).
  { intros err Hsome. unfold serve. rewrite (app_refused cfg req err Hsome).
    reflexivity. }
  split; [|split].
  - intros Hnone. split; [exact (Happ Hnone)|].
    split; [unfold serve; rewrite (Happ Hnone); reflexivity|].
    split; [reflexivity|left; reflexivity].
  - exact Hrefused.
  - destruct (refused req) as [err|] eqn:E.
    + rewrite (Hrefused err eq_refl). reflexivity.
    + unfold serve. rewrite (Happ eq_refl). reflexivity.
Qed.

Lemma bad_credentials_are_rejected_by_auth_or_before_witness :
  serve Sample.cfg
    (mkRequest (PostDelete (js "a.txt")) (Some (js "admin", js "guess")) None)
    Sample.world
  = (inr unauthorized, Sample.world).
Proof.
  destruct (bad_credentials_are_rejected_by_auth_or_before Sample.cfg
              (mkRequest (PostDelete (js "a.txt"))
                 (Some (js "admin", js "guess")) None)
              Sample.world) as [H _].
  - simpl. right. discriminate.
  - destruct (H eq_refl) as [_ [Hserve _]]. exact Hserve.
Defined.

(* ------------------------------------------------------------------ *)
(** ** Storage names *)
(* ------------------------------------------------------------------ *)

Lemma nameChar_not_whiteSpace (c : code) :
  isNameChar c = true -> isWhiteSpace c = false.
Proof.
  intros H. destruct (isWhiteSpace c) eqn:E; [|reflexivity]. exfalso.
  unfold isNameChar, isWhiteSpace, between, code_eqb in *.
  repeat rewrite ?orb_true_iff, ?andb_true_iff, ?N.leb_le, ?N.eqb_eq in *.
  lia.
Qed.

Lemma replaceRuns_no_whiteSpace (s : jsstring) (inRun : bool) :
  Forall (fun c => isWhiteSpace c = false) s -> replaceRuns inRun s = s.
Proof.
  intros H. revert inRun.
  induction H as [|c s Hc Hs IH]; intros inRun; simpl; [reflexivity|].
  rewrite Hc. f_equal. apply IH.
Qed.

Lemma replaceOutside_nameChars (s : jsstring) :
  Forall (fun c => isNameChar c = true) (replaceOutside s).
Proof.
  induction s as [|c s IH]; simpl; constructor; [|exact IH].
  destruct (isNameChar c) eqn:E; [exact E | reflexivity].
Qed.

(** The second [replace] never finds white space: the first one has
    already turned every white-space unit into its own underscore. *)
Lemma cleanFileName_replaceOutside (s : jsstring) :
  cleanFileName s = replaceOutside s.
Proof.
  unfold cleanFileName, replaceWhitespaceRuns.
  apply replaceRuns_no_whiteSpace.
  eapply Forall_impl; [|apply replaceOutside_nameChars].
  intros c. apply nameChar_not_whiteSpace.
Qed.

(** C5. The storage name is the timestamp, a dash and the cleaned name,
    and the cleaned name has one unit for each unit of the original name:
    the unit itself when it is in [[A-Za-z0-9_.-]], an underscore
    otherwise. So a run of white space is not collapsed: for the original
    name [a  b.txt] (two spaces) uploaded at 1700000000000 the disk
    storage's [filename] yields [1700000000000-a__b.txt], one underscore
    for each space, where the claim has a single underscore for the run
    (which is what the second [replace] alone would give). *)
Theorem storage_name_keeps_one_underscore_per_space :
  (forall (timestamp : Z) (originalname : jsstring),
      storageName timestamp originalname
      = numberToString timestamp ++ js "-"
        ++ map (fun c => if isNameChar c then c else UNDERSCORE) originalname)
  /\ fst (run (filename (mkPart (js "file") (js "a  b.txt") 5)) Sample.world)
     = inr (js "1700000000000-a__b.txt")
  /\ storageName 1700000000000 (js "a  b.txt") <> js "1700000000000-a_b.txt"
  /\ replaceWhitespaceRuns (js "a  b.txt") = js "a_b.txt".
Proof.
  split.
  - intros timestamp originalname. unfold storageName.
    rewrite cleanFileName_replaceOutside. reflexivity.
  - repeat split; try reflexivity. discriminate.
Qed.
(* ------------------------------------------------------------------ *)
(** ** The extension filter *)
(* ------------------------------------------------------------------ *)

Lemma run_consoleLog {A : Type} (args : list LogArg) (k : Prog A) (w : World) :
  run (consoleLog args ;; k) w = run k (logged w LOG args).
Proof. reflexivity. Qed.

Lemma run_consoleError {A : Type} (args : list LogArg) (k : Prog A)
    (w : World) :
  run (consoleError args ;; k) w = run k (logged w ERROR args).
Proof. reflexivity. Qed.

Lemma run_consoleWarn {A : Type} (args : list LogArg) (k : Prog A)
    (w : World) :
  run (consoleWarn args ;; k) w = run k (logged w WARN args).
Proof. reflexivity. Qed.

(** The filter only writes to the console. *)
Lemma fileFilter_logs (cfg : Settings) (file : Part) (w : World) :
  exists entries,
    snd (run (fileFilter cfg file) w)
    = mkWorld (fs w) (clock w) (console w ++ entries) (others w) (ticks w).
Proof.
  unfold fileFilter. rewrite run_consoleLog.
  destruct (List.length (allowedExtensions cfg) =? 0)%nat;
    [|destruct (includes (allowedExtensions cfg)
                  (fileExtension (originalname file)))];
    eexists; simpl; unfold logged; simpl; rewrite <- app_assoc; reflexivity.
Qed.

(** What the filter does, by cases on the allow-list. *)
Lemma fileFilter_unrestricted (cfg : Settings) (file : Part) (w : World) :
  allowedExtensions cfg = [] ->
  fst (run (fileFilter cfg file) w) = inr true
  /\ fs (snd (run (fileFilter cfg file) w)) = fs w
  /\ others (snd (run (fileFilter cfg file) w)) = others w.
Proof.
  intros H. unfold fileFilter. rewrite H. simpl. auto.
Qed.

Lemma fileFilter_listed (cfg : Settings) (file : Part) (w : World) :
  In (fileExtension (originalname file)) (allowedExtensions cfg) ->
  fst (run (fileFilter cfg file) w) = inr true
  /\ fs (snd (run (fileFilter cfg file) w)) = fs w
  /\ others (snd (run (fileFilter cfg file) w)) = others w.
Proof.
  intros H. unfold fileFilter.
  destruct (allowedExtensions cfg) as [|a l] eqn:E; [destruct H|].
  rewrite run_consoleLog.
  change (List.length (a :: l) =? 0)%nat with false. cbv iota.
  apply includes_In in H. rewrite H. simpl. auto.
Qed.

Lemma fileFilter_unlisted (cfg : Settings) (file : Part) (w : World) :
  allowedExtensions cfg <> [] ->
  ~ In (fileExtension (originalname file)) (allowedExtensions cfg) ->
  fst (run (fileFilter cfg file) w) = inl (invalidType cfg)
  /\ fs (snd (run (fileFilter cfg file) w)) = fs w
  /\ others (snd (run (fileFilter cfg file) w)) = others w.
Proof.
  intros Hne H. unfold fileFilter.
  destruct (allowedExtensions cfg) as [|a l] eqn:E; [contradiction|].
  rewrite run_consoleLog.
  change (List.length (a :: l) =? 0)%nat with false. cbv iota.
  destruct (includes (a :: l) (fileExtension (originalname file))) eqn:Hin.
  - apply includes_In in Hin. contradiction.
  - simpl. auto.
Qed.

(** C9. When the [--extensions] option is not empty and one of its
    comma-separated entries is empty once trimmed (as after a trailing or
    doubled comma), the allow-list is not empty and holds the empty
    string, and the filter accepts every file whose name has no
    extension. *)
Theorem empty_extension_entry_admits_files_without_extension :
  forall (extensions entry : jsstring),
    extensions <> [] ->
    In entry (split COMMA extensions) ->
    trim entry = [] ->
    parseExtensions extensions <> []
    /\ In [] (parseExtensions extensions)
    /\ forall (cfg : Settings) (file : Part) (w : World),
         allowedExtensions cfg = parseExtensions extensions ->
         extname (originalname file) = [] ->
         fst (run (fileFilter cfg file) w) = inr true.
Proof.
  intros extensions entry Hne Hin Htrim.
  assert (Hempty : In [] (parseExtensions extensions)).
  { unfold parseExtensions. destruct extensions as [|c s]; [contradiction|].
    simpl truthy. cbv iota.
    apply in_map_iff. exists entry. split; [|exact Hin].
    rewrite Htrim. reflexivity. }
  split; [|split].
  - intros E. rewrite E in Hempty. destruct Hempty.
  - exact Hempty.
  - intros cfg file w Hcfg Hext.
    apply fileFilter_listed. rewrite Hcfg.
    unfold fileExtension. rewrite Hext. exact Hempty.
Qed.

Lemma empty_extension_entry_admits_files_without_extension_witness :
  parseExtensions (js "jpg,") = [js "jpg"; js ""]
  /\ fst (run (fileFilter Sample.trailing (mkPart (js "file") (js "README") 5))
            Sample.world) = inr true.
Proof.
  split; [reflexivity|].
  apply (empty_extension_entry_admits_files_without_extension
           (js "jpg,") (js "")).
  - discriminate.
  - simpl. right. left. reflexivity.
  - reflexivity.
  - reflexivity.
  - reflexivity.
Defined.

(* ------------------------------------------------------------------ *)
(** ** Paths *)
(* ------------------------------------------------------------------ *)

Lemma isSlash_true (c : code) : isSlash c = true <-> c = SLASH.
Proof. unfold isSlash, code_eqb. apply N.eqb_eq. Qed.

Lemma split_cons_sep (sep : code) (s : jsstring) :
  split sep (sep :: s) = [] :: split sep s.
Proof. simpl. unfold code_eqb. rewrite N.eqb_refl. reflexivity. Qed.

Lemma split_not_nil (sep : code) (s : jsstring) : split sep s <> [].
Proof.
  destruct s as [|c s]; simpl; [discriminate|].
  destruct (code_eqb c sep); [discriminate|].
  destruct (split sep s); discriminate.
Qed.

Lemma split_pieces_free (sep : code) (s : jsstring) :
  Forall (fun piece => ~ In sep piece) (split sep s).
Proof.
  induction s as [|c s IH]; simpl.
  - constructor; [intros []|constructor].
  - destruct (code_eqb c sep) eqn:E.
    + constructor; [intros []|exact IH].
    + destruct (split sep s) as [|piece rest]; [repeat constructor|].
      * intros [H|[]]. subst c. unfold code_eqb in E.
        rewrite N.eqb_refl in E. discriminate.
      * inversion IH as [|? ? Hp Hr]; subst. constructor; [|exact Hr].
        intros [H|H]; [|exact (Hp H)]. subst c. unfold code_eqb in E.
        rewrite N.eqb_refl in E. discriminate.
Qed.

Lemma split_free (sep : code) (s : jsstring) :
  ~ In sep s -> split sep s = [s].
Proof.
  induction s as [|c s IH]; intros H; simpl; [reflexivity|].
  destruct (code_eqb c sep) eqn:E.
  - apply N.eqb_eq in E. subst c. exfalso. apply H. left. reflexivity.
  - rewrite IH; [reflexivity|]. intros Hin. apply H. right. exact Hin.
Qed.

Lemma split_app_sep (sep : code) (a b : jsstring) :
  split sep (a ++ sep :: b) = split sep a ++ split sep b.
Proof.
  induction a as [|c a IH]; simpl.
  - unfold code_eqb. rewrite N.eqb_refl. reflexivity.
  - destruct (code_eqb c sep); [rewrite IH; reflexivity|].
    rewrite IH. destruct (split sep a) as [|piece rest] eqn:E.
    + exfalso. exact (split_not_nil sep a E).
    + reflexivity.
Qed.

Lemma split_join (sep : code) (segs : list jsstring) :
  segs <> [] ->
  Forall (fun seg => ~ In sep seg) segs ->
  split sep (JS.join [sep] segs) = segs.
Proof.
  induction segs as [|p rest IH]; intros Hne Hfree; [contradiction|].
  inversion Hfree as [|? ? Hp Hrest]; subst.
  destruct rest as [|q rest'].
  - simpl. apply split_free. exact Hp.
  - change (JS.join [sep] (p :: q :: rest'))
      with (p ++ sep :: JS.join [sep] (q :: rest')).
    rewrite split_app_sep, (split_free sep p Hp), IH; [reflexivity| |exact Hrest].
    discriminate.
Qed.

Lemma join_nil (sep : jsstring) (segs : list jsstring) :
  Forall (fun seg => seg <> []) segs -> JS.join sep segs = [] -> segs = [].
Proof.
  intros H E. destruct segs as [|p rest]; [reflexivity|]. exfalso.
  inversion H as [|? ? Hp _]; subst.
  destruct rest; simpl in E; [contradiction|].
  apply app_eq_nil in E. destruct E as [E _]. contradiction.
Qed.

Lemma properSegment_spec (seg : jsstring) :
  properSegment seg = true <-> seg <> [] /\ seg <> [DOT] /\ seg <> [DOT; DOT].
Proof.
  unfold properSegment, isDotDot.
  rewrite negb_true_iff, !orb_false_iff. split.
  - intros [[H1 H2] H3]. repeat split; intros E; subst seg; discriminate.
  - intros [H1 [H2 H3]]. repeat split; apply streq_neq; assumption.
Qed.

Lemma pushSegment_proper (b : bool) (stack : list jsstring) (seg : jsstring) :
  properSegment seg = true -> pushSegment b stack seg = seg :: stack.
Proof.
  unfold properSegment, pushSegment. rewrite negb_true_iff, orb_false_iff.
  intros [H1 H2]. rewrite H1, H2. reflexivity.
Qed.

Lemma pushSegment_skip (b : bool) (stack : list jsstring) (seg : jsstring) :
  seg = [] \/ seg = [DOT] -> pushSegment b stack seg = stack.
Proof. intros [->| ->]; reflexivity. Qed.

Lemma pushSegment_up (stack : list jsstring) :
  Forall (fun s => properSegment s = true) stack ->
  pushSegment false stack [DOT; DOT] = tl stack.
Proof.
  intros H. unfold pushSegment. simpl.
  destruct stack as [|top below]; [reflexivity|].
  inversion H as [|? ? Htop _]; subst.
  unfold properSegment in Htop. rewrite negb_true_iff, orb_false_iff in Htop.
  destruct Htop as [_ Htop]. rewrite Htop. reflexivity.
Qed.

Lemma pushSegment_cases (stack : list jsstring) (seg : jsstring) :
  properSegment seg = true \/ seg = [] \/ seg = [DOT] \/ seg = [DOT; DOT].
Proof.
  destruct (properSegment seg) eqn:E; [left; reflexivity|right].
  unfold properSegment, isDotDot in E.
  rewrite negb_false_iff, !orb_true_iff, !streq_eq in E. tauto.
Qed.

Lemma pushSegment_keeps (P : jsstring -> Prop) (stack : list jsstring)
    (seg : jsstring) :
  Forall (fun s => properSegment s = true) stack ->
  Forall P stack -> P seg ->
  Forall (fun s => properSegment s = true) (pushSegment false stack seg)
  /\ Forall P (pushSegment false stack seg).
Proof.
  intros Hproper HP Hseg.
  destruct (pushSegment_cases stack seg) as [H|[H|[H|H]]].
  - rewrite (pushSegment_proper _ _ _ H). split; constructor; assumption.
  - rewrite pushSegment_skip by (left; exact H). split; assumption.
  - rewrite pushSegment_skip by (right; exact H). split; assumption.
  - subst seg. rewrite (pushSegment_up _ Hproper).
    destruct stack as [|top below]; simpl; [split; constructor|].
    inversion Hproper; inversion HP; subst. split; assumption.
Qed.

Lemma fold_pushSegment_keeps (P : jsstring -> Prop) (segs stack : list jsstring) :
  Forall (fun s => properSegment s = true) stack ->
  Forall P stack -> Forall P segs ->
  Forall (fun s => properSegment s = true)
    (fold_left (pushSegment false) segs stack)
  /\ Forall P (fold_left (pushSegment false) segs stack).
Proof.
  revert stack. induction segs as [|seg segs IH]; intros stack Hp HP Hs; simpl.
  - split; assumption.
  - inversion Hs as [|? ? Hseg Hrest]; subst.
    destruct (pushSegment_keeps P stack seg Hp HP Hseg) as [Hp' HP'].
    apply IH; assumption.
Qed.

Lemma fold_pushSegment_proper (b : bool) (segs stack : list jsstring) :
  Forall (fun s => properSegment s = true) segs ->
  fold_left (pushSegment b) segs stack = rev segs ++ stack.
Proof.
  revert stack. induction segs as [|seg segs IH]; intros stack H; simpl.
  - reflexivity.
  - inversion H as [|? ? Hseg Hrest]; subst.
    rewrite (pushSegment_proper _ _ _ Hseg), IH by exact Hrest.
    rewrite <- app_assoc. reflexivity.
Qed.

(** The components of a resolved path are entry names. *)
Lemma resolve_segments (p : jsstring) :
  Forall (fun s => properSegment s = true) (Fs.resolve p)
  /\ Forall slashFree (Fs.resolve p).
Proof.
  unfold Fs.resolve, normalizeSegments.
  destruct (fold_pushSegment_keeps slashFree (split SLASH p) []
              (Forall_nil _) (Forall_nil _) (split_pieces_free SLASH p))
    as [H1 H2].
  split; apply Forall_rev; assumption.
Qed.

Lemma fold_pushSegment_empty (b : bool) (extra stack : list jsstring) :
  Forall (fun s => s = []) extra ->
  fold_left (pushSegment b) extra stack = stack.
Proof.
  revert stack. induction extra as [|s extra IH]; intros stack H; simpl.
  - reflexivity.
  - inversion H as [|? ? Hs Hrest]; subst. apply IH. exact Hrest.
Qed.

Lemma normalizeSegments_padded (b : bool) (segs extra : list jsstring) :
  Forall (fun s => properSegment s = true) segs ->
  Forall (fun s => s = []) extra ->
  normalizeSegments b ([] :: segs ++ extra) = segs.
Proof.
  intros Hp He. unfold normalizeSegments. cbn [fold_left].
  change (pushSegment b [] []) with (@nil jsstring).
  rewrite fold_left_app, (fold_pushSegment_proper b segs [] Hp), app_nil_r.
  rewrite (fold_pushSegment_empty b extra _ He). apply rev_involutive.
Qed.

(** Resolving the printed form of a list of entry names gives the list
    back, with or without a separator at the end. *)
Lemma resolve_printed (segs : list jsstring) (tail : jsstring) :
  Forall (fun s => properSegment s = true) segs ->
  Forall slashFree segs ->
  tail = [] \/ tail = [SLASH] ->
  Fs.resolve (SLASH :: JS.join [SLASH] segs ++ tail) = segs.
Proof.
  intros Hp Hf Htail. unfold Fs.resolve.
  rewrite split_cons_sep.
  destruct segs as [|s0 rest].
  - destruct Htail as [->| ->]; reflexivity.
  - destruct Htail as [->| ->].
    + rewrite app_nil_r, split_join; [|discriminate|exact Hf].
      rewrite <- (app_nil_r (s0 :: rest)) at 1.
      apply normalizeSegments_padded; [exact Hp|constructor].
    + rewrite split_app_sep, split_join; [|discriminate|exact Hf].
      apply normalizeSegments_padded; [exact Hp|repeat constructor].
Qed.

Lemma resolve_normalize (p : jsstring) :
  isAbsolute p = true -> Fs.resolve (normalize p) = Fs.resolve p.
Proof.
  intros Habs. destruct p as [|c p']; [discriminate|].
  unfold normalize. rewrite Habs. cbv beta iota zeta. simpl negb.
  fold (Fs.resolve (c :: p')).
  destruct (resolve_segments (c :: p')) as [Hp Hf].
  set (segs := Fs.resolve (c :: p')) in *.
  destruct (JS.join [SLASH] segs) as [|b body] eqn:E.
  - assert (segs = []) as ->; [|reflexivity].
    apply (join_nil [SLASH]); [|exact E].
    eapply Forall_impl; [|exact Hp]. intros s Hs.
    apply properSegment_spec in Hs. tauto.
  - rewrite <- E. simpl app.
    apply resolve_printed; [exact Hp|exact Hf|].
    destruct (endsWithSlash (c :: p')); auto.
Qed.

(** Joining an absolute directory with one component: the component is
    pushed onto the directory's own components. *)
Lemma resolve_join (dir n : jsstring) :
  isAbsolute dir = true -> slashFree n ->
  Fs.resolve (NodePath.join dir n)
  = rev (pushSegment false (rev (Fs.resolve dir)) n).
Proof.
  intros Habs Hn. destruct dir as [|c d]; [discriminate|].
  destruct n as [|c' n'].
  - change (NodePath.join (c :: d) []) with (normalize (c :: d)).
    rewrite (resolve_normalize _ Habs).
    rewrite pushSegment_skip by (left; reflexivity).
    symmetry. apply rev_involutive.
  - change (NodePath.join (c :: d) (c' :: n'))
      with (normalize ((c :: d) ++ [SLASH] ++ c' :: n')).
    rewrite resolve_normalize by exact Habs.
    unfold Fs.resolve, normalizeSegments.
    change ((c :: d) ++ [SLASH] ++ c' :: n')
      with ((c :: d) ++ SLASH :: c' :: n').
    rewrite split_app_sep, (split_free SLASH (c' :: n') Hn), fold_left_app.
    rewrite rev_involutive. reflexivity.
Qed.

Lemma basename_slashFree (p : jsstring) : slashFree (basename p).
Proof.
  unfold basename, slashFree. rewrite <- in_rev.
  generalize (dropWhile isSlash (rev p)). intros l.
  induction l as [|c l IH]; simpl; [intros []|].
  destruct (isSlash c) eqn:E; simpl; [intros []|].
  intros [H|H]; [|exact (IH H)].
  subst c. discriminate.
Qed.

(** Where the path asked for by a route parameter lands. *)
Lemma requestedPath_resolve (cfg : Settings) (filename : jsstring) :
  isAbsolute (uploadDir cfg) = true ->
  Fs.resolve (requestedPath cfg filename)
  = rev (pushSegment false (rev (Fs.resolve (uploadDir cfg))) (basename filename)).
Proof.
  intros H. apply resolve_join; [exact H|apply basename_slashFree].
Qed.

Lemma requestedPath_proper (cfg : Settings) (filename : jsstring) :
  isAbsolute (uploadDir cfg) = true ->
  properSegment (basename filename) = true ->
  Fs.resolve (requestedPath cfg filename)
  = Fs.resolve (uploadDir cfg) ++ [basename filename].
Proof.
  intros H Hp. rewrite (requestedPath_resolve _ _ H).
  rewrite (pushSegment_proper _ _ _ Hp). simpl. rewrite rev_involutive.
  reflexivity.
Qed.

Lemma rev_tl_rev {A : Type} (l : list A) : rev (tl (rev l)) = removelast l.
Proof.
  destruct l as [|a l] using rev_ind; [reflexivity|].
  rewrite rev_app_distr, removelast_last. simpl. apply rev_involutive.
Qed.

Lemma requestedPath_dotdot (cfg : Settings) (filename : jsstring) :
  isAbsolute (uploadDir cfg) = true ->
  basename filename = [DOT; DOT] ->
  Fs.resolve (requestedPath cfg filename)
  = removelast (Fs.resolve (uploadDir cfg)).
Proof.
  intros H E. rewrite (requestedPath_resolve _ _ H), E.
  rewrite pushSegment_up.
  - apply rev_tl_rev.
  - apply Forall_rev. apply resolve_segments.
Qed.

Lemma requestedPath_dot (cfg : Settings) (filename : jsstring) :
  isAbsolute (uploadDir cfg) = true ->
  basename filename = [] \/ basename filename = [DOT] ->
  Fs.resolve (requestedPath cfg filename) = Fs.resolve (uploadDir cfg).
Proof.
  intros H E. rewrite (requestedPath_resolve _ _ H).
  rewrite (pushSegment_skip _ _ _ E). apply rev_involutive.
Qed.

(* ------------------------------------------------------------------ *)
(** ** Base names and the upload directory *)
(* ------------------------------------------------------------------ *)

Lemma isPrefix_app (p q : Fs.Path) : Fs.isPrefix p (p ++ q) = true.
Proof.
  induction p as [|a p IH]; simpl; [reflexivity|].
  rewrite streq_refl. exact IH.
Qed.

Lemma isPrefix_refl (p : Fs.Path) : Fs.isPrefix p p = true.
Proof. rewrite <- (app_nil_r p) at 2. apply isPrefix_app. Qed.

Lemma isPrefix_length (p q : Fs.Path) :
  Fs.isPrefix p q = true -> (List.length p <= List.length q)%nat.
Proof.
  revert q. induction p as [|a p IH]; intros q H; simpl; [lia|].
  destruct q as [|b q]; simpl in H; [discriminate|].
  apply andb_true_iff in H. destruct H as [_ H]. apply IH in H. simpl. lia.
Qed.

Lemma isPrefix_removelast (p : Fs.Path) :
  p <> [] -> Fs.isPrefix p (removelast p) = false.
Proof.
  intros Hne. destruct (Fs.isPrefix p (removelast p)) eqn:E; [|reflexivity].
  apply isPrefix_length in E. exfalso.
  destruct p as [|a p] using rev_ind; [contradiction|].
  rewrite removelast_last, length_app in E. simpl in E. lia.
Qed.

Lemma dropWhile_takeWhile_free (l : jsstring) :
  ~ In SLASH l ->
  takeWhile (fun c => negb (isSlash c)) (dropWhile isSlash l) = l.
Proof.
  intros H. assert (Hall : Forall (fun c => isSlash c = false) l).
  { apply Forall_forall. intros c Hc. destruct (isSlash c) eqn:E; [|reflexivity].
    apply isSlash_true in E. subst c. contradiction. }
  clear H. destruct Hall as [|c l Hc Hl]; [reflexivity|].
  simpl dropWhile. rewrite Hc. simpl. rewrite Hc. simpl. f_equal.
  induction Hl as [|c' l' Hc' Hl' IH]; simpl; [reflexivity|].
  rewrite Hc'. simpl. f_equal. exact IH.
Qed.

(** A name without separator is its own base name. *)
Lemma basename_free (n : jsstring) : slashFree n -> basename n = n.
Proof.
  intros H. unfold basename. rewrite dropWhile_takeWhile_free.
  - apply rev_involutive.
  - intros Hin. apply H. apply in_rev. exact Hin.
Qed.

Lemma basename_idempotent (p : jsstring) : basename (basename p) = basename p.
Proof. apply basename_free. apply basename_slashFree. Qed.

(** The three handlers taking a route parameter see its base name only. *)
Lemma handlers_use_basename (cfg : Settings) (filename : jsstring) :
  getInfo cfg filename = getInfo cfg (basename filename)
  /\ getDelete cfg filename = getDelete cfg (basename filename)
  /\ postDelete cfg filename = postDelete cfg (basename filename).
Proof.
  unfold getInfo, getDelete, postDelete.
  rewrite basename_idempotent. repeat split.
Qed.

(** The path asked for stays in [uploadDir] unless the base name is
    [..]. *)
Lemma requestedPath_within (cfg : Settings) (filename : jsstring) :
  isAbsolute (uploadDir cfg) = true ->
  basename filename <> [DOT; DOT] ->
  within (uploadDir cfg) (requestedPath cfg filename) = true.
Proof.
  intros Habs Hne. unfold within.
  destruct (pushSegment_cases [] (basename filename)) as [H|[H|[H|H]]].
  - rewrite (requestedPath_proper _ _ Habs H). apply isPrefix_app.
  - rewrite (requestedPath_dot _ _ Habs (or_introl H)). apply isPrefix_refl.
  - rewrite (requestedPath_dot _ _ Habs (or_intror H)). apply isPrefix_refl.
  - contradiction.
Qed.

Lemma requestedPath_escapes (cfg : Settings) (filename : jsstring) :
  isAbsolute (uploadDir cfg) = true ->
  basename filename = [DOT; DOT] ->
  Fs.resolve (uploadDir cfg) <> [] ->
  within (uploadDir cfg) (requestedPath cfg filename) = false.
Proof.
  intros Habs E Hne. unfold within.
  rewrite (requestedPath_dotdot _ _ Habs E).
  apply isPrefix_removelast. exact Hne.
Qed.

Lemma serve_authorized (cfg : Settings) (r : Route) (w : World) :
  serve cfg (authorized cfg r) w
  = run (tryCatch
           (match r with
            | GetIndex => getIndex cfg
            | PostUpload body => postUpload cfg body
            | GetInfo filename => getInfo cfg filename
            | GetDelete filename => getDelete cfg filename
            | PostDelete filename => postDelete cfg filename
            | GetFiles subpath => getFiles cfg subpath
            end) (errorHandler)) w.
Proof.
  unfold serve, app, dispatch, behindAuth. rewrite auth_good.
  destruct r; reflexivity.
Qed.

Lemma run_getInfo_present (cfg : Settings) (filename : jsstring) (t : Fs.FS)
    (now : Z) :
  Fs.exists_ t (Fs.resolve (requestedPath cfg filename)) = true ->
  exists info,
    serve cfg (authorized cfg (GetInfo filename)) (quiet t now)
    = (inr (render (js "info") (InfoLocals info)), quiet t now)
    /\ info_name info = basename filename
    /\ info_absolutePath info = requestedPath cfg filename.
Proof.
  intros Hex. rewrite serve_authorized, run_tryCatch.
  unfold getInfo. fold (requestedPath cfg filename).
  rewrite run_tryCatch. simpl. rewrite Hex. simpl.
  unfold Fs.exists_ in Hex. unfold Fs.stat.
  destruct (Fs.lookup t (Fs.resolve (requestedPath cfg filename)))
    as [[m s|m]|]; [| |discriminate];
    simpl; eexists; split; try reflexivity; split; reflexivity.
Qed.

(** C1. The handlers do join the base name of the parameter with
    [uploadDir] and nothing else of it, but for the parameter [..] the
    base name is [..] itself and the joined path is the parent of
    [uploadDir], outside [uploadDir] (unless [uploadDir] is the root):
    [GET /info/..] reports on that parent directory. *)
Theorem info_of_dotdot_resolves_outside_uploadDir :
  forall (cfg : Settings) (t : Fs.FS) (now : Z),
    isAbsolute (uploadDir cfg) = true ->
    Fs.resolve (uploadDir cfg) <> [] ->
    Fs.exists_ t (removelast (Fs.resolve (uploadDir cfg))) = true ->
    basename (js "..") = js ".."
    /\ Fs.resolve (requestedPath cfg (js ".."))
       = removelast (Fs.resolve (uploadDir cfg))
    /\ within (uploadDir cfg) (requestedPath cfg (js "..")) = false
    /\ exists info,
         fst (serve cfg (authorized cfg (GetInfo (js ".."))) (quiet t now))
         = inr (render (js "info") (InfoLocals info))
         /\ info_absolutePath info = requestedPath cfg (js "..")
         /\ within (uploadDir cfg) (info_absolutePath info) = false.
Proof.
  intros cfg t now Habs Hne Hex.
  assert (Hup : Fs.resolve (requestedPath cfg (js ".."))
                = removelast (Fs.resolve (uploadDir cfg))).
  { apply requestedPath_dotdot; [exact Habs|reflexivity]. }
  assert (Hout : within (uploadDir cfg) (requestedPath cfg (js "..")) = false).
  { apply requestedPath_escapes; [exact Habs|reflexivity|exact Hne]. }
  split; [reflexivity|]. split; [exact Hup|]. split; [exact Hout|].
  rewrite <- Hup in Hex.
  destruct (run_getInfo_present cfg (js "..") t now Hex) as [info [Hr [_ Hp]]].
  exists info. rewrite Hr. split; [reflexivity|]. split; [exact Hp|].
  rewrite Hp. exact Hout.
Qed.

Lemma info_of_dotdot_resolves_outside_uploadDir_witness :
  requestedPath Sample.cfg (js "..") = js "/srv"
  /\ within (uploadDir Sample.cfg) (requestedPath Sample.cfg (js "..")) = false
  /\ fst (serve Sample.cfg (authorized Sample.cfg (GetInfo (js "..")))
            Sample.world)
     = inr (render (js "info")
              (InfoLocals (mkFileInfo (js "..") (js "0.00 MB") (LocaleString 1)
                             (js "/srv")))).
Proof.
  split; [reflexivity|]. split; [|reflexivity].
  apply (info_of_dotdot_resolves_outside_uploadDir
           Sample.cfg Sample.tree 1700000000000);
    [reflexivity|discriminate|reflexivity].
Defined.

(* ------------------------------------------------------------------ *)
(** ** Deleting *)
(* ------------------------------------------------------------------ *)

Lemma remove_nothing_below (t : Fs.FS) (p : Fs.Path) (e : Fs.Path * Fs.Node) :
  In e (Fs.remove t p) -> Fs.isPrefix p (fst e) = false.
Proof.
  unfold Fs.remove. intros H. apply filter_In in H. destruct H as [_ H].
  apply negb_true_iff. exact H.
Qed.

Lemma yield_quiet (w : World) : others w = [] -> yield w = w.
Proof. destruct w as [t c l o k]. simpl. intros ->. reflexivity. Qed.

(** The confirming request, step by step: the existence check after the
    change of another request, if any, then the removal after the next. *)
Lemma run_postDelete (cfg : Settings) (filename : jsstring) (w : World) :
  run (postDelete cfg filename) w
  = let target := Fs.resolve (requestedPath cfg filename) in
    let w1 := yield w in
    if Fs.exists_ (fs w1) target then
      let w2 := yield w1 in
      (inr (redirect (js "/")),
       addConsole (setFs w2 (Fs.remove (fs w2) target)) LOG
         (js "Deleted file: " ++ basename filename))
    else
      (inr (redirect (js "/")),
       addConsole w1 WARN
         (js "Attempted to delete non-existent file: " ++ basename filename)).
Proof.
  unfold postDelete, requestedPath. simpl.
  destruct (Fs.exists_ (fs (yield w))
              (Fs.resolve (NodePath.join (uploadDir cfg) (basename filename))));
    reflexivity.
Qed.

Lemma serve_postDelete (cfg : Settings) (filename : jsstring) (w : World) :
  serve cfg (authorized cfg (PostDelete filename)) w
  = run (postDelete cfg filename) w.
Proof.
  rewrite serve_authorized, run_tryCatch, run_postDelete. cbv zeta.
  destruct (Fs.exists_ (fs (yield w))
              (Fs.resolve (requestedPath cfg filename))); reflexivity.
Qed.

Lemma postDelete_redirects (cfg : Settings) (filename : jsstring) (w : World) :
  fst (serve cfg (authorized cfg (PostDelete filename)) w)
  = inr (redirect (js "/")).
Proof.
  rewrite serve_postDelete, run_postDelete.
  cbv zeta. destruct (Fs.exists_ _ _); reflexivity.
Qed.

Lemma postDelete_existing (cfg : Settings) (filename : jsstring) (w : World) :
  let target := Fs.resolve (requestedPath cfg filename) in
  let after := snd (serve cfg (authorized cfg (PostDelete filename)) w) in
  others w = [] -> Fs.exists_ (fs w) target = true ->
  fs after = Fs.remove (fs w) target
  /\ console after
     = console w
       ++ [(LOG, [Str (js "Deleted file: " ++ basename filename)])].
Proof.
  intros target after Hq Hex. unfold after.
  rewrite serve_postDelete, run_postDelete. cbv zeta. fold target.
  rewrite !(yield_quiet w Hq), Hex. simpl. split; reflexivity.
Qed.

Lemma postDelete_missing (cfg : Settings) (filename : jsstring) (w : World) :
  let target := Fs.resolve (requestedPath cfg filename) in
  let after := snd (serve cfg (authorized cfg (PostDelete filename)) w) in
  others w = [] -> Fs.exists_ (fs w) target = false ->
  fs after = fs w
  /\ console after
     = console w
       ++ [(WARN, [Str (js "Attempted to delete non-existent file: "
                       ++ basename filename)])].
Proof.
  intros target after Hq Hex. unfold after.
  rewrite serve_postDelete, run_postDelete. cbv zeta. fold target.
  rewrite !(yield_quiet w Hq), Hex. simpl. split; reflexivity.
Qed.

(** C8. The confirming delete request always answers with the redirect to
    the listing, whatever other requests do to the tree meanwhile, so a
    second delete of the same name gets the same response. When no other
    request interferes: a target that exists is removed with everything
    below it and the removal is logged; a target that does not exist
    leaves the tree as it is and adds one warning, and no error, to the
    console. *)
Theorem confirmed_delete_redirects_and_is_idempotent :
  forall (cfg : Settings) (filename : jsstring) (w : World),
    let target := Fs.resolve (requestedPath cfg filename) in
    let request := authorized cfg (PostDelete filename) in
    let after := snd (serve cfg request w) in
    fst (serve cfg request w) = inr (redirect (js "/"))
    /\ fst (serve cfg request after) = inr (redirect (js "/"))
    /\ (others w = [] -> Fs.exists_ (fs w) target = true ->
        fs after = Fs.remove (fs w) target
        /\ (forall e, In e (fs after) -> Fs.isPrefix target (fst e) = false)
        /\ console after
           = console w
             ++ [(LOG, [Str (js "Deleted file: " ++ basename filename)])])
    /\ (others w = [] -> Fs.exists_ (fs w) target = false ->
        fs after = fs w
        /\ console after
           = console w
             ++ [(WARN, [Str (js "Attempted to delete non-existent file: "
                             ++ basename filename)])]).
Proof.
  intros cfg filename w. cbv zeta.
  split; [apply postDelete_redirects|].
  split; [apply postDelete_redirects|].
  split; intros Hq Hex.
  - destruct (postDelete_existing cfg filename w Hq Hex) as [Hfs Hlog].
    split; [exact Hfs|]. split; [|exact Hlog].
    rewrite Hfs. intros e. apply remove_nothing_below.
  - exact (postDelete_missing cfg filename w Hq Hex).
Qed.

Lemma confirmed_delete_redirects_and_is_idempotent_witness :
  let gone := authorized Sample.cfg (PostDelete (js "a.txt")) in
  let after := snd (serve Sample.cfg gone Sample.world) in
  fst (serve Sample.cfg gone Sample.world) = inr (redirect (js "/"))
  /\ fs after = Fs.remove Sample.tree (Fs.resolve (js "/srv/up/a.txt"))
  /\ fst (serve Sample.cfg gone after) = inr (redirect (js "/"))
  /\ console (snd (serve Sample.cfg gone after))
     = console after
       ++ [(WARN, [Str (js "Attempted to delete non-existent file: a.txt")])].
Proof.
  pose proof (confirmed_delete_redirects_and_is_idempotent
                Sample.cfg (js "a.txt") Sample.world) as H1.
  pose proof (confirmed_delete_redirects_and_is_idempotent
                Sample.cfg (js "a.txt")
                (snd (serve Sample.cfg
                        (authorized Sample.cfg (PostDelete (js "a.txt")))
                        Sample.world))) as H2.
  cbv zeta in H1, H2.
  destruct H1 as [Ha [Hb [Hc _]]]. destruct H2 as [_ [_ [_ Hd]]].
  cbv zeta. split; [exact Ha|]. split.
  - apply Hc; reflexivity.
  - split; [exact Hb|]. apply Hd; reflexivity.
Defined.

(** C10. For the parameters [.] and [..] the base name is the parameter
    itself, the path asked for is [uploadDir] (for [.]) or its parent (for
    [..]); when that directory exists the existence check of the
    confirming delete request succeeds and the request removes the
    directory with every entry below it, then redirects. *)
Theorem delete_of_dot_removes_the_whole_directory :
  forall (cfg : Settings) (t : Fs.FS) (now : Z),
    isAbsolute (uploadDir cfg) = true ->
    basename (js ".") = js "."
    /\ basename (js "..") = js ".."
    /\ Fs.resolve (requestedPath cfg (js ".")) = Fs.resolve (uploadDir cfg)
    /\ Fs.resolve (requestedPath cfg (js ".."))
       = removelast (Fs.resolve (uploadDir cfg))
    /\ forall name : jsstring,
         name = js "." \/ name = js ".." ->
         let target := Fs.resolve (requestedPath cfg name) in
         let result :=
           serve cfg (authorized cfg (PostDelete name)) (quiet t now) in
         Fs.exists_ t target = true ->
         fst result = inr (redirect (js "/"))
         /\ fs (snd result) = Fs.remove t target
         /\ forall e, In e t -> Fs.isPrefix target (fst e) = true ->
                      ~ In e (fs (snd result)).
Proof.
  intros cfg t now Habs.
  split; [reflexivity|]. split; [reflexivity|].
  split; [apply requestedPath_dot; [exact Habs|right; reflexivity]|].
  split; [apply requestedPath_dotdot; [exact Habs|reflexivity]|].
  intros name _. cbv zeta. intros Hex.
  split; [apply postDelete_redirects|].
  destruct (postDelete_existing cfg name (quiet t now) eq_refl Hex)
    as [Hfs _].
  simpl fs in Hfs. split; [exact Hfs|].
  intros e _ Hpre Hin. rewrite Hfs in Hin.
  apply remove_nothing_below in Hin.
  rewrite Hin in Hpre. discriminate.
Qed.

Lemma delete_of_dot_removes_the_whole_directory_witness :
  fs (snd (serve Sample.cfg (authorized Sample.cfg (PostDelete (js ".")))
             Sample.world))
  = [ ([js "srv"], Fs.DirNode 1);
      ([js "srv"; js "secret.key"], Fs.FileNode 3 32) ]
  /\ fs (snd (serve Sample.cfg (authorized Sample.cfg (PostDelete (js "..")))
                Sample.world))
     = [].
Proof.
  destruct (delete_of_dot_removes_the_whole_directory
              Sample.cfg Sample.tree 1700000000000 eq_refl)
    as [_ [_ [_ [_ H]]]].
  split.
  - destruct (H (js ".") (or_introl eq_refl) eq_refl) as [_ [Hfs _]].
    etransitivity; [exact Hfs|reflexivity].
  - destruct (H (js "..") (or_intror eq_refl) eq_refl) as [_ [Hfs _]].
    etransitivity; [exact Hfs|reflexivity].
Defined.

(* ------------------------------------------------------------------ *)
(** ** The order of the listing *)
(* ------------------------------------------------------------------ *)

Lemma insertSorted_permutation {A : Type} (cmp : A -> A -> Z) (x : A)
    (l : list A) :
  Permutation (insertSorted cmp x l) (x :: l).
Proof.
  induction l as [|y t IH]; simpl; [reflexivity|].
  destruct (cmp x y <=? 0)%Z; [reflexivity|].
  rewrite IH. apply perm_swap.
Qed.

(** The sort rearranges and neither adds nor loses an entry. *)
Lemma sort_permutation {A : Type} (cmp : A -> A -> Z) (l : list A) :
  Permutation (sort cmp l) l.
Proof.
  induction l as [|x l IH]; simpl; [reflexivity|].
  rewrite insertSorted_permutation. constructor. exact IH.
Qed.

Lemma insertSorted_newerFirst (x : Detail) (l : list Detail) :
  StronglySorted newerFirst l ->
  StronglySorted newerFirst (insertSorted byTimeDescending x l).
Proof.
  induction l as [|y t IH]; intros Hs; simpl.
  - repeat constructor.
  - inversion Hs as [|? ? Ht Hy]; subst.
    unfold byTimeDescending at 1.
    destruct (time y - time x <=? 0)%Z eqn:E.
    + apply Z.leb_le in E. constructor; [exact Hs|].
      constructor; [unfold newerFirst; lia|].
      eapply Forall_impl; [|exact Hy]. unfold newerFirst. intros z Hz. lia.
    + apply Z.leb_gt in E. constructor; [apply IH; exact Ht|].
      eapply Permutation_Forall.
      * symmetry. apply insertSorted_permutation.
      * constructor; [unfold newerFirst; lia|exact Hy].
Qed.

(** Most recent first. *)
Lemma sort_newerFirst (l : list Detail) :
  StronglySorted newerFirst (sort byTimeDescending l).
Proof.
  induction l as [|x l IH]; simpl; [constructor|].
  apply insertSorted_newerFirst. exact IH.
Qed.

Lemma insertSorted_same_time (k : Z) (x : Detail) (l : list Detail) :
  filter (fun d => (time d =? k)%Z) (insertSorted byTimeDescending x l)
  = filter (fun d => (time d =? k)%Z) (x :: l).
Proof.
  induction l as [|y t IH]; [reflexivity|].
  simpl insertSorted. unfold byTimeDescending at 1.
  destruct (time y - time x <=? 0)%Z eqn:E; [reflexivity|].
  apply Z.leb_gt in E.
  cbn [filter]. rewrite IH. cbn [filter].
  destruct (time x =? k)%Z eqn:Ex; destruct (time y =? k)%Z eqn:Ey;
    try reflexivity.
  apply Z.eqb_eq in Ex, Ey. lia.
Qed.

(** Entries of equal modification time keep the order of the
    enumeration. *)
Lemma sort_stable (k : Z) (l : list Detail) :
  filter (fun d => (time d =? k)%Z) (sort byTimeDescending l)
  = filter (fun d => (time d =? k)%Z) l.
Proof.
  induction l as [|x l IH]; [reflexivity|].
  simpl sort. rewrite insertSorted_same_time. simpl. rewrite IH. reflexivity.
Qed.

(* ------------------------------------------------------------------ *)
(** ** Invariants of the tree along a program *)
(* ------------------------------------------------------------------ *)

Lemma AllOps_bind (P : forall X : Type, Op X -> Prop) {A B : Type}
    (p : Prog A) (f : A -> Prog B) :
  AllOps P p -> (forall a, AllOps P (f a)) -> AllOps P (bind p f).
Proof.
  intros Hp Hf. induction Hp as [a|e|X op k Hop Hk IH]; simpl.
  - apply Hf.
  - constructor.
  - constructor; [exact Hop|exact IH].
Qed.

Lemma AllOps_tryCatch (P : forall X : Type, Op X -> Prop) {A : Type}
    (p : Prog A) (h : Error -> Prog A) :
  AllOps P p -> (forall e, AllOps P (h e)) -> AllOps P (tryCatch p h).
Proof.
  intros Hp Hh. induction Hp as [a|e|X op k Hop Hk IH]; simpl.
  - constructor.
  - apply Hh.
  - constructor; [exact Hop|exact IH].
Qed.

Lemma AllOps_call (P : forall X : Type, Op X -> Prop) {X : Type} (op : Op X) :
  P X op -> AllOps P (call op).
Proof.
  intros H. unfold call. constructor; [exact H|].
  intros [e|x]; constructor.
Qed.

Lemma AllOps_attempt (P : forall X : Type, Op X -> Prop) {X : Type}
    (op : Op X) :
  P X op -> AllOps P (attempt op).
Proof. intros H. unfold attempt. constructor; [exact H|]. intros r. constructor. Qed.

Lemma AllOps_promiseAll (P : forall X : Type, Op X -> Prop) {A B : Type}
    (f : A -> Prog B) (l : list A) :
  (forall a, AllOps P (f a)) -> AllOps P (promiseAll f l).
Proof.
  intros Hf. induction l as [|a l IH]; simpl; [constructor|].
  apply AllOps_bind; [apply Hf|]. intros b.
  apply AllOps_bind; [exact IH|]. intros bs. constructor.
Qed.

Lemma holdsIn_yield (I : Fs.FS -> Prop) (w : World) :
  holdsIn I w -> holdsIn I (yield w).
Proof.
  unfold holdsIn, yield. intros [Hfs Ho].
  destruct (others w) as [|change rest] eqn:E.
  - rewrite E. split; [exact Hfs|constructor].
  - inversion Ho as [|? ? Hc Hr]; subst. simpl. split; [apply Hc; exact Hfs|exact Hr].
Qed.

(** A program whose operations each keep the invariant keeps it, also
    across the changes of other requests. *)
Lemma run_holdsIn (I : Fs.FS -> Prop) (P : forall X : Type, Op X -> Prop) :
  (forall X (op : Op X) w, P X op -> holdsIn I w -> holdsIn I (snd (exec op w))) ->
  forall {A : Type} (p : Prog A) (w : World),
    AllOps P p -> holdsIn I w -> holdsIn I (snd (run p w)).
Proof.
  intros Hexec A p w Hp. revert w.
  induction Hp as [a|e|X op k Hop Hk IH]; intros w Hw; simpl; try exact Hw.
  assert (Hw1 : holdsIn I (if isAsync op then yield w else w)).
  { destruct (isAsync op); [apply holdsIn_yield|]; exact Hw. }
  pose proof (Hexec X op _ Hop Hw1) as Hw2.
  destruct (exec op (if isAsync op then yield w else w)) as [r w2].
  apply IH. exact Hw2.
Qed.

(* ------------------------------------------------------------------ *)
(** ** Stored names *)
(* ------------------------------------------------------------------ *)

Lemma digits_nameChars (d : Decimal.uint) :
  Forall (fun c => isNameChar c = true) (js (NilEmpty.string_of_uint d)).
Proof.
  induction d; simpl; constructor; try reflexivity; assumption.
Qed.

Lemma numberToString_nameChars (n : Z) :
  Forall (fun c => isNameChar c = true) (numberToString n).
Proof.
  unfold numberToString.
  assert (H : forall d, Forall (fun c => isNameChar c = true)
                          (js (NilZero.string_of_uint d))).
  { intros d. destruct d; try apply digits_nameChars.
    repeat constructor. }
  destruct (Z.to_int n) as [d|d]; simpl.
  - apply H.
  - constructor; [reflexivity|apply H].
Qed.

(** The units of a storage name all come from [[A-Za-z0-9_.-]]. *)
Lemma storageName_nameChars (timestamp : Z) (originalname : jsstring) :
  Forall (fun c => isNameChar c = true) (storageName timestamp originalname).
Proof.
  unfold storageName. apply Forall_app. split.
  - apply numberToString_nameChars.
  - apply Forall_app. split; [repeat constructor|].
    rewrite cleanFileName_replaceOutside. apply replaceOutside_nameChars.
Qed.

Lemma nameChar_safe (c : code) :
  isNameChar c = true -> isSeparator c || isControl c = false.
Proof.
  intros H. destruct (isSeparator c || isControl c) eqn:E; [|reflexivity].
  exfalso.
  unfold isNameChar, isSeparator, isControl, between, code_eqb in *.
  repeat rewrite ?orb_true_iff, ?andb_true_iff, ?N.leb_le, ?N.eqb_eq,
    ?N.ltb_lt in *.
  lia.
Qed.

Lemma nameChars_safeName (n : jsstring) :
  Forall (fun c => isNameChar c = true) n -> safeName n = true.
Proof.
  intros H. unfold safeName. apply forallb_forall. intros c Hc.
  rewrite Forall_forall in H. rewrite (nameChar_safe c (H c Hc)).
  reflexivity.
Qed.

Lemma nameChars_slashFree (n : jsstring) :
  Forall (fun c => isNameChar c = true) n -> slashFree n.
Proof.
  intros H Hin. rewrite Forall_forall in H. apply H in Hin. discriminate.
Qed.

Lemma storageName_has_dash (timestamp : Z) (originalname : jsstring) :
  In 45%N (storageName timestamp originalname).
Proof.
  unfold storageName. apply in_or_app. right. left. reflexivity.
Qed.

Lemma storageName_proper (timestamp : Z) (originalname : jsstring) :
  properSegment (storageName timestamp originalname) = true.
Proof.
  apply properSegment_spec.
  pose proof (storageName_has_dash timestamp originalname) as H.
  repeat split; intros E; rewrite E in H; simpl in H;
    repeat (destruct H as [H|H]; [discriminate|]); exact H.
Qed.

(** Where an upload is written: directly in [uploadDir], under its
    storage name. *)
Lemma storage_path_resolve (cfg : Settings) (timestamp : Z)
    (originalname : jsstring) :
  isAbsolute (uploadDir cfg) = true ->
  Fs.resolve (NodePath.join (uploadDir cfg) (storageName timestamp originalname))
  = Fs.resolve (uploadDir cfg) ++ [storageName timestamp originalname].
Proof.
  intros Habs. rewrite resolve_join.
  - rewrite pushSegment_proper by apply storageName_proper.
    simpl. rewrite rev_involutive. reflexivity.
  - exact Habs.
  - apply nameChars_slashFree. apply storageName_nameChars.
Qed.

Lemma replaceEntry_In (t : Fs.FS) (p : Fs.Path) (n : Fs.Node)
    (e : Fs.Path * Fs.Node) :
  In e (Fs.replaceEntry t p n) -> In e t \/ e = (p, n).
Proof.
  induction t as [|e0 t IH]; simpl; [intros []|].
  destruct (Fs.path_eqb (fst e0) p).
  - intros [H|H]; [right; symmetry; exact H|left; right; exact H].
  - intros [H|H]; [left; left; exact H|].
    destruct (IH H) as [H'|H']; [left; right; exact H'|right; exact H'].
Qed.

Lemma writeFile_In (t t' : Fs.FS) (p : Fs.Path) (now size : Z)
    (e : Fs.Path * Fs.Node) :
  Fs.writeFile t p now size = inr t' -> In e t' ->
  In e t \/ e = (p, Fs.FileNode now size).
Proof.
  unfold Fs.writeFile. destruct p as [|s p']; [discriminate|].
  destruct (Fs.lookup t (removelast (s :: p'))) as [[?|?]|]; try discriminate.
  destruct (Fs.lookup t (s :: p')) as [[?|?]|]; try discriminate;
    intros E; inversion E; subst t'; intros Hin.
  - apply replaceEntry_In. exact Hin.
  - apply in_app_or in Hin. destruct Hin as [H|[H|[]]]; [left; exact H|].
    right. symmetry. exact H.
Qed.

Lemma unlink_In (t t' : Fs.FS) (p : Fs.Path) (e : Fs.Path * Fs.Node) :
  Fs.unlink t p = inr t' -> In e t' -> In e t /\ Fs.path_eqb (fst e) p = false.
Proof.
  unfold Fs.unlink. destruct p as [|s p']; [discriminate|].
  destruct (Fs.lookup t (s :: p')) as [[?|?]|]; try discriminate.
  intros E; inversion E; subst t'. intros Hin.
  apply filter_In in Hin. destruct Hin as [H1 H2].
  split; [exact H1|]. apply negb_true_iff. exact H2.
Qed.

Lemma exec_others {X : Type} (op : Op X) (w : World) :
  others (snd (exec op w)) = others w.
Proof.
  destruct op; simpl; try reflexivity.
  - destruct (Fs.unlink (fs w) (Fs.resolve p)); reflexivity.
  - destruct (Fs.writeFile (fs w) (Fs.resolve p) (clock w) size); reflexivity.
Qed.

Lemma exec_keepsNamesSafe (cfg : Settings) (X : Type) (op : Op X) (w : World) :
  keepsNamesSafe cfg X op ->
  holdsIn (StoredNamesSafe cfg) w ->
  holdsIn (StoredNamesSafe cfg) (snd (exec op w)).
Proof.
  intros Hop [Hfs Ho]. split; [|rewrite exec_others; exact Ho].
  destruct op; simpl; try exact Hfs.
  - intros e Hin. apply Hfs. unfold Fs.remove in Hin.
    apply filter_In in Hin. tauto.
  - destruct (Fs.unlink (fs w) (Fs.resolve p)) as [code|t'] eqn:E;
      simpl; [exact Hfs|].
    intros e Hin. apply Hfs. exact (proj1 (unlink_In _ _ _ _ E Hin)).
  - destruct (Fs.writeFile (fs w) (Fs.resolve p) (clock w) size)
      as [code|t'] eqn:E; simpl; [exact Hfs|].
    intros e Hin Hchild.
    destruct (writeFile_In _ _ _ _ _ _ E Hin) as [H|H]; [exact (Hfs e H Hchild)|].
    subst e. simpl in *. apply Hop. exact Hchild.
Qed.

Lemma run_keepsNamesSafe (cfg : Settings) {A : Type} (p : Prog A) (w : World) :
  AllOps (keepsNamesSafe cfg) p ->
  holdsIn (StoredNamesSafe cfg) w ->
  holdsIn (StoredNamesSafe cfg) (snd (run p w)).
Proof.
  apply (run_holdsIn (StoredNamesSafe cfg) (keepsNamesSafe cfg)).
  intros X op w0. apply exec_keepsNamesSafe.
Qed.

Ltac read_only :=
  repeat first
    [ apply AllOps_bind; [|intros ?]
    | apply AllOps_tryCatch; [|intros ?]
    | apply AllOps_call; exact I
    | apply AllOps_attempt; exact I
    | apply AllOps_promiseAll; intros ?
    | apply AllOps_Ret
    | apply AllOps_Throw
    | match goal with
      | |- AllOps _ (if ?b then _ else _) => destruct b
      | |- AllOps _ (match ?x with _ => _ end) => destruct x
      end ].

Lemma fileFilter_keepsNamesSafe (cfg : Settings) (file : Part) :
  AllOps (keepsNamesSafe cfg) (fileFilter cfg file).
Proof. unfold fileFilter, consoleLog, consoleError. read_only. Qed.

Lemma removeUploadedFiles_keepsNamesSafe (cfg : Settings) (uploaded : list File) :
  AllOps (keepsNamesSafe cfg) (MulterMiddleware.removeUploadedFiles uploaded).
Proof.
  induction uploaded as [|f rest IH]; simpl; [constructor|].
  constructor; [exact I|]. intros r. exact IH.
Qed.

Lemma abortWithError_keepsNamesSafe (cfg : Settings) {A : Type}
    (uploaded : list File) (err : Error) :
  AllOps (keepsNamesSafe cfg)
    (@MulterMiddleware.abortWithError A uploaded err).
Proof.
  unfold MulterMiddleware.abortWithError. apply AllOps_bind.
  - apply removeUploadedFiles_keepsNamesSafe.
  - intros _. constructor.
Qed.

(** The one write of the script: under the storage name. *)
Lemma handleFile_keepsNamesSafe (cfg : Settings) (part : Part) :
  isAbsolute (uploadDir cfg) = true ->
  AllOps (keepsNamesSafe cfg)
    (MulterMiddleware.handleFile (destination cfg) filename
       (maxSize cfg) part).
Proof.
  intros Habs. unfold MulterMiddleware.handleFile, destination, filename.
  simpl. constructor; [exact I|]. intros [e|timestamp]; simpl; [constructor|].
  constructor.
  - simpl. intros _. rewrite (storage_path_resolve cfg _ _ Habs).
    rewrite last_last. apply nameChars_safeName. apply storageName_nameChars.
  - intros [e|[]]; simpl; constructor.
Qed.

Lemma processParts_keepsNamesSafe (cfg : Settings) (parts : list Part)
    (filesLeft : Z) (uploaded : list File) :
  isAbsolute (uploadDir cfg) = true ->
  AllOps (keepsNamesSafe cfg)
    (MulterMiddleware.processParts (destination cfg) filename
       (fileFilter cfg) (maxSize cfg) (js "file") filesLeft uploaded parts).
Proof.
  intros Habs. revert filesLeft uploaded.
  induction parts as [|part rest IH]; intros filesLeft uploaded; simpl;
    [constructor|].
  destruct (truthy (originalname part)); [|apply IH].
  apply AllOps_bind; [|intros state; apply IH].
  unfold MulterMiddleware.onFile.
  apply AllOps_bind.
  - apply AllOps_tryCatch; [|intros e; apply abortWithError_keepsNamesSafe].
    unfold MulterMiddleware.wrappedFileFilter.
    destruct (_ || _); [constructor|].
    apply AllOps_bind; [apply fileFilter_keepsNamesSafe|].
    intros b. constructor.
  - intros [left include]. destruct include; [|constructor].
    apply AllOps_bind.
    + apply AllOps_tryCatch; [|intros e; apply abortWithError_keepsNamesSafe].
      apply handleFile_keepsNamesSafe. exact Habs.
    + intros file. destruct (_ <=? _)%Z; [|constructor].
      apply abortWithError_keepsNamesSafe.
Qed.

Lemma app_keepsNamesSafe (cfg : Settings) (req : Request) :
  isAbsolute (uploadDir cfg) = true ->
  AllOps (keepsNamesSafe cfg) (app cfg req).
Proof.
  intros Habs. unfold app.
  apply AllOps_tryCatch;
    [|intros e; unfold errorHandler, consoleError; read_only].
  apply AllOps_bind;
    [unfold beforeRoutes; destruct (refused req); constructor|intros _].
  unfold dispatch, behindAuth.
  destruct (route req); (destruct (auth cfg req); [constructor|]).
  - unfold getIndex, detailOf, consoleError. read_only.
  - unfold postUpload, upload, MulterMiddleware.middleware.
    apply AllOps_bind.
    + destruct body; [|constructor].
      apply AllOps_bind; [|intros files; constructor].
      apply processParts_keepsNamesSafe. exact Habs.
    + intros files. unfold postUploadHandler, consoleLog, consoleError.
      read_only.
  - unfold getInfo, consoleError. read_only.
  - unfold getDelete, consoleError, consoleWarn. read_only.
  - unfold postDelete, consoleError, consoleLog, consoleWarn. read_only.
  - unfold getFiles. read_only.
Qed.

(** C6. A storage name holds only units of [[A-Za-z0-9_.-]], so neither a
    path separator nor a control character, and an upload is written
    directly in [uploadDir] under that name; the name that the info and
    delete routes look for is a base name, without separator. Hence, over
    every request (upload, listing, info, the two delete steps, browsing,
    with good or bad credentials): when the names of the entries directly
    in [uploadDir] are free of separators and control characters before
    the request, and the requests running at the same time keep that, they
    are so after it. *)
Theorem stored_names_stay_safe :
  forall (cfg : Settings) (req : Request) (w : World),
    isAbsolute (uploadDir cfg) = true ->
    holdsIn (StoredNamesSafe cfg) w ->
    (forall timestamp originalname,
        safeName (storageName timestamp originalname) = true
        /\ Fs.resolve (NodePath.join (uploadDir cfg)
                         (storageName timestamp originalname))
           = Fs.resolve (uploadDir cfg) ++ [storageName timestamp originalname])
    /\ (forall filename, ~ In SLASH (basename filename))
    /\ StoredNamesSafe cfg (fs (snd (serve cfg req w)))
    /\ holdsIn (StoredNamesSafe cfg) (snd (serve cfg req w)).
Proof.
  intros cfg req w Habs Hw. split; [|split; [|split]].
  - intros timestamp originalname. split.
    + apply nameChars_safeName. apply storageName_nameChars.
    + apply storage_path_resolve. exact Habs.
  - intros filename. apply basename_slashFree.
  - apply (run_keepsNamesSafe cfg (app cfg req) w);
      [apply app_keepsNamesSafe; exact Habs|exact Hw].
  - apply (run_keepsNamesSafe cfg (app cfg req) w);
      [apply app_keepsNamesSafe; exact Habs|exact Hw].
Qed.


Lemma stored_names_stay_safe_witness :
  StoredNamesSafe Sample.cfg
    (fs (snd (serve Sample.cfg
                (authorized Sample.cfg
                   (PostUpload (Multipart [mkPart (js "file") (js "x y/z.jpg") 5])))
                Sample.world))).
Proof.
  apply (stored_names_stay_safe Sample.cfg
           (authorized Sample.cfg
              (PostUpload (Multipart [mkPart (js "file") (js "x y/z.jpg") 5])))
           Sample.world).
  - reflexivity.
  - split; [|constructor].
    intros e Hin _. simpl in Hin.
    repeat (destruct Hin as [<-|Hin]; [reflexivity|]). destruct Hin.
Defined.

(* ------------------------------------------------------------------ *)
(** ** Uploads that are refused *)
(* ------------------------------------------------------------------ *)

Lemma removeUploadedFiles_returns (uploaded : list File) (w : World) :
  fst (run (MulterMiddleware.removeUploadedFiles uploaded) w) = inr tt.
Proof.
  revert w. induction uploaded as [|f rest IH]; intros w; simpl;
    [reflexivity|].
  destruct (Fs.unlink _ _); apply IH.
Qed.

Lemma abortWithError_run {A : Type} (uploaded : list File) (err : Error)
    (w : World) :
  run (@MulterMiddleware.abortWithError A uploaded err) w
  = (inl err, snd (run (MulterMiddleware.removeUploadedFiles uploaded) w)).
Proof.
  unfold MulterMiddleware.abortWithError. rewrite run_bind.
  pose proof (removeUploadedFiles_returns uploaded w) as H.
  destruct (run (MulterMiddleware.removeUploadedFiles uploaded) w)
    as [[e|[]] w']; simpl in H; [discriminate|reflexivity].
Qed.

(** The disk storage's write: the storage name of the clock's time, in
    [uploadDir], cut at the size limit; the file is stamped with the clock
    as it is read next. *)
Lemma run_handleFile (cfg : Settings) (part : Part) (w : World) :
  let name := storageName (clock w) (originalname part) in
  let finalPath := NodePath.join (uploadDir cfg) name in
  let written := Z.min (bytes part) (maxSize cfg) in
  let w1 := yield (tick w) in
  run (MulterMiddleware.handleFile (destination cfg) filename (maxSize cfg)
         part) w
  = match Fs.writeFile (fs w1) (Fs.resolve finalPath) (clock w1) written with
    | inl code => (inl (SystemError code (js "open") finalPath), w1)
    | inr t' =>
        (inr (mkFile (fieldname part) (originalname part) (uploadDir cfg)
                name finalPath written),
         tick (setFs w1 t'))
    end.
Proof.
  cbv zeta. unfold MulterMiddleware.handleFile, destination, filename. simpl.
  destruct (Fs.writeFile _ _ _ _); reflexivity.
Qed.

Lemma fileParts_cons (part : Part) (rest : list Part) :
  fileParts (part :: rest)
  = if isFilePart part then part :: fileParts rest else fileParts rest.
Proof. reflexivity. Qed.

(** An error of the middleware reaches the global error handler, which
    answers 500 with the message of the error. *)
Lemma serve_upload_error (cfg : Settings) (parts : list Part) (w : World)
    (e : Error) :
  fst (run (uploadParts cfg (maxFiles cfg) [] parts) w) = inl e ->
  serve cfg (authorized cfg (PostUpload (Multipart parts))) w
  = (inr (errorResponse e),
     logged (snd (run (uploadParts cfg (maxFiles cfg) [] parts) w)) ERROR
       [Str (js "Unhandled Error:"); Str (message e)]).
Proof.
  intros He. rewrite serve_authorized, run_tryCatch.
  unfold postUpload, upload, MulterMiddleware.middleware.
  rewrite !run_bind. fold (uploadParts cfg (maxFiles cfg) [] parts).
  destruct (run (uploadParts cfg (maxFiles cfg) [] parts) w) as [[e'|files] w'];
    simpl in He; [|discriminate].
  inversion He; subst e'. reflexivity.
Qed.

(* ------------------------------------------------------------------ *)
(** ** What a write and an unlink leave at a location *)
(* ------------------------------------------------------------------ *)

Lemma path_eqb_eq (p q : Fs.Path) : Fs.path_eqb p q = true <-> p = q.
Proof.
  revert q. induction p as [|a p IH]; intros [|b q]; simpl;
    try (split; [discriminate|discriminate]); [tauto|].
  rewrite andb_true_iff, streq_eq, IH. split.
  - intros [-> ->]. reflexivity.
  - intros E. inversion E. tauto.
Qed.

Lemma path_eqb_refl (p : Fs.Path) : Fs.path_eqb p p = true.
Proof. apply path_eqb_eq. reflexivity. Qed.

Lemma path_eqb_neq (p q : Fs.Path) : p <> q -> Fs.path_eqb p q = false.
Proof.
  intros H. destruct (Fs.path_eqb p q) eqn:E; [|reflexivity].
  apply path_eqb_eq in E. contradiction.
Qed.



Lemma find_replaceEntry_same (t : Fs.FS) (q : Fs.Path) (n : Fs.Node) :
  find (fun e => Fs.path_eqb (fst e) q) t <> None ->
  find (fun e => Fs.path_eqb (fst e) q) (Fs.replaceEntry t q n) = Some (q, n).
Proof.
  induction t as [|e t IH]; simpl; [contradiction|].
  destruct (Fs.path_eqb (fst e) q) eqn:E; simpl.
  - rewrite path_eqb_refl. reflexivity.
  - rewrite E. exact IH.
Qed.

Lemma find_replaceEntry_other (t : Fs.FS) (p q : Fs.Path) (n : Fs.Node) :
  p <> q ->
  find (fun e => Fs.path_eqb (fst e) p) (Fs.replaceEntry t q n)
  = find (fun e => Fs.path_eqb (fst e) p) t.
Proof.
  intros Hne. induction t as [|e t IH]; simpl; [reflexivity|].
  destruct (Fs.path_eqb (fst e) q) eqn:E; simpl.
  - apply path_eqb_eq in E. rewrite E.
    rewrite (path_eqb_neq q p) by congruence. reflexivity.
  - destruct (Fs.path_eqb (fst e) p); [reflexivity|exact IH].
Qed.

Lemma find_app_last (t : Fs.FS) (p : Fs.Path) (x : Fs.Path * Fs.Node) :
  find (fun e => Fs.path_eqb (fst e) p) (t ++ [x])
  = match find (fun e => Fs.path_eqb (fst e) p) t with
    | Some e => Some e
    | None => if Fs.path_eqb (fst x) p then Some x else None
    end.
Proof.
  induction t as [|e t IH]; simpl; [reflexivity|].
  destruct (Fs.path_eqb (fst e) p); [reflexivity|exact IH].
Qed.

(** After a write the location holds the file; the others are as
    before. *)
Lemma writeFile_lookup (t t' : Fs.FS) (q : Fs.Path) (now size : Z) :
  Fs.writeFile t q now size = inr t' ->
  Fs.lookup t' q = Some (Fs.FileNode now size)
  /\ forall p, p <> q -> Fs.lookup t' p = Fs.lookup t p.
Proof.
  unfold Fs.writeFile. destruct q as [|s q']; [discriminate|].
  destruct (Fs.lookup t (removelast (s :: q'))) as [[?|?]|]; try discriminate.
  destruct (Fs.lookup t (s :: q')) as [[m0 s0|m0]|] eqn:El; try discriminate;
    intros E; inversion E; subst t'; clear E;
    unfold Fs.lookup in El;
    destruct (find (fun e => Fs.path_eqb (fst e) (s :: q')) t) as [e0|]
      eqn:Efind; try discriminate.
  - split.
    + unfold Fs.lookup. rewrite find_replaceEntry_same; [reflexivity|].
      rewrite Efind. discriminate.
    + intros p Hne. unfold Fs.lookup. destruct p; [reflexivity|].
      rewrite find_replaceEntry_other by exact Hne. reflexivity.
  - split.
    + unfold Fs.lookup. rewrite find_app_last, Efind. simpl fst.
      rewrite path_eqb_refl. reflexivity.
    + intros p Hne. unfold Fs.lookup. destruct p as [|s1 p1]; [reflexivity|].
      rewrite find_app_last. simpl fst.
      rewrite (path_eqb_neq (s :: q') (s1 :: p1)) by congruence.
      destruct (find (fun e => Fs.path_eqb (fst e) (s1 :: p1)) t);
        reflexivity.
Qed.


Lemma unlink_succeeds (t t' : Fs.FS) (q : Fs.Path) :
  Fs.unlink t q = inr t' ->
  t' = filter (fun e => negb (Fs.path_eqb (fst e) q)) t.
Proof.
  unfold Fs.unlink. destruct q as [|a q']; [discriminate|].
  destruct (Fs.lookup t (a :: q')) as [[?|?]|]; intros E; inversion E.
  reflexivity.
Qed.

Lemma run_quiet {A : Type} (p : Prog A) (w : World) :
  others w = [] -> others (snd (run p w)) = [].
Proof.
  revert w. induction p as [a|e|X op k IH]; intros w Hq; simpl;
    try exact Hq.
  assert (Hw1 : others (if isAsync op then yield w else w) = []).
  { destruct (isAsync op); [rewrite yield_quiet by exact Hq|]; exact Hq. }
  pose proof (exec_others op (if isAsync op then yield w else w)) as Hex.
  destruct (exec op (if isAsync op then yield w else w)) as [r w2].
  apply IH. simpl in Hex. rewrite Hex. exact Hw1.
Qed.

(* ------------------------------------------------------------------ *)
(** ** Parts that are stored *)
(* ------------------------------------------------------------------ *)

Lemma writeFile_succeeds (t : Fs.FS) (p : Fs.Path) (now size : Z) :
  p <> [] -> isDirectory t (removelast p) ->
  (forall m, Fs.lookup t p <> Some (Fs.DirNode m)) ->
  exists t', Fs.writeFile t p now size = inr t'.
Proof.
  intros Hne [m Hdir] Hfree. unfold Fs.writeFile.
  destruct p as [|s p']; [contradiction|]. rewrite Hdir.
  destruct (Fs.lookup t (s :: p')) as [[m0 s0|m0]|] eqn:E; eauto.
  exfalso. exact (Hfree m0 eq_refl).
Qed.

(** The filter as multer calls it, on a part it lets through: only the
    console changes. *)
Lemma run_wrappedFileFilter_accepts (cfg : Settings) (filesLeft : Z)
    (part : Part) (w : World) :
  fieldname part = js "file" -> (0 < filesLeft)%Z -> ~ disallowed cfg part ->
  exists entries,
    run (MulterMiddleware.wrappedFileFilter (fileFilter cfg)
           (js "file") filesLeft part) w
    = (inr ((filesLeft - 1)%Z, true),
       mkWorld (fs w) (clock w) (console w ++ entries) (others w) (ticks w)).
Proof.
  intros Hfield Hleft Hok.
  assert (Hfilter : fst (run (fileFilter cfg part) w) = inr true).
  { destruct (allowedExtensions cfg) as [|a l] eqn:Ea.
    - apply fileFilter_unrestricted. exact Ea.
    - apply fileFilter_listed.
      destruct (in_dec (list_eq_dec N.eq_dec)
                  (fileExtension (originalname part))
                  (allowedExtensions cfg)) as [Hin|Hout]; [exact Hin|].
      exfalso. apply Hok. split; [rewrite Ea; discriminate|exact Hout]. }
  destruct (fileFilter_logs cfg part w) as [entries Hlog].
  exists entries. unfold MulterMiddleware.wrappedFileFilter.
  rewrite Hfield, streq_refl. simpl negb. simpl orb.
  destruct (filesLeft <=? 0)%Z eqn:E; [apply Z.leb_le in E; lia|].
  rewrite run_bind.
  destruct (run (fileFilter cfg part) w) as [[e|b] w'];
    simpl in Hfilter, Hlog; [discriminate|].
  inversion Hfilter; subst b. rewrite Hlog. reflexivity.
Qed.

Lemma storagePath_not_dir (cfg : Settings) (now : Z) (p : Part) :
  Fs.path_eqb (storagePath cfg now p) (Fs.resolve (uploadDir cfg)) = false.
Proof.
  apply path_eqb_neq. unfold storagePath. intros E.
  apply (f_equal (@List.length jsstring)) in E.
  rewrite length_app in E. simpl in E. lia.
Qed.

Lemma storagePath_not_nil (cfg : Settings) (now : Z) (p : Part) :
  storagePath cfg now p <> [].
Proof.
  unfold storagePath. intros E. apply app_eq_nil in E.
  destruct E as [_ E]. discriminate.
Qed.

(** One file part that passes the count and the filter, in a world no
    other request touches and where it can be written: the file is
    written under its storage name, up to the limit of length, and
    stamped with the clock as it is read after the name is made; a part
    that reaches the limit is then refused, and what the request has
    written is unlinked. *)
Lemma uploadOne_writes (cfg : Settings) (filesLeft : Z)
    (uploaded : list File) (part : Part) (w : World) :
  isAbsolute (uploadDir cfg) = true -> others w = [] ->
  fieldname part = js "file" -> ~ disallowed cfg part -> (0 < filesLeft)%Z ->
  isDirectory (fs w) (Fs.resolve (uploadDir cfg)) ->
  (forall m, Fs.lookup (fs w) (storagePath cfg (clock w) part)
             <> Some (Fs.DirNode m)) ->
  exists file w1,
    Fs.resolve (file_path file) = storagePath cfg (clock w) part
    /\ file_originalname file = originalname part
    /\ others w1 = []
    /\ clock w1 = clockNext (clockNext (clock w) (ticks w)) (tl (ticks w))
    /\ ticks w1 = tl (tl (ticks w))
    /\ (forall path,
          Fs.lookup (fs w1) path
          = written path (Fs.lookup (fs w) path)
              (storagePath cfg (clock w) part,
               Fs.FileNode (clockNext (clock w) (ticks w))
                 (Z.min (bytes part) (maxSize cfg))))
    /\ run (uploadOne cfg filesLeft uploaded part) w
       = if (maxSize cfg <=? bytes part)%Z
         then (inl (MulterError LIMIT_FILE_SIZE (fieldname part)),
               snd (run (MulterMiddleware.removeUploadedFiles
                           (uploaded ++ [file])) w1))
         else (inr ((filesLeft - 1)%Z, uploaded ++ [file]), w1).
Proof.
  intros Habs Hq Hfield Hok Hleft Hdir Hfree.
  unfold uploadOne, MulterMiddleware.onFile.
  destruct (run_wrappedFileFilter_accepts cfg filesLeft part w Hfield Hleft Hok)
    as [entries Hfilter].
  destruct (writeFile_succeeds (fs w) (storagePath cfg (clock w) part)
              (clockNext (clock w) (ticks w))
              (Z.min (bytes part) (maxSize cfg))) as [t' Hw].
  { apply storagePath_not_nil. }
  { unfold storagePath. rewrite removelast_last. exact Hdir. }
  { exact Hfree. }
  set (wf := mkWorld (fs w) (clock w) (console w ++ entries) (others w)
               (ticks w)) in *.
  exists (mkFile (fieldname part) (originalname part) (uploadDir cfg)
            (storageName (clock w) (originalname part))
            (NodePath.join (uploadDir cfg)
               (storageName (clock w) (originalname part)))
            (Z.min (bytes part) (maxSize cfg))).
  exists (tick (setFs (tick wf) t')).
  split; [apply (storage_path_resolve cfg _ _ Habs)|].
  split; [reflexivity|]. split; [exact Hq|].
  split; [reflexivity|]. split; [reflexivity|]. split.
  - intros path. simpl fs. unfold written. simpl fst. simpl snd.
    destruct (writeFile_lookup _ _ _ _ _ Hw) as [Hsame Hother].
    destruct (Fs.path_eqb (storagePath cfg (clock w) part) path) eqn:E.
    + apply path_eqb_eq in E. subst path. exact Hsame.
    + apply Hother. intros Heq. subst path. rewrite path_eqb_refl in E.
      discriminate.
  - rewrite run_bind, run_tryCatch, Hfilter. cbv beta iota.
    rewrite run_bind, run_tryCatch, run_handleFile. cbv zeta.
    assert (Hqf : others (tick wf) = []) by exact Hq.
    rewrite (yield_quiet (tick wf) Hqf).
    rewrite (storage_path_resolve cfg _ _ Habs).
    change (clock wf) with (clock w).
    fold (storagePath cfg (clock w) part).
    change (fs (tick wf)) with (fs w).
    change (clock (tick wf)) with (clockNext (clock w) (ticks w)).
    rewrite Hw. cbv beta iota.
    destruct (maxSize cfg <=? bytes part)%Z; [|reflexivity].
    rewrite abortWithError_run. reflexivity.
Qed.

(** The same for a part below the limit: it is stored with its length. *)
Lemma uploadOne_accepts (cfg : Settings) (filesLeft : Z)
    (uploaded : list File) (part : Part) (w : World) :
  isAbsolute (uploadDir cfg) = true -> others w = [] ->
  acceptable cfg part -> (0 < filesLeft)%Z ->
  isDirectory (fs w) (Fs.resolve (uploadDir cfg)) ->
  (forall m, Fs.lookup (fs w) (storagePath cfg (clock w) part)
             <> Some (Fs.DirNode m)) ->
  exists file w1,
    run (uploadOne cfg filesLeft uploaded part) w
    = (inr ((filesLeft - 1)%Z, uploaded ++ [file]), w1)
    /\ Fs.resolve (file_path file) = storagePath cfg (clock w) part
    /\ file_originalname file = originalname part
    /\ others w1 = []
    /\ clock w1 = clockNext (clockNext (clock w) (ticks w)) (tl (ticks w))
    /\ ticks w1 = tl (tl (ticks w))
    /\ forall path,
         Fs.lookup (fs w1) path
         = written path (Fs.lookup (fs w) path)
             (storagePath cfg (clock w) part,
              Fs.FileNode (clockNext (clock w) (ticks w)) (bytes part)).
Proof.
  intros Habs Hq [Hfield [Hok Hsize]] Hleft Hdir Hfree.
  destruct (uploadOne_writes cfg filesLeft uploaded part w Habs Hq Hfield Hok
              Hleft Hdir Hfree)
    as [file [w1 [Hpath [Hname [Hq1 [Hc [Hk [Hl Hrun]]]]]]]].
  exists file, w1.
  destruct (maxSize cfg <=? bytes part)%Z eqn:E;
    [apply Z.leb_le in E; lia|].
  rewrite (Z.min_l _ _ (Z.lt_le_incl _ _ Hsize)) in Hl.
  repeat split; assumption.
Qed.

(** What the files stored in turn leave at a location. *)
Lemma heldAfter_cons (saved : Fs.Path * Fs.Node)
    (rest : list (Fs.Path * Fs.Node)) (t t1 : Fs.FS) (path : Fs.Path) :
  Fs.lookup t1 path = written path (Fs.lookup t path) saved ->
  heldAfter (saved :: rest) t path = heldAfter rest t1 path.
Proof. intros H. unfold heldAfter. simpl. rewrite H. reflexivity. Qed.




Lemma stores_file (cfg : Settings) (clock : Z) (ticks : list Z) (p : Part)
    (rest : list Part) :
  isFilePart p = true ->
  stores cfg clock ticks (p :: rest)
  = (storagePath cfg clock p,
     Fs.FileNode (clockNext clock ticks) (bytes p))
    :: stores cfg (clockNext (clockNext clock ticks) (tl ticks))
         (tl (tl ticks)) rest.
Proof. intros H. simpl. rewrite H. reflexivity. Qed.

Lemma stores_other (cfg : Settings) (clock : Z) (ticks : list Z) (p : Part)
    (rest : list Part) :
  isFilePart p = false ->
  stores cfg clock ticks (p :: rest) = stores cfg clock ticks rest.
Proof. intros H. simpl. rewrite H. reflexivity. Qed.

Lemma uploadParts_file (cfg : Settings) (filesLeft : Z) (uploaded : list File)
    (part : Part) (rest : list Part) (w : World) :
  isFilePart part = true ->
  run (uploadParts cfg filesLeft uploaded (part :: rest)) w
  = match run (uploadOne cfg filesLeft uploaded part) w with
    | (inl e, w') => (inl e, w')
    | (inr state, w') =>
        run (uploadParts cfg (fst state) (snd state) rest) w'
    end.
Proof.
  intros Hfile. unfold uploadParts. simpl MulterMiddleware.processParts.
  unfold isFilePart in Hfile. rewrite Hfile.
  fold (uploadOne cfg filesLeft uploaded part). rewrite run_bind.
  reflexivity.
Qed.

Lemma uploadParts_other (cfg : Settings) (filesLeft : Z)
    (uploaded : list File) (part : Part) (rest : list Part) :
  isFilePart part = false ->
  uploadParts cfg filesLeft uploaded (part :: rest)
  = uploadParts cfg filesLeft uploaded rest.
Proof.
  intros Hfile. unfold uploadParts. simpl MulterMiddleware.processParts.
  unfold isFilePart in Hfile. rewrite Hfile. reflexivity.
Qed.

(** Parts that can be stored are stored, one after the other, and the
    middleware goes on with what follows them. *)
Lemma uploadParts_through (cfg : Settings) (before : list Part) :
  forall (filesLeft : Z) (uploaded : list File) (w : World),
    isAbsolute (uploadDir cfg) = true -> others w = [] ->
    storable cfg filesLeft before w ->
    exists files w',
      (forall tail,
         run (uploadParts cfg filesLeft uploaded (before ++ tail)) w
         = run (uploadParts cfg
                  (filesLeft - Z.of_nat (List.length (fileParts before)))
                  (uploaded ++ files) tail) w')
      /\ map file_originalname files = map originalname (fileParts before)
      /\ map (fun f => Fs.resolve (file_path f)) files
         = map fst (stores cfg (clock w) (ticks w) before)
      /\ others w' = []
      /\ isDirectory (fs w') (Fs.resolve (uploadDir cfg))
      /\ (forall path,
            Fs.lookup (fs w') path
            = heldAfter (stores cfg (clock w) (ticks w) before) (fs w) path)
      /\ (forall tail,
            stores cfg (clock w) (ticks w) (before ++ tail)
            = stores cfg (clock w) (ticks w) before
              ++ stores cfg (clock w') (ticks w') tail).
Proof.
  induction before as [|part rest IH]; intros filesLeft uploaded w Habs Hq Hst.
  - exists [], w. destruct Hst as [Hdir _].
    split; [intros tail; simpl; rewrite app_nil_r, Z.sub_0_r; reflexivity|].
    repeat split; try reflexivity; assumption.
  - destruct Hst as [Hdir [Hcount [Hacc Hfree]]].
    destruct (isFilePart part) eqn:Efile.
    + rewrite fileParts_cons, Efile in Hcount.
      change (List.length (part :: fileParts rest))
        with (S (List.length (fileParts rest))) in Hcount.
      pose proof (stores_file cfg (clock w) (ticks w) part rest Efile)
        as Hstores.
      destruct (uploadOne_accepts cfg filesLeft uploaded part w Habs Hq
                  (Hacc part (or_introl eq_refl) Efile) ltac:(lia) Hdir)
        as [file [w1 [Hrun [Hpath [Hname [Hq1 [Hc [Hk Hl]]]]]]]].
      { intros m.
        apply (Hfree (storagePath cfg (clock w) part,
                      Fs.FileNode (clockNext (clock w) (ticks w)) (bytes part))
                 m).
        rewrite Hstores. left. reflexivity. }
      assert (Hst1 : storable cfg (filesLeft - 1) rest w1).
      { split; [|split; [|split]].
        - destruct Hdir as [m Hm]. exists m. rewrite Hl. unfold written.
          simpl fst. rewrite storagePath_not_dir. exact Hm.
        - lia.
        - intros p Hp. apply Hacc. right. exact Hp.
        - intros saved m Hin. rewrite Hc, Hk in Hin. rewrite Hl.
          unfold written. simpl fst. simpl snd.
          destruct (Fs.path_eqb (storagePath cfg (clock w) part) (fst saved));
            [discriminate|].
          apply Hfree. rewrite Hstores. right. exact Hin. }
      destruct (IH (filesLeft - 1)%Z (uploaded ++ [file]) w1 Habs Hq1 Hst1)
        as [files [w' [Hgo [Hnames [Hpaths [Hq' [Hdir' [Hl' Happ]]]]]]]].
      exists (file :: files), w'.
      split; [|split; [|split; [|split; [|split; [|split]]]]].
      * intros tail. change ((part :: rest) ++ tail) with (part :: rest ++ tail).
        rewrite (uploadParts_file cfg filesLeft uploaded part (rest ++ tail) w
                   Efile), Hrun. cbv beta iota. simpl fst. simpl snd.
        rewrite Hgo, fileParts_cons, Efile, <- app_assoc. simpl app.
        change (List.length (part :: fileParts rest))
          with (S (List.length (fileParts rest))).
        replace (filesLeft - 1 - Z.of_nat (List.length (fileParts rest)))%Z
          with (filesLeft - Z.of_nat (S (List.length (fileParts rest))))%Z
          by lia.
        reflexivity.
      * rewrite fileParts_cons, Efile. simpl. rewrite Hname, Hnames.
        reflexivity.
      * rewrite Hstores. simpl. rewrite Hpath, Hpaths, Hc, Hk. reflexivity.
      * exact Hq'.
      * exact Hdir'.
      * intros path. rewrite Hstores, Hl'.
        rewrite (heldAfter_cons _ _ (fs w) (fs w1) path (Hl path)).
        rewrite Hc, Hk. reflexivity.
      * intros tail. change ((part :: rest) ++ tail) with (part :: rest ++ tail).
        rewrite (stores_file cfg (clock w) (ticks w) part (rest ++ tail) Efile).
        rewrite Hstores. simpl app. rewrite <- Hc, <- Hk, Happ. reflexivity.
    + rewrite fileParts_cons, Efile in Hcount.
      pose proof (stores_other cfg (clock w) (ticks w) part rest Efile)
        as Hstores.
      assert (Hst1 : storable cfg filesLeft rest w).
      { split; [exact Hdir|]. split; [exact Hcount|]. split.
        - intros p Hp. apply Hacc. right. exact Hp.
        - intros saved m Hin. apply Hfree. rewrite Hstores. exact Hin. }
      destruct (IH filesLeft uploaded w Habs Hq Hst1)
        as [files [w' [Hgo [Hnames [Hpaths [Hq' [Hdir' [Hl' Happ]]]]]]]].
      exists files, w'.
      split; [|split; [|split; [|split; [|split; [|split]]]]].
      * intros tail. change ((part :: rest) ++ tail) with (part :: rest ++ tail).
        rewrite (uploadParts_other cfg filesLeft uploaded part (rest ++ tail)
                   Efile), Hgo, fileParts_cons, Efile.
        reflexivity.
      * rewrite fileParts_cons, Efile. exact Hnames.
      * rewrite Hstores. exact Hpaths.
      * exact Hq'.
      * exact Hdir'.
      * intros path. rewrite Hstores. apply Hl'.
      * intros tail. change ((part :: rest) ++ tail) with (part :: rest ++ tail).
        rewrite (stores_other cfg (clock w) (ticks w) part (rest ++ tail) Efile).
        rewrite Hstores. apply Happ.
Qed.

(** ** What the cleanup of a refused upload leaves *)





















(* ------------------------------------------------------------------ *)
(** ** Startup *)
(* ------------------------------------------------------------------ *)

Lemma lookup_app_keeps (t : Fs.FS) (p : Fs.Path) (x : Fs.Path * Fs.Node)
    (n : Fs.Node) :
  Fs.lookup t p = Some n -> Fs.lookup (t ++ [x]) p = Some n.
Proof.
  unfold Fs.lookup. destruct p as [|s p']; [tauto|].
  rewrite find_app_last.
  destruct (find (fun e => Fs.path_eqb (fst e) (s :: p')) t);
    [tauto|discriminate].
Qed.

Lemma lookup_app_new (t : Fs.FS) (p : Fs.Path) (n : Fs.Node) :
  Fs.lookup t p = None -> Fs.lookup (t ++ [(p, n)]) p = Some n.
Proof.
  unfold Fs.lookup. destruct p as [|s p']; [discriminate|].
  rewrite find_app_last.
  destruct (find (fun e => Fs.path_eqb (fst e) (s :: p')) t);
    [discriminate|].
  simpl fst. rewrite path_eqb_refl. reflexivity.
Qed.

Lemma ensureDirs_keeps (rest : Fs.Path) :
  forall (t t' : Fs.FS) (above p : Fs.Path) (now : Z) (n : Fs.Node),
    Fs.ensureDirs t above rest now = inr t' ->
    Fs.lookup t p = Some n -> Fs.lookup t' p = Some n.
Proof.
  induction rest as [|seg rest IH]; intros t t' above p now n He Hl; simpl in He.
  - inversion He; subst. exact Hl.
  - destruct (Fs.lookup t (above ++ [seg])) as [[m s|m]|] eqn:E;
      [destruct rest; discriminate| |].
    + exact (IH _ _ _ _ _ _ He Hl).
    + apply (IH _ _ _ p _ n He). apply lookup_app_keeps. exact Hl.
Qed.

Lemma ensureDirs_isDirectory (rest : Fs.Path) :
  forall (t t' : Fs.FS) (above : Fs.Path) (now : Z),
    Fs.ensureDirs t above rest now = inr t' ->
    isDirectory t above -> isDirectory t' (above ++ rest).
Proof.
  induction rest as [|seg rest IH]; intros t t' above now He Hd; simpl in He.
  - inversion He; subst. rewrite app_nil_r. exact Hd.
  - replace (above ++ seg :: rest) with ((above ++ [seg]) ++ rest)
      by (rewrite <- app_assoc; reflexivity).
    destruct (Fs.lookup t (above ++ [seg])) as [[m s|m]|] eqn:E;
      [destruct rest; discriminate| |].
    + apply (IH _ _ _ _ He). exists m. exact E.
    + apply (IH _ _ _ _ He). exists now. apply lookup_app_new. exact E.
Qed.

(** When the script has started, [uploadDir] is a directory, and what was
    in the tree is still there. *)
Lemma startup_makes_uploadDir (cfg : Settings) (t t' : Fs.FS) (now : Z) :
  startup cfg t now = inr t' ->
  isDirectory t' (Fs.resolve (uploadDir cfg))
  /\ forall p n, Fs.lookup t p = Some n -> Fs.lookup t' p = Some n.
Proof.
  unfold startup, Fs.ensureDir. intros H. split.
  - apply (ensureDirs_isDirectory _ _ _ [] _ H). exists 0%Z. reflexivity.
  - intros p n. exact (ensureDirs_keeps _ _ _ _ _ _ _ H).
Qed.

(* ------------------------------------------------------------------ *)
(** ** The listing when no other request interferes *)
(* ------------------------------------------------------------------ *)

Lemma configure_absolute (args : Args) (cwd generated : jsstring)
    (cfg : Settings) :
  configure args cwd generated = Some cfg ->
  isAbsolute (uploadDir cfg) = true.
Proof.
  unfold configure.
  destruct (arg_user args), (arg_password args), (arg_dir args),
    (arg_extensions args); try discriminate.
  intros H. inversion H. reflexivity.
Qed.

Lemma filterBoolean_Some {A B : Type} (g : A -> B) (l : list A) :
  filterBoolean (map (fun a => Some (g a)) l) = map g l.
Proof.
  induction l as [|a l IH]; simpl; [reflexivity|]. rewrite IH. reflexivity.
Qed.

Lemma find_In_some (t : Fs.FS) (p : Fs.Path) (e : Fs.Path * Fs.Node) :
  In e t -> fst e = p ->
  find (fun x => Fs.path_eqb (fst x) p) t <> None.
Proof.
  intros Hin Hp Hnone.
  pose proof (find_none _ _ Hnone e Hin) as H. simpl in H.
  rewrite Hp, path_eqb_refl in H. discriminate.
Qed.

(** A name the enumeration yields is an entry name, and its location is
    there. *)
Lemma children_entries (t : Fs.FS) (dir : Fs.Path) (n : jsstring) :
  wellFormedTree t -> In n (Fs.children t dir) ->
  properSegment n = true /\ slashFree n
  /\ Fs.exists_ t (dir ++ [n]) = true.
Proof.
  intros Hwf Hin. unfold Fs.children in Hin.
  apply in_map_iff in Hin. destruct Hin as [[p node] [Hn He]].
  apply filter_In in He. destruct He as [He Hchild].
  pose proof (Hwf _ He) as Hall.
  unfold Fs.isChildOf in Hchild. simpl fst in *.
  destruct p as [|s rest]; [discriminate|].
  apply path_eqb_eq in Hchild.
  assert (Hsplit : s :: rest = dir ++ [n]).
  { rewrite <- Hchild, <- Hn. apply app_removelast_last. discriminate. }
  rewrite Hsplit in Hall.
  apply Forall_app in Hall. destruct Hall as [_ Hlast].
  destruct (Forall_inv Hlast) as [Hp Hf].
  split; [exact Hp|]. split; [exact Hf|].
  unfold Fs.exists_, Fs.lookup. rewrite <- Hsplit.
  pose proof (find_In_some t (s :: rest) (s :: rest, node) He eq_refl)
    as Hfind.
  destruct (find _ t); [reflexivity|contradiction].
Qed.

Lemma run_detailOf_present (cfg : Settings) (n : jsstring) (w : World) :
  isAbsolute (uploadDir cfg) = true -> others w = [] ->
  properSegment n = true -> slashFree n ->
  Fs.exists_ (fs w) (Fs.resolve (uploadDir cfg) ++ [n]) = true ->
  run (detailOf cfg n) w
  = (inr (Some (mkDetail n
                  (mtimeAt (fs w) (Fs.resolve (uploadDir cfg) ++ [n])))),
     w).
Proof.
  intros Habs Hq Hp Hf Hex.
  assert (Hres : Fs.resolve (NodePath.join (uploadDir cfg) n)
                 = Fs.resolve (uploadDir cfg) ++ [n]).
  { rewrite (resolve_join _ _ Habs Hf), (pushSegment_proper _ _ _ Hp).
    simpl. rewrite rev_involutive. reflexivity. }
  unfold detailOf. simpl. rewrite !(yield_quiet w Hq), Hres, Hex. simpl.
  rewrite !(yield_quiet w Hq), Hres. unfold mtimeAt.
  unfold Fs.exists_ in Hex. unfold Fs.stat.
  destruct (Fs.lookup (fs w) (Fs.resolve (uploadDir cfg) ++ [n]))
    as [[m s|m]|]; [reflexivity|reflexivity|discriminate].
Qed.

Lemma promiseAll_cons {A B : Type} (f : A -> Prog B) (a : A) (l : list A) :
  promiseAll f (a :: l)
  = (b <- f a ;; bs <- promiseAll f l ;; Ret (b :: bs)).
Proof. reflexivity. Qed.

Lemma run_promiseAll_detailOf (cfg : Settings) (names : list jsstring)
    (w : World) :
  isAbsolute (uploadDir cfg) = true -> others w = [] ->
  (forall n, In n names ->
     properSegment n = true /\ slashFree n
     /\ Fs.exists_ (fs w) (Fs.resolve (uploadDir cfg) ++ [n]) = true) ->
  run (promiseAll (detailOf cfg) names) w
  = (inr (map (fun n =>
                 Some (mkDetail n
                         (mtimeAt (fs w) (Fs.resolve (uploadDir cfg) ++ [n]))))
            names),
     w).
Proof.
  intros Habs Hq. induction names as [|n names IH]; intros Hall;
    [reflexivity|].
  rewrite promiseAll_cons, run_bind.
  destruct (Hall n (or_introl eq_refl)) as [Hp [Hf Hex]].
  rewrite (run_detailOf_present cfg n w Habs Hq Hp Hf Hex).
  cbv beta iota. rewrite run_bind, IH; [reflexivity|].
  intros n' Hn'. apply Hall. right. exact Hn'.
Qed.

(** In a world no other request touches, with [uploadDir] an existing
    directory of a well-formed tree, [GET /] renders every entry directly
    in [uploadDir], none below, most recent first, entries of equal time
    in the order of the enumeration (see [sort_permutation],
    [sort_newerFirst] and [sort_stable]); the world is left as it is. *)
Lemma listing_when_quiet (cfg : Settings) (w : World) :
  isAbsolute (uploadDir cfg) = true -> others w = [] ->
  wellFormedTree (fs w) ->
  isDirectory (fs w) (Fs.resolve (uploadDir cfg)) ->
  serve cfg (authorized cfg GetIndex) w
  = (inr (render (js "index")
            (IndexLocals
               (map name (sort byTimeDescending (listed cfg (fs w)))))),
     w).
Proof.
  intros Habs Hq Hwf [m Hdir].
  rewrite serve_authorized, run_tryCatch. unfold getIndex.
  rewrite run_tryCatch, run_bind.
  assert (Hread : run (call (ReadDir (uploadDir cfg))) w
                  = (inr (Fs.children (fs w) (Fs.resolve (uploadDir cfg))), w)).
  { simpl. rewrite (yield_quiet w Hq). unfold Fs.readdir. rewrite Hdir.
    reflexivity. }
  rewrite Hread. cbv beta iota. rewrite run_bind.
  rewrite (run_promiseAll_detailOf cfg _ w Habs Hq).
  - cbv beta iota. simpl run. rewrite filterBoolean_Some. reflexivity.
  - intros n Hn. exact (children_entries _ _ n Hwf Hn).
Qed.

(** An entry deleted by another request after the enumeration and before
    its existence check is left out of the listing. *)
Lemma listing_drops_entry_gone_before_check :
  fst (serve Sample.cfg (authorized Sample.cfg GetIndex)
         (mkWorld Sample.tree 1700000000000 []
            [idle; deleting (Fs.resolve (js "/srv/up/a.txt"))] []))
  = inr (render (js "index") (IndexLocals [js "b.txt"; js "c.txt"])).
Proof. reflexivity. Qed.

Lemma listing_quiet_sample :
  fst (serve Sample.cfg (authorized Sample.cfg GetIndex) Sample.world)
  = inr (render (js "index")
           (IndexLocals [js "b.txt"; js "a.txt"; js "c.txt"])).
Proof. reflexivity. Qed.

Lemma find_remove_none (t : Fs.FS) (p : Fs.Path) :
  find (fun e => Fs.path_eqb (fst e) p) (Fs.remove t p) = None.
Proof.
  unfold Fs.remove. induction t as [|e t IH]; simpl; [reflexivity|].
  destruct (Fs.isPrefix p (fst e)) eqn:E; simpl; [exact IH|].
  destruct (Fs.path_eqb (fst e) p) eqn:Ep; [|exact IH].
  apply path_eqb_eq in Ep. rewrite Ep, isPrefix_refl in E. discriminate.
Qed.

Lemma stat_removed (t : Fs.FS) (p : Fs.Path) :
  p <> [] -> Fs.stat (Fs.remove t p) p = inl Fs.ENOENT.
Proof.
  intros Hne. unfold Fs.stat, Fs.lookup. destruct p; [contradiction|].
  rewrite find_remove_none. reflexivity.
Qed.

(** C7. The listing is sorted by modification time, most recent first and
    stably, and an entry that is gone at its existence check is left out
    (see [listing_when_quiet], [sort_newerFirst], [sort_stable] and
    [listing_drops_entry_gone_before_check]); but when another request
    deletes an entry after the listing has checked its existence and
    before the listing calls [stat] on it, [stat] fails and the request is
    answered with 500 instead of the listing without that entry. Here the
    entry is the first one enumerated. *)
Theorem listing_fails_when_entry_vanishes_before_stat :
  forall (cfg : Settings) (t : Fs.FS) (now : Z) (first : jsstring)
         (later : list jsstring) (passing : list Z),
    isAbsolute (uploadDir cfg) = true ->
    wellFormedTree t ->
    isDirectory t (Fs.resolve (uploadDir cfg)) ->
    Fs.children t (Fs.resolve (uploadDir cfg)) = first :: later ->
    let target := Fs.resolve (uploadDir cfg) ++ [first] in
    let w := mkWorld t now [] [idle; idle; deleting target] passing in
    serve cfg (authorized cfg GetIndex) w
    = (inr (send 500 (js "Internal Server Error")),
       mkWorld (Fs.remove t target) now
         [(ERROR,
           [Str (js "Error reading files:");
            Err (SystemError Fs.ENOENT (js "stat")
                   (NodePath.join (uploadDir cfg) first))])]
         [] passing).
Proof.
  intros cfg t now first later passing Habs Hwf [m Hdir] Hchildren. cbv zeta.
  destruct (children_entries t (Fs.resolve (uploadDir cfg)) first Hwf)
    as [Hp [Hf Hex]]; [rewrite Hchildren; left; reflexivity|].
  assert (Hres : Fs.resolve (NodePath.join (uploadDir cfg) first)
                 = Fs.resolve (uploadDir cfg) ++ [first]).
  { rewrite (resolve_join _ _ Habs Hf), (pushSegment_proper _ _ _ Hp).
    simpl. rewrite rev_involutive. reflexivity. }
  rewrite serve_authorized, run_tryCatch. unfold getIndex.
  rewrite run_tryCatch, run_bind.
  assert (Hread : run (call (ReadDir (uploadDir cfg)))
                    (mkWorld t now []
                       [idle; idle;
                        deleting (Fs.resolve (uploadDir cfg) ++ [first])]
                       passing)
                  = (inr (first :: later),
                     mkWorld t now []
                       [idle; deleting (Fs.resolve (uploadDir cfg) ++ [first])]
                       passing)).
  { simpl. unfold Fs.readdir, idle. rewrite Hdir, Hchildren. reflexivity. }
  rewrite Hread. cbv beta iota.
  rewrite run_bind, promiseAll_cons, run_bind.
  assert (Hdetail : run (detailOf cfg first)
                      (mkWorld t now []
                         [idle; deleting (Fs.resolve (uploadDir cfg) ++ [first])]
                         passing)
                    = (inl (SystemError Fs.ENOENT (js "stat")
                              (NodePath.join (uploadDir cfg) first)),
                       mkWorld (Fs.remove t (Fs.resolve (uploadDir cfg) ++ [first]))
                         now [] [] passing)).
  { unfold detailOf. simpl. unfold idle. rewrite Hres, Hex. simpl.
    unfold deleting. rewrite Hres, stat_removed; [reflexivity|].
    intros E. apply app_eq_nil in E. destruct E as [_ E]. discriminate. }
  rewrite Hdetail. reflexivity.
Qed.

Lemma listing_fails_when_entry_vanishes_before_stat_witness :
  serve Sample.cfg (authorized Sample.cfg GetIndex)
    (mkWorld Sample.tree 1700000000000 []
       [idle; idle; deleting (Fs.resolve (js "/srv/up/a.txt"))] [2; 0]%Z)
  = (inr (send 500 (js "Internal Server Error")),
     mkWorld (Fs.remove Sample.tree (Fs.resolve (js "/srv/up/a.txt")))
       1700000000000
       [(ERROR,
         [Str (js "Error reading files:");
          Err (SystemError Fs.ENOENT (js "stat") (js "/srv/up/a.txt"))])]
       [] [2; 0]%Z).
Proof.
  apply (listing_fails_when_entry_vanishes_before_stat
           Sample.cfg Sample.tree 1700000000000 (js "a.txt")
           [js "b.txt"; js "c.txt"] [2; 0]%Z).
  - reflexivity.
  - intros e Hin. simpl in Hin.
    repeat (destruct Hin as [<-|Hin];
            [repeat constructor; intros H; simpl in H;
             repeat (destruct H as [H|H]; [discriminate|]); exact H|]).
    destruct Hin.
  - exists 2%Z. reflexivity.
  - reflexivity.
Defined.

(* ------------------------------------------------------------------ *)
(** ** The pages that only look *)
(* ------------------------------------------------------------------ *)

Lemma exec_readOnly {X : Type} (op : Op X) (w : World) :
  readOnly X op -> fs (snd (exec op w)) = fs w.
Proof. destruct op; simpl; intros H; try reflexivity; destruct H. Qed.

Lemma run_readOnly {A : Type} (p : Prog A) (w : World) :
  AllOps readOnly p -> others w = [] -> fs (snd (run p w)) = fs w.
Proof.
  intros Hp Hq.
  assert (H : holdsIn (fun t => t = fs w) (snd (run p w))).
  { apply (run_holdsIn (fun t => t = fs w) readOnly).
    - intros X op w0 Hop [Hfs Ho]. split.
      + rewrite (exec_readOnly op w0 Hop). exact Hfs.
      + rewrite exec_others. exact Ho.
    - exact Hp.
    - split; [reflexivity|]. rewrite Hq. constructor. }
  exact (proj1 H).
Qed.

Ltac looks_only :=
  repeat first
    [ apply AllOps_bind; [|intros ?]
    | apply AllOps_tryCatch; [|intros ?]
    | apply AllOps_call; exact I
    | apply AllOps_promiseAll; intros ?
    | apply AllOps_Ret
    | apply AllOps_Throw
    | match goal with
      | |- AllOps _ (if ?b then _ else _) => destruct b
      end ].

Lemma looking_routes_readOnly (cfg : Settings) (req : Request) :
  looksOnly (route req) -> AllOps readOnly (app cfg req).
Proof.
  intros Hlook. unfold app.
  apply AllOps_tryCatch;
    [|intros e; unfold errorHandler, consoleError; looks_only].
  apply AllOps_bind;
    [unfold beforeRoutes; destruct (refused req); constructor|intros _].
  unfold dispatch, behindAuth.
  destruct (route req); try destruct Hlook;
    (destruct (auth cfg req); [constructor|]).
  - unfold getIndex, detailOf, consoleError. looks_only.
  - unfold getInfo, consoleError. looks_only.
  - unfold getDelete, consoleError, consoleWarn. looks_only.
Qed.

Lemma run_getDelete (cfg : Settings) (filename : jsstring) (w : World) :
  run (getDelete cfg filename) w
  = let w1 := yield w in
    if Fs.exists_ (fs w1) (Fs.resolve (requestedPath cfg filename)) then
      (inr (render (js "confirm-delete")
              (ConfirmDeleteLocals (basename filename))), w1)
    else
      (inr (send 404 (js "File not found.")),
       addConsole w1 WARN
         (js "Attempted to access deletion page for non-existent file: "
          ++ basename filename)).
Proof.
  unfold getDelete, requestedPath. simpl.
  destruct (Fs.exists_ (fs (yield w))
              (Fs.resolve (NodePath.join (uploadDir cfg) (basename filename))));
    reflexivity.
Qed.

Lemma run_getInfo (cfg : Settings) (filename : jsstring) (w : World) :
  others w = [] ->
  run (getInfo cfg filename) w
  = match Fs.lookup (fs w) (Fs.resolve (requestedPath cfg filename)) with
    | None => (inr (send 404 (js "File not found.")), w)
    | Some node =>
        (inr (render (js "info")
                (InfoLocals
                   (mkFileInfo (basename filename)
                      (sizeText
                         (match node with
                          | Fs.FileNode _ size => size
                          | Fs.DirNode _ => 0%Z
                          end))
                      (LocaleString
                         (match node with
                          | Fs.FileNode mtime _ => mtime
                          | Fs.DirNode mtime => mtime
                          end))
                      (requestedPath cfg filename)))), w)
    end.
Proof.
  intros Hq. unfold getInfo. fold (requestedPath cfg filename).
  destruct (Fs.lookup (fs w) (Fs.resolve (requestedPath cfg filename)))
    as [[m s|m]|] eqn:E;
    simpl; rewrite ?(yield_quiet w Hq); unfold Fs.exists_; rewrite E; simpl;
    rewrite ?(yield_quiet w Hq); unfold Fs.stat; rewrite ?E; reflexivity.
Qed.

Lemma exists_removed (t : Fs.FS) (p : Fs.Path) :
  p <> [] -> Fs.exists_ (Fs.remove t p) p = false.
Proof.
  intros Hne. unfold Fs.exists_, Fs.lookup. destruct p; [contradiction|].
  rewrite find_remove_none. reflexivity.
Qed.

(** X1. The confirmation page of a delete, when no other request
    interferes: for a target that exists (a file or a directory) the
    [confirm-delete] view with the base name of the parameter, and
    nothing else happens; for a missing target 404 [File not found.] and
    one warning on the console. *)
Theorem confirmation_page_of_delete :
  forall (cfg : Settings) (filename : jsstring) (w : World),
    others w = [] ->
    let target := Fs.resolve (requestedPath cfg filename) in
    let result := serve cfg (authorized cfg (GetDelete filename)) w in
    (Fs.exists_ (fs w) target = true ->
     result = (inr (render (js "confirm-delete")
                      (ConfirmDeleteLocals (basename filename))), w))
    /\ (Fs.exists_ (fs w) target = false ->
        result
        = (inr (send 404 (js "File not found.")),
           addConsole w WARN
             (js "Attempted to access deletion page for non-existent file: "
              ++ basename filename))).
Proof.
  intros cfg filename w Hq. cbv zeta.
  rewrite serve_authorized, run_tryCatch, run_getDelete. cbv zeta.
  rewrite (yield_quiet w Hq).
  split; intros Hex; rewrite Hex; reflexivity.
Qed.

Lemma confirmation_page_of_delete_witness :
  fst (serve Sample.cfg (authorized Sample.cfg (GetDelete (js "x/../a.txt")))
         Sample.world)
  = inr (render (js "confirm-delete") (ConfirmDeleteLocals (js "a.txt"))).
Proof.
  destruct (confirmation_page_of_delete Sample.cfg (js "x/../a.txt")
              Sample.world eq_refl) as [H _].
  rewrite (H eq_refl). reflexivity.
Defined.

(** X2. The info page, when no other request interferes: 404 for a
    missing target; for a file, the [info] view with the base name of the
    parameter, the joined path as absolute path, the modification time
    the tree has for it as the locale text of that date, and as size the
    text [<n/100>.<two digits> MB], where [n] is the size in units of
    1/100 MiB, rounded to the nearest; the world is left as it is. *)
Theorem info_page_reports_the_file :
  forall (cfg : Settings) (filename : jsstring) (w : World),
    others w = [] ->
    let target := Fs.resolve (requestedPath cfg filename) in
    let result := serve cfg (authorized cfg (GetInfo filename)) w in
    (Fs.lookup (fs w) target = None ->
     result = (inr (send 404 (js "File not found.")), w))
    /\ (forall mtime size,
          Fs.lookup (fs w) target = Some (Fs.FileNode mtime size) ->
          result
          = (inr (render (js "info")
                    (InfoLocals
                       (mkFileInfo (basename filename) (sizeText size)
                          (LocaleString mtime)
                          (requestedPath cfg filename)))), w)
          /\ sizeText size
             = numberToString (hundredths size / 100) ++ js "."
               ++ numberToString (hundredths size mod 100 / 10)
               ++ numberToString (hundredths size mod 10) ++ js " MB"
          /\ (100 * size - 524288 < hundredths size * 1048576
              <= 100 * size + 524288)%Z).
Proof.
  intros cfg filename w Hq. cbv zeta.
  rewrite serve_authorized, run_tryCatch, (run_getInfo cfg filename w Hq).
  split.
  - intros E. rewrite E. reflexivity.
  - intros mtime size E. rewrite E.
    split; [reflexivity|]. split; [reflexivity|].
    unfold hundredths.
    pose proof (Z.div_mod (200 * size + 1048576) 2097152 ltac:(discriminate))
      as Hdiv.
    pose proof (Z.mod_pos_bound (200 * size + 1048576) 2097152 eq_refl)
      as Hmod.
    lia.
Qed.

Lemma info_page_reports_the_file_witness :
  fst (serve Sample.cfg (authorized Sample.cfg (GetInfo (js "b.txt")))
         (quiet [ ([js "srv"], Fs.DirNode 1);
                  ([js "srv"; js "up"], Fs.DirNode 2);
                  ([js "srv"; js "up"; js "b.txt"], Fs.FileNode 20 1600000) ]
            1700000000000))
  = inr (render (js "info")
           (InfoLocals (mkFileInfo (js "b.txt") (js "1.53 MB")
                          (LocaleString 20) (js "/srv/up/b.txt")))).
Proof.
  destruct (info_page_reports_the_file Sample.cfg (js "b.txt")
              (quiet [ ([js "srv"], Fs.DirNode 1);
                       ([js "srv"; js "up"], Fs.DirNode 2);
                       ([js "srv"; js "up"; js "b.txt"],
                        Fs.FileNode 20 1600000) ]
                 1700000000000)
              eq_refl) as [_ H].
  destruct (H 20%Z 1600000%Z eq_refl) as [Hr _].
  rewrite Hr. reflexivity.
Defined.

(** X3. Once a name has been deleted by the confirming request, its
    confirmation page and its info page both answer 404 (no other request
    interfering, and the name not resolving to the root). *)
Theorem deleted_name_is_not_found :
  forall (cfg : Settings) (filename : jsstring) (w : World),
    others w = [] ->
    Fs.resolve (requestedPath cfg filename) <> [] ->
    let after :=
      snd (serve cfg (authorized cfg (PostDelete filename)) w) in
    fst (serve cfg (authorized cfg (GetDelete filename)) after)
    = inr (send 404 (js "File not found."))
    /\ fst (serve cfg (authorized cfg (GetInfo filename)) after)
       = inr (send 404 (js "File not found.")).
Proof.
  intros cfg filename w Hq Hne. cbv zeta.
  set (after := snd (serve cfg (authorized cfg (PostDelete filename)) w)).
  assert (Hq' : others after = []).
  { unfold after, serve. apply run_quiet. exact Hq. }
  assert (Hgone : Fs.exists_ (fs after)
                    (Fs.resolve (requestedPath cfg filename)) = false).
  { destruct (Fs.exists_ (fs w) (Fs.resolve (requestedPath cfg filename)))
      eqn:Hex.
    - destruct (postDelete_existing cfg filename w Hq Hex) as [Hfs _].
      fold after in Hfs. rewrite Hfs. apply exists_removed. exact Hne.
    - destruct (postDelete_missing cfg filename w Hq Hex) as [Hfs _].
      fold after in Hfs. rewrite Hfs. exact Hex. }
  split.
  - rewrite serve_authorized, run_tryCatch, run_getDelete. cbv zeta.
    rewrite (yield_quiet after Hq'), Hgone. reflexivity.
  - rewrite serve_authorized, run_tryCatch, (run_getInfo cfg filename after Hq').
    unfold Fs.exists_ in Hgone.
    destruct (Fs.lookup (fs after) (Fs.resolve (requestedPath cfg filename)));
      [discriminate|reflexivity].
Qed.

Lemma deleted_name_is_not_found_witness :
  fst (serve Sample.cfg (authorized Sample.cfg (GetDelete (js "a.txt")))
         (snd (serve Sample.cfg (authorized Sample.cfg (PostDelete (js "a.txt")))
                 Sample.world)))
  = inr (send 404 (js "File not found.")).
Proof.
  apply (deleted_name_is_not_found Sample.cfg (js "a.txt") Sample.world).
  - reflexivity.
  - discriminate.
Defined.

(** X4. The listing, the info page and the confirmation page never
    change the directory tree, whatever the parameter and the
    credentials. *)
Theorem looking_routes_leave_the_tree :
  forall (cfg : Settings) (req : Request) (w : World),
    looksOnly (route req) -> others w = [] ->
    fs (snd (serve cfg req w)) = fs w.
Proof.
  intros cfg req w Hlook Hq. unfold serve.
  apply run_readOnly; [|exact Hq].
  apply looking_routes_readOnly. exact Hlook.
Qed.

Lemma looking_routes_leave_the_tree_witness :
  fs (snd (serve Sample.cfg (authorized Sample.cfg (GetInfo (js "..")))
             Sample.world))
  = Sample.tree.
Proof.
  apply (looking_routes_leave_the_tree Sample.cfg
           (authorized Sample.cfg (GetInfo (js ".."))) Sample.world).
  - exact I.
  - reflexivity.
Defined.

(* ------------------------------------------------------------------ *)
(** ** Uploads that go through *)
(* ------------------------------------------------------------------ *)




(** An upload of parts that can be stored. *)
Lemma upload_succeeds (cfg : Settings) (parts : list Part) (w : World) :
  isAbsolute (uploadDir cfg) = true -> others w = [] ->
  storable cfg (maxFiles cfg) parts w -> fileParts parts <> [] ->
  exists w',
    serve cfg (authorized cfg (PostUpload (Multipart parts))) w
    = (inr (redirect (js "/")), w')
    /\ others w' = []
    /\ isDirectory (fs w') (Fs.resolve (uploadDir cfg))
    /\ forall path,
         Fs.lookup (fs w') path
         = heldAfter (stores cfg (clock w) (ticks w) parts) (fs w) path.
Proof.
  intros Habs Hq Hst Hsome.
  destruct (uploadParts_through cfg parts (maxFiles cfg) [] w Habs Hq Hst)
    as [files [w1 [Hgo [Hnames [_ [Hq1 [Hdir1 [Hl _]]]]]]]].
  pose proof (Hgo []) as Hrun. rewrite app_nil_r in Hrun.
  change ([] ++ files) with files in Hrun. simpl in Hrun.
  rewrite serve_authorized, run_tryCatch.
  unfold postUpload, upload, MulterMiddleware.middleware.
  rewrite !run_bind. fold (uploadParts cfg (maxFiles cfg) [] parts).
  rewrite Hrun. cbv beta iota. simpl run at 2. cbv beta iota.
  destruct files as [|f files].
  - exfalso. apply Hsome. simpl in Hnames.
    destruct (fileParts parts); [reflexivity|discriminate].
  - simpl. eexists. split; [reflexivity|]. simpl.
    split; [exact Hq1|]. split; [exact Hdir1|exact Hl].
Qed.





Lemma requestedPath_storageName (cfg : Settings) (now : Z) (p : Part) :
  isAbsolute (uploadDir cfg) = true ->
  basename (storageName now (originalname p)) = storageName now (originalname p)
  /\ Fs.resolve (requestedPath cfg (storageName now (originalname p)))
     = storagePath cfg now p.
Proof.
  intros Habs.
  assert (Hb : basename (storageName now (originalname p))
               = storageName now (originalname p)).
  { apply basename_free. apply nameChars_slashFree.
    apply storageName_nameChars. }
  split; [exact Hb|].
  rewrite (requestedPath_proper cfg _ Habs); rewrite Hb;
    [reflexivity|apply storageName_proper].
Qed.

(** X7. Round trip: after the upload of one file part that passes the
    checks (its name of the Basic Latin block), no other request
    interfering, the info page asked for under the storage name, which is
    made from the clock as read for the name, reports that name, the
    length of the part in megabytes with two decimals, the time at which
    the file was written, as the locale prints it, and the path of the
    file in [uploadDir]. *)
Theorem info_after_upload_reports_the_length :
  forall (cfg : Settings) (part : Part) (w : World),
    isAbsolute (uploadDir cfg) = true -> others w = [] ->
    isFilePart part = true -> basicLatin (originalname part) ->
    storable cfg (maxFiles cfg) [part] w ->
    let stored := storageName (clock w) (originalname part) in
    let after :=
      snd (serve cfg (authorized cfg (PostUpload (Multipart [part]))) w) in
    serve cfg (authorized cfg (GetInfo stored)) after
    = (inr (render (js "info")
              (InfoLocals
                 (mkFileInfo stored (sizeText (bytes part))
                    (LocaleString (clockNext (clock w) (ticks w)))
                    (NodePath.join (uploadDir cfg) stored)))),
       after).
Proof.
  intros cfg part w Habs Hq Hfile _ Hst. cbv zeta.
  destruct (upload_succeeds cfg [part] w Habs Hq Hst)
    as [w' [Hrun [Hq' [_ Hl]]]].
  { rewrite fileParts_cons, Hfile. discriminate. }
  rewrite Hrun. simpl snd.
  destruct (requestedPath_storageName cfg (clock w) part Habs) as [Hb Hres].
  rewrite serve_authorized, run_tryCatch, (run_getInfo cfg _ w' Hq').
  rewrite Hres, Hl, (stores_file _ _ _ _ _ Hfile). unfold heldAfter.
  simpl fold_left. unfold written. simpl fst. rewrite path_eqb_refl.
  simpl. rewrite Hb. unfold requestedPath. rewrite Hb. reflexivity.
Qed.

Lemma info_after_upload_reports_the_length_witness :
  fst (serve Sample.cfg
         (authorized Sample.cfg (GetInfo (js "1700000000000-a_b.jpg")))
         (snd (serve Sample.cfg
                 (authorized Sample.cfg
                    (PostUpload (Multipart [mkPart (js "file") (js "a b.jpg") 5])))
                 Sample.busy)))
  = inr (render (js "info")
           (InfoLocals
              (mkFileInfo (js "1700000000000-a_b.jpg") (js "0.00 MB")
                 (LocaleString 1700000000002)
                 (js "/srv/up/1700000000000-a_b.jpg")))).
Proof.
  pose proof (info_after_upload_reports_the_length Sample.cfg
                (mkPart (js "file") (js "a b.jpg") 5) Sample.busy
                eq_refl eq_refl eq_refl) as H.
  cbv zeta in H.
  assert (Hplain : basicLatin (js "a b.jpg")) by (repeat constructor).
  assert (Hst : storable Sample.cfg 2
                  [mkPart (js "file") (js "a b.jpg") 5] Sample.busy).
  { split; [exists 2%Z; reflexivity|]. split; [simpl; lia|]. split.
    - intros p [<-|[]] _. split; [reflexivity|]. split; [|simpl; lia].
      intros [_ Hout]. apply Hout. left. reflexivity.
    - intros saved m [<-|[]]. discriminate. }
  exact (f_equal fst (H Hplain Hst)).
Defined.

(* ------------------------------------------------------------------ *)
(** ** What an upload can touch *)
(* ------------------------------------------------------------------ *)

Lemma Sat_AllOps (P : forall X : Type, Op X -> Prop) {A : Type}
    (Q : A -> Prop) (p : Prog A) :
  Sat P Q p -> AllOps P p.
Proof.
  intros H. induction H as [a Ha|e|X op k Hop Hk IH]; constructor; auto.
Qed.

Lemma Sat_bind (P : forall X : Type, Op X -> Prop) {A B : Type}
    (Q1 : A -> Prop) (Q2 : B -> Prop) (p : Prog A) (f : A -> Prog B) :
  Sat P Q1 p -> (forall a, Q1 a -> Sat P Q2 (f a)) -> Sat P Q2 (bind p f).
Proof.
  intros Hp Hf. induction Hp as [a Ha|e|X op k Hop Hk IH]; simpl.
  - apply Hf. exact Ha.
  - constructor.
  - constructor; [exact Hop|exact IH].
Qed.

Lemma Sat_tryCatch (P : forall X : Type, Op X -> Prop) {A : Type}
    (Q : A -> Prop) (p : Prog A) (h : Error -> Prog A) :
  Sat P Q p -> (forall e, Sat P Q (h e)) -> Sat P Q (tryCatch p h).
Proof.
  intros Hp Hh. induction Hp as [a Ha|e|X op k Hop Hk IH]; simpl.
  - constructor. exact Ha.
  - apply Hh.
  - constructor; [exact Hop|exact IH].
Qed.

Lemma Sat_weaken (P : forall X : Type, Op X -> Prop) {A : Type}
    (Q Q' : A -> Prop) (p : Prog A) :
  (forall a, Q a -> Q' a) -> Sat P Q p -> Sat P Q' p.
Proof.
  intros Hq H. induction H as [a Ha|e|X op k Hop Hk IH]; constructor; auto.
Qed.

Lemma AllOps_Sat (P : forall X : Type, Op X -> Prop) {A : Type} (p : Prog A) :
  AllOps P p -> Sat P (fun _ => True) p.
Proof.
  intros H. induction H as [a|e|X op k Hop Hk IH]; constructor; auto.
Qed.

Lemma AllOps_weaken (P P' : forall X : Type, Op X -> Prop) {A : Type}
    (p : Prog A) :
  (forall X (op : Op X), P X op -> P' X op) -> AllOps P p -> AllOps P' p.
Proof.
  intros Hpp H. induction H as [a|e|X op k Hop Hk IH]; constructor; auto.
Qed.

Lemma readOnly_touchesUploadsOnly (cfg : Settings) (X : Type) (op : Op X) :
  readOnly X op -> touchesUploadsOnly cfg X op.
Proof. destruct op; simpl; tauto. Qed.

Lemma storage_inUploadDir (cfg : Settings) (timestamp : Z)
    (originalname : jsstring) :
  isAbsolute (uploadDir cfg) = true ->
  inUploadDir cfg
    (NodePath.join (uploadDir cfg) (storageName timestamp originalname)).
Proof.
  intros Habs. unfold inUploadDir.
  rewrite (storage_path_resolve cfg _ _ Habs). unfold Fs.isChildOf.
  destruct (Fs.resolve (uploadDir cfg) ++ [storageName timestamp originalname])
    eqn:E.
  - apply app_eq_nil in E. destruct E as [_ E]. discriminate.
  - rewrite <- E, removelast_last. apply path_eqb_refl.
Qed.

Lemma removeUploadedFiles_touches (cfg : Settings) (uploaded : list File) :
  Forall (fun f => inUploadDir cfg (file_path f)) uploaded ->
  AllOps (touchesUploadsOnly cfg)
    (MulterMiddleware.removeUploadedFiles uploaded).
Proof.
  intros H. induction H as [|f rest Hf Hrest IH]; simpl; [constructor|].
  constructor; [exact Hf|]. intros r. exact IH.
Qed.

Lemma abortWithError_touches (cfg : Settings) {A : Type} (Q : A -> Prop)
    (uploaded : list File) (err : Error) :
  Forall (fun f => inUploadDir cfg (file_path f)) uploaded ->
  Sat (touchesUploadsOnly cfg) Q
    (@MulterMiddleware.abortWithError A uploaded err).
Proof.
  intros H. unfold MulterMiddleware.abortWithError.
  apply (Sat_bind _ (fun _ => True)).
  - apply AllOps_Sat. apply removeUploadedFiles_touches. exact H.
  - intros _ _. constructor.
Qed.

Lemma fileFilter_touches (cfg : Settings) (file : Part) :
  AllOps (touchesUploadsOnly cfg) (fileFilter cfg file).
Proof.
  apply (AllOps_weaken readOnly); [apply readOnly_touchesUploadsOnly|].
  unfold fileFilter, consoleLog, consoleError. looks_only.
Qed.

(** One file part: the only write is under the storage name, and what is
    unlinked has been written by the request. *)
Lemma uploadOne_touches (cfg : Settings) (filesLeft : Z)
    (uploaded : list File) (part : Part) :
  isAbsolute (uploadDir cfg) = true ->
  Forall (fun f => inUploadDir cfg (file_path f)) uploaded ->
  Sat (touchesUploadsOnly cfg)
    (fun state => Forall (fun f => inUploadDir cfg (file_path f)) (snd state))
    (uploadOne cfg filesLeft uploaded part).
Proof.
  intros Habs Hup. unfold uploadOne, MulterMiddleware.onFile.
  apply (Sat_bind _ (fun _ => True)).
  - apply Sat_tryCatch; [|intros e; apply abortWithError_touches; exact Hup].
    unfold MulterMiddleware.wrappedFileFilter.
    destruct (_ || _); [constructor|].
    apply (Sat_bind _ (fun _ => True)).
    + apply AllOps_Sat. apply fileFilter_touches.
    + intros b _. constructor. exact I.
  - intros [left include] _. destruct include; [|constructor; exact Hup].
    apply (Sat_bind _ (fun file => inUploadDir cfg (file_path file))).
    + apply Sat_tryCatch; [|intros e; apply abortWithError_touches; exact Hup].
      unfold MulterMiddleware.handleFile, destination, filename. simpl.
      constructor; [exact I|]. intros [e|timestamp]; simpl; [constructor|].
      constructor; [apply storage_inUploadDir; exact Habs|].
      intros [e|[]]; simpl; constructor.
      simpl. apply storage_inUploadDir. exact Habs.
    + intros file Hfile.
      assert (Hup' : Forall (fun f => inUploadDir cfg (file_path f))
                       (uploaded ++ [file])).
      { apply Forall_app. split; [exact Hup|]. constructor; [exact Hfile|].
        constructor. }
      destruct (maxSize cfg <=? bytes part)%Z.
      * apply abortWithError_touches. exact Hup'.
      * constructor. exact Hup'.
Qed.

Lemma uploadParts_touches (cfg : Settings) (parts : list Part) :
  forall (filesLeft : Z) (uploaded : list File),
    isAbsolute (uploadDir cfg) = true ->
    Forall (fun f => inUploadDir cfg (file_path f)) uploaded ->
    AllOps (touchesUploadsOnly cfg) (uploadParts cfg filesLeft uploaded parts).
Proof.
  induction parts as [|part rest IH]; intros filesLeft uploaded Habs Hup;
    unfold uploadParts; simpl; [constructor|].
  destruct (truthy (originalname part)); [|apply IH; assumption].
  apply (Sat_AllOps _ (fun _ => True)).
  apply (Sat_bind _ _ _ _ _ (uploadOne_touches cfg filesLeft uploaded part Habs Hup)).
  intros state Hstate. apply AllOps_Sat. apply IH; assumption.
Qed.

Lemma upload_route_touches (cfg : Settings) (body : Body) :
  isAbsolute (uploadDir cfg) = true ->
  AllOps (touchesUploadsOnly cfg) (postUpload cfg body).
Proof.
  intros Habs. unfold postUpload, upload, MulterMiddleware.middleware.
  apply AllOps_bind.
  - destruct body; [|constructor].
    apply AllOps_bind; [|intros files; constructor].
    apply uploadParts_touches; [exact Habs|constructor].
  - intros files. apply (AllOps_weaken readOnly);
      [apply readOnly_touchesUploadsOnly|].
    unfold postUploadHandler, consoleLog, consoleError.
    destruct files as [[|f l]|]; looks_only.
Qed.

Lemma replaceEntry_keeps (t : Fs.FS) (p : Fs.Path) (n : Fs.Node)
    (e : Fs.Path * Fs.Node) :
  In e t -> fst e <> p -> In e (Fs.replaceEntry t p n).
Proof.
  intros Hin Hne. induction t as [|e0 t IH]; [destruct Hin|].
  simpl. destruct (Fs.path_eqb (fst e0) p) eqn:E.
  - destruct Hin as [->|Hin]; [|right; exact Hin].
    apply path_eqb_eq in E. contradiction.
  - destruct Hin as [->|Hin]; [left; reflexivity|right; apply IH; exact Hin].
Qed.

Lemma exec_outsideKept (cfg : Settings) (t0 : Fs.FS) (X : Type) (op : Op X)
    (w : World) :
  touchesUploadsOnly cfg X op ->
  outsideKept cfg t0 (fs w) -> outsideKept cfg t0 (fs (snd (exec op w))).
Proof.
  intros Hop Hk. destruct op; simpl in *; try exact Hk.
  - destruct Hop.
  - destruct (Fs.unlink (fs w) (Fs.resolve p)) as [code|t'] eqn:E;
      [exact Hk|].
    apply unlink_succeeds in E. subst t'. simpl.
    intros e He Hout. apply filter_In. split; [apply Hk; assumption|].
    apply negb_true_iff. apply path_eqb_neq. intros Heq.
    unfold inUploadDir in Hop. rewrite <- Heq, Hout in Hop. discriminate.
  - destruct (Fs.writeFile (fs w) (Fs.resolve p) (clock w) size)
      as [code|t'] eqn:E; [exact Hk|].
    simpl. intros e He Hout.
    assert (Hne : fst e <> Fs.resolve p).
    { intros Heq. unfold inUploadDir in Hop.
      rewrite <- Heq, Hout in Hop. discriminate. }
    unfold Fs.writeFile in E.
    destruct (Fs.resolve p) as [|s q] eqn:Ep; [discriminate|].
    destruct (Fs.lookup (fs w) (removelast (s :: q))) as [[?|?]|];
      try discriminate.
    destruct (Fs.lookup (fs w) (s :: q)) as [[?|?]|]; try discriminate;
      inversion E; subst t'.
    + apply replaceEntry_keeps; [apply Hk; assumption|exact Hne].
    + apply in_or_app. left. apply Hk; assumption.
Qed.

(** X8. An upload (accepted or refused, with good or bad credentials)
    changes nothing outside the entries directly in [uploadDir]: every
    other entry of the tree, in other directories or deeper below
    [uploadDir], is there afterward as it was. *)
Theorem upload_touches_only_the_upload_directory :
  forall (cfg : Settings) (req : Request) (body : Body) (w : World),
    isAbsolute (uploadDir cfg) = true ->
    route req = PostUpload body ->
    others w = [] ->
    forall e, In e (fs w) ->
      Fs.isChildOf (Fs.resolve (uploadDir cfg)) (fst e) = false ->
      In e (fs (snd (serve cfg req w))).
Proof.
  intros cfg req body w Habs Hroute Hq.
  assert (Hops : AllOps (touchesUploadsOnly cfg) (app cfg req)).
  { unfold app. apply AllOps_tryCatch.
    - apply AllOps_bind;
        [unfold beforeRoutes; destruct (refused req); constructor|intros _].
      unfold dispatch, behindAuth. rewrite Hroute.
      destruct (auth cfg req); [constructor|].
      apply upload_route_touches. exact Habs.
    - intros err. apply (AllOps_weaken readOnly);
        [apply readOnly_touchesUploadsOnly|].
      unfold errorHandler, consoleError. looks_only. }
  assert (H : holdsIn (outsideKept cfg (fs w)) (snd (serve cfg req w))).
  { unfold serve.
    apply (run_holdsIn (outsideKept cfg (fs w)) (touchesUploadsOnly cfg)).
    - intros X op w0 Hop [Hk Ho]. split.
      + apply exec_outsideKept; assumption.
      + rewrite exec_others. exact Ho.
    - exact Hops.
    - split; [intros e He _; exact He|]. rewrite Hq. constructor. }
  exact (proj1 H).
Qed.

Lemma upload_touches_only_the_upload_directory_witness :
  In ([js "srv"; js "secret.key"], Fs.FileNode 3 32)
    (fs (snd (serve Sample.cfg
                (authorized Sample.cfg (PostUpload (Multipart Sample.photos)))
                Sample.world))).
Proof.
  apply (upload_touches_only_the_upload_directory Sample.cfg
           (authorized Sample.cfg (PostUpload (Multipart Sample.photos)))
           (Multipart Sample.photos) Sample.world);
    try reflexivity.
  simpl. do 5 right. left. reflexivity.
Defined.

(* ------------------------------------------------------------------ *)
(** ** The listing after an upload *)
(* ------------------------------------------------------------------ *)








(* ------------------------------------------------------------------ *)
(** ** The generated password *)
(* ------------------------------------------------------------------ *)

Lemma chars_passwordChars : forall c, In c chars -> isPasswordChar c = true.
Proof.
  assert (H : forallb isPasswordChar chars = true) by reflexivity.
  rewrite forallb_forall in H. exact H.
Qed.

Lemma charAt_inside (s : jsstring) (i : Z) :
  (0 <= i < Z.of_nat (List.length s))%Z ->
  exists c, charAt s i = [c] /\ In c s.
Proof.
  intros Hi. unfold charAt.
  destruct (i <? 0)%Z eqn:E; [apply Z.ltb_lt in E; lia|].
  destruct (nth_error s (Z.to_nat i)) as [c|] eqn:En.
  - exists c. split; [reflexivity|]. apply (nth_error_In _ _ En).
  - apply nth_error_None in En. lia.
Qed.

Lemma charAt_outside (s : jsstring) (i : Z) :
  (i < 0 \/ Z.of_nat (List.length s) <= i)%Z -> charAt s i = [].
Proof.
  intros Hi. unfold charAt.
  destruct (i <? 0)%Z eqn:E; [reflexivity|]. apply Z.ltb_ge in E.
  destruct (nth_error s (Z.to_nat i)) as [c|] eqn:En; [|reflexivity].
  assert (Hlt : (Z.to_nat i < List.length s)%nat).
  { apply nth_error_Some. rewrite En. discriminate. }
  lia.
Qed.

(** Rounding moves an integer below 2^59 by 32 at most. *)
Lemma roundToDouble_near (m : Z) :
  (0 <= m < 2 ^ 59)%Z -> (0 <= roundToDouble m <= m + 32)%Z.
Proof.
  intros [H0 H1]. unfold roundToDouble.
  destruct (m <? 2 ^ 53)%Z eqn:E; [lia|]. apply Z.ltb_ge in E.
  assert (Hlog : (53 <= Z.log2 m <= 58)%Z).
  { split; [apply Z.log2_le_pow2; lia|].
    assert (Z.log2 m < 59)%Z by (apply Z.log2_lt_pow2; lia). lia. }
  cbv zeta. set (shift := (Z.log2 m - 52)%Z).
  assert (Hs : (1 <= shift <= 6)%Z) by (unfold shift; lia).
  set (unit := (2 ^ shift)%Z). set (half := (2 ^ (shift - 1))%Z).
  assert (Hunit : unit = (2 * half)%Z).
  { unfold unit, half. replace shift with (Z.succ (shift - 1)) at 1 by lia.
    rewrite Z.pow_succ_r by lia. reflexivity. }
  assert (Hhalf : (1 <= half <= 32)%Z).
  { unfold half. split.
    - apply (Z.pow_le_mono_r 2 0 (shift - 1)); lia.
    - apply (Z.pow_le_mono_r 2 (shift - 1) 5); lia. }
  pose proof (Z.div_mod m unit ltac:(lia)) as Hdm.
  pose proof (Z.mod_pos_bound m unit ltac:(lia)) as Hr.
  assert (Hq : (0 <= m / unit)%Z) by (apply Z.div_pos; lia).
  destruct ((half <? m mod unit)%Z
            || ((m mod unit =? half)%Z && Z.odd (m / unit))) eqn:Eup.
  - assert (Hup : (half <= m mod unit)%Z).
    { apply orb_true_iff in Eup. destruct Eup as [Eup|Eup].
      - apply Z.ltb_lt in Eup. lia.
      - apply andb_true_iff in Eup. destruct Eup as [Eup _].
        apply Z.eqb_eq in Eup. lia. }
    nia.
  - nia.
Qed.

(** The index of a draw is an index of [chars], also when the product
    is rounded up. *)
Lemma randomIndex_inside (x : Draw) :
  isDraw x -> (0 <= randomIndex x 36 < 36)%Z.
Proof.
  intros [[H0 H1] [H2 [H3 H4]]]. unfold randomIndex.
  assert (Hpow : (0 < 2 ^ scale x)%Z) by (apply Z.pow_pos_nonneg; lia).
  destruct (roundToDouble_near (mantissa x * 36)) as [Hr0 Hr1]; [lia|].
  split.
  - apply Z.div_pos; lia.
  - apply Z.div_lt_upper_bound; lia.
Qed.

Lemma passwordLoop_step (random : nat -> Draw) (i turns : nat)
    (result : jsstring) :
  passwordLoop random i (S turns) result
  = passwordLoop random (S i) turns
      (result ++ charAt chars (randomIndex (random i) 36)).
Proof. reflexivity. Qed.

Lemma passwordLoop_spec (random : nat -> Draw) :
  (forall i, isDraw (random i)) ->
  forall (turns i : nat) (result : jsstring),
    List.length (passwordLoop random i turns result)
    = (List.length result + turns)%nat
    /\ (Forall (fun c => isPasswordChar c = true) result ->
        Forall (fun c => isPasswordChar c = true)
          (passwordLoop random i turns result)).
Proof.
  intros Hr. induction turns as [|turns IH]; intros i result.
  - simpl. split; [lia|tauto].
  - rewrite passwordLoop_step.
    destruct (charAt_inside chars (randomIndex (random i) 36))
      as [c [Hc Hin]].
    { apply randomIndex_inside. apply Hr. }
    rewrite Hc. destruct (IH (S i) (result ++ [c])) as [Hlen Hall].
    split.
    + rewrite Hlen, length_app. simpl. lia.
    + intros Hres. apply Hall. apply Forall_app. split; [exact Hres|].
      constructor; [apply chars_passwordChars; exact Hin|constructor].
Qed.

(** X10. When every draw of [Math.random()] is a double from 0 up to, not
    including, 1, the generated password has exactly the asked number of
    units (none for a negative number), each a lower-case letter or a
    digit, the index of each being the floor of the product as the double
    it is rounded to. When the pass of the command line is a string, the
    pass the server checks is that string unless it is the word
    [password], in which case it is the generated one of 8 units; with
    settings, [auth] on the command line is [auth] on the settings. When
    minimist has made a Number of the pass (digits only) or of the name,
    or [true], no request gets past [auth]. *)
Theorem generated_password_is_lowercase_alphanumeric :
  forall (random : nat -> Draw) (length : Z),
    (forall i, isDraw (random i)) ->
    let generated := generateSimpleRandomPassword random 8 in
    List.length (generateSimpleRandomPassword random length) = Z.to_nat length
    /\ Forall (fun c => isPasswordChar c = true)
         (generateSimpleRandomPassword random length)
    /\ (forall (args : Args) (cwd : jsstring) (cfg : Settings),
          configure args cwd generated = Some cfg ->
          (forall req, authByArgs args generated req = auth cfg req)
          /\ exists pass,
               arg_password args = StringArg pass
               /\ (pass <> js "password" -> password cfg = pass)
               /\ (pass = js "password" ->
                   password cfg = generated
                   /\ List.length (password cfg) = 8%nat
                   /\ Forall (fun c => isPasswordChar c = true)
                        (password cfg)))
    /\ (forall (args : Args) (req : Request),
          (forall text, arg_password args <> StringArg text)
          \/ (forall text, arg_user args <> StringArg text) ->
          authByArgs args generated req = Some unauthorized).
Proof.
  intros random length Hr.
  assert (Hgen : forall n,
             List.length (generateSimpleRandomPassword random n) = Z.to_nat n
             /\ Forall (fun c => isPasswordChar c = true)
                  (generateSimpleRandomPassword random n)).
  { intros n. unfold generateSimpleRandomPassword.
    destruct (passwordLoop_spec random Hr (Z.to_nat n) 0 []) as [Hlen Hall].
    split; [exact Hlen|apply Hall; constructor]. }
  cbv zeta. split; [apply Hgen|]. split; [apply Hgen|]. split.
  - intros args cwd cfg Hcfg. unfold configure in Hcfg.
    destruct (arg_user args) as [user| |] eqn:Euser; try discriminate.
    destruct (arg_password args) as [pass| |] eqn:Epass; try discriminate.
    destruct (arg_dir args) as [dir| |]; try discriminate.
    destruct (arg_extensions args) as [extensions| |]; try discriminate.
    inversion Hcfg; subst cfg; clear Hcfg. split.
    + intros req. unfold authByArgs, auth, passwordChecked.
      rewrite Euser, Epass. reflexivity.
    + exists pass. split; [reflexivity|]. simpl password. split.
      * intros Hne. rewrite (streq_neq _ _ Hne). reflexivity.
      * intros ->. rewrite streq_refl. split; [reflexivity|apply (Hgen 8%Z)].
  - intros args req Hno. unfold authByArgs, passwordChecked.
    destruct (basicAuth req) as [[name pass]|]; [|reflexivity].
    destruct Hno as [Hno|Hno].
    + destruct (arg_password args) as [text| |];
        [exfalso; exact (Hno text eq_refl)| |];
        simpl; rewrite orb_true_r; reflexivity.
    + destruct (arg_user args) as [text| |];
        [exfalso; exact (Hno text eq_refl)| |]; reflexivity.
Qed.

Lemma generated_password_is_lowercase_alphanumeric_witness :
  let random := fun _ : nat => mkDraw 8006399337547548 55 in
  generateSimpleRandomPassword random 8 = js "iiiiiiii"
  /\ Forall (fun c => isPasswordChar c = true)
       (generateSimpleRandomPassword random 8)
  /\ authByArgs
       (mkArgs 58080 (StringArg (js "admin")) (NumberArg 12345)
          (StringArg (js "./")) 10 100 (StringArg (js "")))
       (generateSimpleRandomPassword random 8)
       (mkRequest GetIndex (Some (js "admin", js "12345")) None)
     = Some unauthorized.
Proof.
  cbv zeta. split; [reflexivity|].
  destruct (generated_password_is_lowercase_alphanumeric
              (fun _ : nat => mkDraw 8006399337547548 55) 8)
    as [_ [Hchars [_ Hlocked]]].
  - intros _. unfold isDraw. simpl. lia.
  - split; [exact Hchars|]. apply Hlocked. left. intros text. discriminate.
Defined.

(* ------------------------------------------------------------------ *)
(** ** The address in the request log *)
(* ------------------------------------------------------------------ *)

Lemma startsWith_app (p s : jsstring) : startsWith (p ++ s) p = true.
Proof.
  induction p as [|c p IH]; simpl; [destruct s; reflexivity|].
  unfold code_eqb. rewrite N.eqb_refl. exact IH.
Qed.

Lemma stringIncludes_app (a needle b : jsstring) :
  stringIncludes (a ++ needle ++ b) needle = true.
Proof.
  induction a as [|c a IH].
  - simpl app. pose proof (startsWith_app needle b) as H.
    destruct (needle ++ b); simpl; simpl in H; rewrite H; reflexivity.
  - simpl. rewrite IH. apply orb_true_r.
Qed.

(** Gluing the pieces of a split gives the string back. *)
Lemma join_split (sep : code) (s : jsstring) :
  JS.join [sep] (split sep s) = s.
Proof.
  induction s as [|c s IH]; [reflexivity|]. simpl split.
  destruct (code_eqb c sep) eqn:E.
  - apply N.eqb_eq in E. subst c.
    destruct (split sep s) as [|piece rest] eqn:Es;
      [exfalso; exact (split_not_nil sep s Es)|].
    change (JS.join [sep] ([] :: piece :: rest))
      with (sep :: JS.join [sep] (piece :: rest)).
    rewrite IH. reflexivity.
  - destruct (split sep s) as [|piece rest] eqn:Es;
      [exfalso; exact (split_not_nil sep s Es)|].
    rewrite <- IH. destruct rest; reflexivity.
Qed.

Lemma join_last (sep : jsstring) (pieces : list jsstring) :
  pieces <> [] ->
  exists before, JS.join sep pieces = before ++ last pieces [].
Proof.
  induction pieces as [|p rest IH]; intros Hne; [contradiction|].
  destruct rest as [|q rest'].
  - exists []. reflexivity.
  - destruct IH as [before Hb]; [discriminate|].
    exists (p ++ sep ++ before).
    change (JS.join sep (p :: q :: rest'))
      with (p ++ sep ++ JS.join sep (q :: rest')).
    rewrite Hb, <- !app_assoc. reflexivity.
Qed.

Lemma last_In {A : Type} (l : list A) (d : A) : l <> [] -> In (last l d) l.
Proof.
  induction l as [|a l IH]; intros Hne; [contradiction|].
  destruct l as [|b l']; [left; reflexivity|].
  right. apply IH. discriminate.
Qed.

(** X11. The address of the request log: an address without [::ffff:] is
    logged as it is; one with [::ffff:] is cut to what follows its last
    colon, so the logged text is an end of the address and holds no
    colon; in particular an IPv4 address mapped into IPv6,
    [::ffff:a.b.c.d], is logged as [a.b.c.d]. *)
Theorem logged_address_drops_the_mapped_prefix :
  forall address : jsstring,
    (stringIncludes address (js "::ffff:") = false -> ipv4 address = address)
    /\ (stringIncludes address (js "::ffff:") = true ->
        ~ In COLON (ipv4 address)
        /\ exists before, address = before ++ ipv4 address)
    /\ (forall before v4 : jsstring,
          ~ In COLON v4 -> ipv4 (before ++ js "::ffff:" ++ v4) = v4).
Proof.
  intros address. split; [|split].
  - intros H. unfold ipv4. rewrite H. reflexivity.
  - intros H. unfold ipv4. rewrite H. split.
    + pose proof (split_pieces_free COLON address) as Hfree.
      rewrite Forall_forall in Hfree. apply Hfree.
      apply last_In. apply split_not_nil.
    + destruct (join_last [COLON] (split COLON address)
                  (split_not_nil COLON address)) as [before Hb].
      exists before. rewrite <- Hb. symmetry. apply join_split.
  - intros before v4 Hfree. unfold ipv4.
    rewrite stringIncludes_app.
    change (before ++ js "::ffff:" ++ v4)
      with (before ++ js "::ffff" ++ COLON :: v4).
    rewrite app_assoc, split_app_sep, (split_free COLON v4 Hfree).
    apply last_last.
Qed.

Lemma logged_address_drops_the_mapped_prefix_witness :
  ipv4 (clientIP None (js "::ffff:192.168.1.20")) = js "192.168.1.20".
Proof.
  destruct (logged_address_drops_the_mapped_prefix
              (js "::ffff:192.168.1.20")) as [_ [_ H]].
  apply (H [] (js "192.168.1.20")).
  simpl. intuition discriminate.
Defined.

(* ------------------------------------------------------------------ *)
(** ** The addresses of the banner *)
(* ------------------------------------------------------------------ *)

Lemma setAdd_In (s : list jsstring) (x y : jsstring) :
  In y (setAdd s x) <-> In y s \/ y = x.
Proof.
  unfold setAdd. destruct (includes s x) eqn:E.
  - apply includes_In in E. split; [tauto|]. intros [H| ->]; assumption.
  - rewrite in_app_iff. simpl. intuition congruence.
Qed.

Lemma setAdd_NoDup (s : list jsstring) (x : jsstring) :
  NoDup s -> NoDup (setAdd s x).
Proof.
  intros H. unfold setAdd. destruct (includes s x) eqn:E; [exact H|].
  apply NoDup_app; [exact H|repeat constructor; intros []|].
  intros y Hy [<-|[]]. apply includes_In in Hy. rewrite Hy in E. discriminate.
Qed.

Lemma setAdd_extends (s : list jsstring) (x : jsstring) :
  exists more, setAdd s x = s ++ more.
Proof.
  unfold setAdd. destruct (includes s x).
  - exists []. rewrite app_nil_r. reflexivity.
  - exists [x]. reflexivity.
Qed.

Lemma addGroup_spec (port : Z) (group : list Iface) :
  forall s : list jsstring,
    let s' := fold_left
                (fun acc iface =>
                   if streq (family iface) (js "IPv4")
                   then setAdd acc (url (address iface) port)
                   else acc)
                group s in
    (NoDup s -> NoDup s')
    /\ (exists more, s' = s ++ more)
    /\ forall x, In x s' <->
                 In x s
                 \/ exists iface, In iface group
                                  /\ family iface = js "IPv4"
                                  /\ x = url (address iface) port.
Proof.
  induction group as [|iface group IH]; intros s; cbv zeta.
  - simpl. split; [tauto|]. split; [exists []; symmetry; apply app_nil_r|].
    intros x. split; [tauto|]. intros [H|[i [[] _]]]. exact H.
  - simpl fold_left.
    destruct (streq (family iface) (js "IPv4")) eqn:E.
    + apply streq_eq in E.
      destruct (IH (setAdd s (url (address iface) port))) as [Hnd [Hext Hin]].
      cbv zeta in Hnd, Hext, Hin. split; [|split].
      * intros H. apply Hnd. apply setAdd_NoDup. exact H.
      * destruct Hext as [more Hm].
        destruct (setAdd_extends s (url (address iface) port)) as [m0 Hm0].
        exists (m0 ++ more). rewrite Hm, Hm0, app_assoc. reflexivity.
      * intros x. rewrite Hin, setAdd_In. split.
        -- intros [[H| ->]|[i [Hi [Hf Hx]]]].
           ++ left. exact H.
           ++ right. exists iface. split; [left; reflexivity|]. auto.
           ++ right. exists i. split; [right; exact Hi|]. auto.
        -- intros [H|[i [[<-|Hi] [Hf Hx]]]].
           ++ left. left. exact H.
           ++ left. right. exact Hx.
           ++ right. exists i. auto.
    + destruct (IH s) as [Hnd [Hext Hin]]. cbv zeta in Hnd, Hext, Hin.
      split; [exact Hnd|]. split; [exact Hext|].
      intros x. rewrite Hin. split.
      * intros [H|[i [Hi [Hf Hx]]]]; [left; exact H|].
        right. exists i. split; [right; exact Hi|]. auto.
      * intros [H|[i [[<-|Hi] [Hf Hx]]]]; [left; exact H| |].
        -- rewrite Hf, streq_refl in E. discriminate.
        -- right. exists i. auto.
Qed.

Lemma addGroups_spec (port : Z) (groups : list (list Iface)) :
  forall s : list jsstring,
    let s' := fold_left
                (fun acc interfaces =>
                   fold_left
                     (fun acc' iface =>
                        if streq (family iface) (js "IPv4")
                        then setAdd acc' (url (address iface) port)
                        else acc')
                     interfaces acc)
                groups s in
    (NoDup s -> NoDup s')
    /\ (exists more, s' = s ++ more)
    /\ forall x, In x s' <->
                 In x s
                 \/ exists group iface,
                      In group groups /\ In iface group
                      /\ family iface = js "IPv4"
                      /\ x = url (address iface) port.
Proof.
  induction groups as [|group groups IH]; intros s; cbv zeta.
  - simpl. split; [tauto|]. split; [exists []; symmetry; apply app_nil_r|].
    intros x. split; [tauto|]. intros [H|[g [i [[] _]]]]. exact H.
  - simpl fold_left.
    destruct (addGroup_spec port group s) as [Hnd1 [[m1 Hext1] Hin1]].
    cbv zeta in Hnd1, Hext1, Hin1.
    set (s1 := fold_left _ group s) in *.
    destruct (IH s1) as [Hnd [[more Hext] Hin]]. cbv zeta in Hnd, Hext, Hin.
    split; [|split].
    + intros H. apply Hnd. apply Hnd1. exact H.
    + exists (m1 ++ more). rewrite Hext, Hext1, app_assoc. reflexivity.
    + intros x. rewrite Hin, Hin1. split.
      * intros [[H|[i [Hi [Hf Hx]]]]|[g [i [Hg [Hi [Hf Hx]]]]]].
        -- left. exact H.
        -- right. exists group, i. split; [left; reflexivity|]. auto.
        -- right. exists g, i. split; [right; exact Hg|]. auto.
      * intros [H|[g [i [[<-|Hg] [Hi [Hf Hx]]]]]].
        -- left. left. exact H.
        -- left. right. exists i. auto.
        -- right. exists g, i. auto.
Qed.

(** X12. The addresses of the banner: no address twice, [localhost] and
    [127.0.0.1] first, and besides these two exactly the addresses of the
    interfaces whose family is [IPv4], each under the port. *)
Theorem banner_addresses_are_unique :
  forall (port : Z) (networkInterfaces : list (list Iface)),
    let printed := uniqueAddresses port networkInterfaces in
    NoDup printed
    /\ (exists more,
          printed
          = url (js "localhost") port :: url (js "127.0.0.1") port :: more)
    /\ forall x,
         In x printed <->
         x = url (js "localhost") port
         \/ x = url (js "127.0.0.1") port
         \/ exists group iface,
              In group networkInterfaces /\ In iface group
              /\ family iface = js "IPv4"
              /\ x = url (address iface) port.
Proof.
  intros port networkInterfaces. cbv zeta. unfold uniqueAddresses.
  assert (Hlocal : setAdd (setAdd [] (url (js "localhost") port))
                     (url (js "127.0.0.1") port)
                   = [url (js "localhost") port; url (js "127.0.0.1") port]).
  { reflexivity. }
  cbv zeta. rewrite Hlocal.
  destruct (addGroups_spec port networkInterfaces
              [url (js "localhost") port; url (js "127.0.0.1") port])
    as [Hnd [[more Hext] Hin]]. cbv zeta in Hnd, Hext, Hin.
  split; [|split].
  - apply Hnd. constructor.
    + intros [H|[]]. discriminate H.
    + constructor; [intros []|constructor].
  - exists more. rewrite Hext. reflexivity.
  - intros x. rewrite Hin. simpl In. intuition.
Qed.

(* ------------------------------------------------------------------ *)
(** ** The listing, complete and in order; the listing without directory *)
(* ------------------------------------------------------------------ *)

Lemma sample_tree_wellFormed : wellFormedTree Sample.tree.
Proof.
  intros e He. simpl in He.
  repeat (destruct He as [<-|He];
          [repeat constructor; intros H; simpl in H;
           repeat (destruct H as [H|H]; [discriminate|]); exact H|]).
  destruct He.
Qed.

(** X13. The listing when no other request interferes: with [uploadDir]
    an existing directory, [GET /] shows each entry directly in
    [uploadDir] once and nothing else, most recent first, entries of equal
    modification time in the order of the enumeration; the world is left
    as it is. *)
Theorem quiet_listing_shows_every_entry_newest_first :
  forall (cfg : Settings) (w : World),
    isAbsolute (uploadDir cfg) = true -> others w = [] ->
    wellFormedTree (fs w) ->
    isDirectory (fs w) (Fs.resolve (uploadDir cfg)) ->
    exists shown : list Detail,
      serve cfg (authorized cfg GetIndex) w
      = (inr (render (js "index") (IndexLocals (map name shown))), w)
      /\ Permutation shown (listed cfg (fs w))
      /\ StronglySorted newerFirst shown
      /\ forall k, filter (fun d => (time d =? k)%Z) shown
                   = filter (fun d => (time d =? k)%Z) (listed cfg (fs w)).
Proof.
  intros cfg w Habs Hq Hwf Hdir.
  exists (sort byTimeDescending (listed cfg (fs w))).
  split; [exact (listing_when_quiet cfg w Habs Hq Hwf Hdir)|].
  split; [apply sort_permutation|].
  split; [apply sort_newerFirst|].
  intros k. apply sort_stable.
Qed.

Lemma quiet_listing_shows_every_entry_newest_first_witness :
  exists shown : list Detail,
    serve Sample.cfg (authorized Sample.cfg GetIndex) Sample.world
    = (inr (render (js "index") (IndexLocals (map name shown))), Sample.world)
    /\ Permutation shown (listed Sample.cfg Sample.tree)
    /\ StronglySorted newerFirst shown
    /\ forall k, filter (fun d => (time d =? k)%Z) shown
                 = filter (fun d => (time d =? k)%Z)
                     (listed Sample.cfg Sample.tree).
Proof.
  apply (quiet_listing_shows_every_entry_newest_first Sample.cfg Sample.world).
  - reflexivity.
  - reflexivity.
  - exact sample_tree_wellFormed.
  - exists 2%Z. reflexivity.
Defined.

Lemma run_readDir_fails (cfg : Settings) (w : World) :
  ~ isDirectory (fs (yield w)) (Fs.resolve (uploadDir cfg)) ->
  run (call (ReadDir (uploadDir cfg))) w
  = (inl (SystemError
            (match Fs.lookup (fs (yield w)) (Fs.resolve (uploadDir cfg)) with
             | Some _ => Fs.ENOTDIR
             | None => Fs.ENOENT
             end) (js "scandir") (uploadDir cfg)), yield w).
Proof.
  intros Hno. simpl. unfold Fs.readdir.
  destruct (Fs.lookup (fs (yield w)) (Fs.resolve (uploadDir cfg)))
    as [[m s|m]|] eqn:E; try reflexivity.
  exfalso. apply Hno. exists m. exact E.
Qed.

(** X14. The listing without its directory: when [uploadDir] is not a
    directory at the time it is read, [GET /] answers 500 with
    [Internal Server Error], changes nothing in the tree, and calls
    [console.error] with [Error reading files:] and the error object of
    the read, [ENOTDIR] when a file is in the place of the directory and
    [ENOENT] when nothing is. This is what follows the confirmed delete
    of [.]: the directory is gone, and is not made again. *)
Theorem listing_without_directory_is_500 :
  forall (cfg : Settings) (w : World),
    let result := serve cfg (authorized cfg GetIndex) w in
    (~ isDirectory (fs (yield w)) (Fs.resolve (uploadDir cfg)) ->
     fst result = inr (send 500 (js "Internal Server Error"))
     /\ fs (snd result) = fs (yield w)
     /\ console (snd result)
        = console w
          ++ [(ERROR,
               [Str (js "Error reading files:");
                Err (SystemError
                       (match Fs.lookup (fs (yield w))
                                (Fs.resolve (uploadDir cfg)) with
                        | Some _ => Fs.ENOTDIR
                        | None => Fs.ENOENT
                        end) (js "scandir") (uploadDir cfg))])])
    /\ (isAbsolute (uploadDir cfg) = true -> others w = [] ->
        Fs.resolve (uploadDir cfg) <> [] ->
        let deleted :=
          snd (serve cfg (authorized cfg (PostDelete (js "."))) w) in
        fst (serve cfg (authorized cfg GetIndex) deleted)
        = inr (send 500 (js "Internal Server Error"))).
Proof.
  intros cfg w. cbv zeta.
  assert (Hfail : forall w0 : World,
            ~ isDirectory (fs (yield w0)) (Fs.resolve (uploadDir cfg)) ->
            serve cfg (authorized cfg GetIndex) w0
            = (inr (send 500 (js "Internal Server Error")),
               logged (yield w0) ERROR
                 [Str (js "Error reading files:");
                  Err (SystemError
                         (match Fs.lookup (fs (yield w0))
                                  (Fs.resolve (uploadDir cfg)) with
                          | Some _ => Fs.ENOTDIR
                          | None => Fs.ENOENT
                          end) (js "scandir") (uploadDir cfg))])).
  { intros w0 Hno. rewrite serve_authorized, run_tryCatch. unfold getIndex.
    rewrite run_tryCatch, run_bind, (run_readDir_fails cfg w0 Hno).
    reflexivity. }
  split.
  - intros Hno. rewrite (Hfail w Hno).
    split; [reflexivity|]. split; [reflexivity|].
    simpl. destruct w as [t c l o k]. destruct o; reflexivity.
  - intros Habs Hq Hne.
    set (deleted := snd (serve cfg (authorized cfg (PostDelete (js "."))) w)).
    assert (Hgone : ~ isDirectory (fs (yield deleted))
                      (Fs.resolve (uploadDir cfg))).
    { assert (Hq' : others deleted = []).
      { unfold deleted. rewrite serve_postDelete. apply run_quiet. exact Hq. }
      rewrite (yield_quiet deleted Hq').
      assert (Htarget : Fs.resolve (requestedPath cfg (js "."))
                        = Fs.resolve (uploadDir cfg)).
      { apply requestedPath_dot; [exact Habs|right; reflexivity]. }
      destruct (Fs.exists_ (fs w) (Fs.resolve (requestedPath cfg (js "."))))
        eqn:Hex.
      - destruct (postDelete_existing cfg (js ".") w Hq Hex) as [Hfs _].
        fold deleted in Hfs. rewrite Hfs, Htarget. intros [m Hm].
        pose proof (exists_removed (fs w) _ Hne) as Hrm.
        unfold Fs.exists_ in Hrm. rewrite Hm in Hrm. discriminate.
      - destruct (postDelete_missing cfg (js ".") w Hq Hex) as [Hfs _].
        fold deleted in Hfs. rewrite Hfs. intros [m Hm].
        rewrite Htarget in Hex. unfold Fs.exists_ in Hex.
        rewrite Hm in Hex. discriminate. }
    rewrite (Hfail deleted Hgone). reflexivity.
Qed.

Lemma listing_without_directory_is_500_witness :
  fst (serve Sample.cfg (authorized Sample.cfg GetIndex)
         (snd (serve Sample.cfg (authorized Sample.cfg (PostDelete (js ".")))
                 Sample.world)))
  = inr (send 500 (js "Internal Server Error")).
Proof.
  destruct (listing_without_directory_is_500 Sample.cfg Sample.world)
    as [_ H].
  apply H; [reflexivity|reflexivity|discriminate].
Defined.

(* ------------------------------------------------------------------ *)
(** ** What a confirmed delete leaves alone *)
(* ------------------------------------------------------------------ *)

Lemma isPrefix_trans (p q r : Fs.Path) :
  Fs.isPrefix p q = true -> Fs.isPrefix q r = true -> Fs.isPrefix p r = true.
Proof.
  revert q r. induction p as [|a p IH]; intros q r Hpq Hqr; [reflexivity|].
  destruct q as [|b q]; [discriminate|].
  destruct r as [|c r]; [discriminate|].
  simpl in *. apply andb_true_iff in Hpq. apply andb_true_iff in Hqr.
  destruct Hpq as [Hab Hpq]. destruct Hqr as [Hbc Hqr].
  apply streq_eq in Hab. apply streq_eq in Hbc. subst.
  rewrite streq_refl. exact (IH _ _ Hpq Hqr).
Qed.

Lemma lookup_remove_other (t : Fs.FS) (target p : Fs.Path) :
  Fs.isPrefix target p = false ->
  Fs.lookup (Fs.remove t target) p = Fs.lookup t p.
Proof.
  intros Hout. unfold Fs.lookup. destruct p as [|s p']; [reflexivity|].
  assert (E : find (fun e => Fs.path_eqb (fst e) (s :: p')) (Fs.remove t target)
              = find (fun e => Fs.path_eqb (fst e) (s :: p')) t).
  { unfold Fs.remove. induction t as [|e t IH]; [reflexivity|]. simpl.
    destruct (Fs.isPrefix target (fst e)) eqn:Ep; simpl.
    - destruct (Fs.path_eqb (fst e) (s :: p')) eqn:Eq; [|exact IH].
      apply path_eqb_eq in Eq. rewrite Eq in Ep. rewrite Ep in Hout.
      discriminate.
    - destruct (Fs.path_eqb (fst e) (s :: p')); [reflexivity|exact IH]. }
  rewrite E. reflexivity.
Qed.

(** X15. What a confirmed delete leaves alone: when no other request
    interferes and the base name of the parameter is not [..], every
    location outside [uploadDir] holds what it held; when the base name
    is an entry name (not empty, [.] or [..]), so does every location
    that is not the entry [uploadDir/<base name>] or below it. *)
Theorem confirmed_delete_stays_inside_uploadDir :
  forall (cfg : Settings) (filename : jsstring) (w : World),
    isAbsolute (uploadDir cfg) = true -> others w = [] ->
    basename filename <> [DOT; DOT] ->
    let after :=
      fs (snd (serve cfg (authorized cfg (PostDelete filename)) w)) in
    (forall p, Fs.isPrefix (Fs.resolve (uploadDir cfg)) p = false ->
               Fs.lookup after p = Fs.lookup (fs w) p)
    /\ (properSegment (basename filename) = true ->
        forall p,
          Fs.isPrefix (Fs.resolve (uploadDir cfg) ++ [basename filename]) p
          = false ->
          Fs.lookup after p = Fs.lookup (fs w) p).
Proof.
  intros cfg filename w Habs Hq Hne. cbv zeta.
  assert (Hother : forall p,
            Fs.isPrefix (Fs.resolve (requestedPath cfg filename)) p = false ->
            Fs.lookup
              (fs (snd (serve cfg (authorized cfg (PostDelete filename)) w))) p
            = Fs.lookup (fs w) p).
  { intros p Hp.
    destruct (Fs.exists_ (fs w) (Fs.resolve (requestedPath cfg filename)))
      eqn:Hex.
    - destruct (postDelete_existing cfg filename w Hq Hex) as [Hfs _].
      rewrite Hfs. apply lookup_remove_other. exact Hp.
    - destruct (postDelete_missing cfg filename w Hq Hex) as [Hfs _].
      rewrite Hfs. reflexivity. }
  split.
  - intros p Hp. apply Hother.
    destruct (Fs.isPrefix (Fs.resolve (requestedPath cfg filename)) p) eqn:E;
      [|reflexivity].
    pose proof (requestedPath_within cfg filename Habs Hne) as Hin.
    unfold within in Hin. rewrite (isPrefix_trans _ _ _ Hin E) in Hp.
    discriminate.
  - intros Hproper p Hp. apply Hother.
    rewrite (requestedPath_proper cfg filename Habs Hproper). exact Hp.
Qed.

Lemma confirmed_delete_stays_inside_uploadDir_witness :
  Fs.lookup
    (fs (snd (serve Sample.cfg
                (authorized Sample.cfg (PostDelete (js "../../srv/up/.")))
                Sample.world)))
    [js "srv"; js "secret.key"]
  = Some (Fs.FileNode 3 32).
Proof.
  destruct (confirmed_delete_stays_inside_uploadDir Sample.cfg
              (js "../../srv/up/.") Sample.world)
    as [H _]; [reflexivity|reflexivity|discriminate|].
  etransitivity; [apply H; reflexivity|reflexivity].
Defined.

(* ------------------------------------------------------------------ *)
(** ** The directory made at startup *)
(* ------------------------------------------------------------------ *)

Lemma ensureDirs_settled (rest : Fs.Path) :
  forall (t : Fs.FS) (above : Fs.Path) (now : Z),
    (forall k, (k < List.length rest)%nat ->
               isDirectory t (above ++ firstn (S k) rest)) ->
    Fs.ensureDirs t above rest now = inr t.
Proof.
  induction rest as [|seg rest IH]; intros t above now H; [reflexivity|].
  simpl. destruct (H 0%nat) as [m Hm]; [simpl; lia|]. simpl in Hm.
  rewrite Hm. apply IH. intros k Hk.
  destruct (H (S k)) as [m' Hm']; [simpl; lia|].
  exists m'. rewrite <- app_assoc. exact Hm'.
Qed.

Lemma ensureDirs_all (rest : Fs.Path) :
  forall (t t' : Fs.FS) (above : Fs.Path) (now : Z),
    Fs.ensureDirs t above rest now = inr t' ->
    forall k, (k < List.length rest)%nat ->
              isDirectory t' (above ++ firstn (S k) rest).
Proof.
  induction rest as [|seg rest IH]; intros t t' above now He k Hk;
    [simpl in Hk; lia|].
  simpl in He.
  assert (Hhere : forall t1, Fs.ensureDirs t1 (above ++ [seg]) rest now = inr t' ->
                             isDirectory t1 (above ++ [seg]) ->
                             isDirectory t' (above ++ firstn (S k) (seg :: rest))).
  { intros t1 H1 [m Hm]. destruct k as [|k].
    - exists m. simpl. exact (ensureDirs_keeps _ _ _ _ _ _ _ H1 Hm).
    - replace (above ++ firstn (S (S k)) (seg :: rest))
        with ((above ++ [seg]) ++ firstn (S k) rest)
        by (rewrite <- app_assoc; reflexivity).
      apply (IH _ _ _ _ H1). simpl in Hk. lia. }
  destruct (Fs.lookup t (above ++ [seg])) as [[m s|m]|] eqn:E;
    [destruct rest; discriminate| |].
  - apply (Hhere _ He). exists m. exact E.
  - apply (Hhere _ He). exists now. apply lookup_app_new. exact E.
Qed.

Lemma lookup_app_file (t : Fs.FS) (p q : Fs.Path) (now m s : Z) :
  Fs.lookup (t ++ [(q, Fs.DirNode now)]) p = Some (Fs.FileNode m s) ->
  Fs.lookup t p = Some (Fs.FileNode m s).
Proof.
  unfold Fs.lookup. destruct p as [|a p']; [tauto|].
  rewrite find_app_last.
  destruct (find (fun e => Fs.path_eqb (fst e) (a :: p')) t); [tauto|].
  simpl fst. destruct (Fs.path_eqb q (a :: p')); discriminate.
Qed.

Lemma ensureDirs_fails (rest : Fs.Path) :
  forall (t : Fs.FS) (above : Fs.Path) (now : Z) (code : Fs.Errno),
    Fs.ensureDirs t above rest now = inl code ->
    exists k m s, (k < List.length rest)%nat
                  /\ Fs.lookup t (above ++ firstn (S k) rest)
                     = Some (Fs.FileNode m s)
                  /\ code = if (S k =? List.length rest)%nat
                            then Fs.EEXIST else Fs.ENOTDIR.
Proof.
  induction rest as [|seg rest IH]; intros t above now code He;
    [discriminate|].
  simpl in He.
  destruct (Fs.lookup t (above ++ [seg])) as [[m s|m]|] eqn:E.
  - exists 0%nat, m, s. split; [simpl; lia|]. split; [exact E|].
    destruct rest; inversion He; reflexivity.
  - destruct (IH _ _ _ _ He) as [k [m' [s' [Hk [Hl Hc]]]]].
    exists (S k), m', s'. split; [simpl; lia|].
    rewrite <- app_assoc in Hl. split; [exact Hl|exact Hc].
  - destruct (IH _ _ _ _ He) as [k [m' [s' [Hk [Hl Hc]]]]].
    exists (S k), m', s'. split; [simpl; lia|].
    rewrite <- app_assoc in Hl.
    split; [exact (lookup_app_file _ _ _ _ _ _ Hl)|exact Hc].
Qed.

(** X16. The directory made at startup: a start that succeeds leaves
    [uploadDir] a directory, keeps what the tree held, and a second start
    on the result changes nothing; a start fails only when a file is in
    the way, with [EEXIST] when the file is at [uploadDir] itself and with
    [ENOTDIR] when it is above it. *)
Theorem startup_makes_the_directory_once :
  forall (cfg : Settings) (t : Fs.FS) (now : Z),
    (forall t', startup cfg t now = inr t' ->
       isDirectory t' (Fs.resolve (uploadDir cfg))
       /\ (forall p n, Fs.lookup t p = Some n -> Fs.lookup t' p = Some n)
       /\ forall later, startup cfg t' later = inr t')
    /\ (forall code, startup cfg t now = inl code ->
          exists k m s,
            (k < List.length (Fs.resolve (uploadDir cfg)))%nat
            /\ Fs.lookup t (firstn (S k) (Fs.resolve (uploadDir cfg)))
               = Some (Fs.FileNode m s)
            /\ code
               = if (S k =? List.length (Fs.resolve (uploadDir cfg)))%nat
                 then Fs.EEXIST else Fs.ENOTDIR).
Proof.
  intros cfg t now. split.
  - intros t' H.
    destruct (startup_makes_uploadDir cfg t t' now H) as [Hdir Hkeep].
    split; [exact Hdir|]. split; [exact Hkeep|].
    intros later. unfold startup, Fs.ensureDir in *.
    apply ensureDirs_settled. intros k Hk.
    exact (ensureDirs_all _ _ _ _ _ H k Hk).
  - intros code H. unfold startup, Fs.ensureDir in H.
    exact (ensureDirs_fails _ _ _ _ _ H).
Qed.

Lemma startup_makes_the_directory_once_witness :
  startup Sample.cfg [] 7
  = inr [([js "srv"], Fs.DirNode 7); ([js "srv"; js "up"], Fs.DirNode 7)]
  /\ startup Sample.cfg
       [([js "srv"], Fs.DirNode 7); ([js "srv"; js "up"], Fs.DirNode 7)] 9
     = inr [([js "srv"], Fs.DirNode 7); ([js "srv"; js "up"], Fs.DirNode 7)]
  /\ startup Sample.cfg
       [([js "srv"], Fs.DirNode 7); ([js "srv"; js "up"], Fs.FileNode 7 1)] 9
     = inl Fs.EEXIST
  /\ startup Sample.cfg [([js "srv"], Fs.FileNode 7 1)] 9 = inl Fs.ENOTDIR.
Proof.
  split; [reflexivity|].
  destruct (startup_makes_the_directory_once Sample.cfg [] 7) as [H _].
  destruct (H _ eq_refl) as [_ [_ Hagain]].
  split; [apply Hagain|]. split; reflexivity.
Defined.

(* ------------------------------------------------------------------ *)
(** ** When two storage names are the same *)
(* ------------------------------------------------------------------ *)

Lemma js_inj (a b : string) : js a = js b -> a = b.
Proof.
  unfold js. intros H.
  rewrite <- (string_of_list_ascii_of_string a),
          <- (string_of_list_ascii_of_string b).
  f_equal. revert H.
  generalize (list_ascii_of_string a) (list_ascii_of_string b).
  intros l. induction l as [|x l IH]; intros [|y m] H; simpl in H;
    try discriminate; [reflexivity|].
  inversion H as [[Hxy Hlm]]. f_equal; [|exact (IH _ Hlm)].
  rewrite <- (ascii_N_embedding x), <- (ascii_N_embedding y), Hxy.
  reflexivity.
Qed.

Lemma numberToString_inj (a b : Z) :
  numberToString a = numberToString b -> a = b.
Proof.
  unfold numberToString. intros H. apply js_inj in H.
  apply DecimalZ.to_int_inj.
  assert (Hok : forall z, Z.to_int z <> Decimal.Pos Decimal.Nil
                          /\ Z.to_int z <> Decimal.Neg Decimal.Nil).
  { intros [|p|p]; simpl; split; try discriminate;
      intros E; inversion E as [E'];
      exact (DecimalPos.Unsigned.to_uint_nonnil p E'). }
  destruct (Hok a) as [Ha1 Ha2]. destruct (Hok b) as [Hb1 Hb2].
  pose proof (NilZero.isi (Z.to_int a) Ha1 Ha2) as Ia.
  pose proof (NilZero.isi (Z.to_int b) Hb1 Hb2) as Ib.
  rewrite H in Ia. rewrite Ia in Ib. inversion Ib. reflexivity.
Qed.

Lemma digits_no_dash (d : Decimal.uint) :
  ~ In 45%N (js (NilEmpty.string_of_uint d)).
Proof.
  induction d; simpl; [intros []|..]; intros [H|H];
    solve [discriminate H | auto].
Qed.

Lemma numberToString_no_dash (n : Z) :
  (0 <= n)%Z -> ~ In 45%N (numberToString n).
Proof.
  intros Hn. unfold numberToString.
  destruct n as [|p|p]; [| |lia].
  - intros [H|[]]. discriminate.
  - change (Z.to_int (Z.pos p)) with (Decimal.Pos (Pos.to_uint p)).
    unfold NilZero.string_of_int, NilZero.string_of_uint.
    pose proof (digits_no_dash (Pos.to_uint p)) as Hd.
    destruct (Pos.to_uint p); try exact Hd.
    intros [H|[]]. discriminate.
Qed.

(** X17. When two storage names are the same: for timestamps of the
    clock (not negative), exactly when the timestamps are the same and the
    original names are the same once every unit outside [[a-zA-Z0-9_.-]]
    is read as an underscore. So two uploads collide only within one
    millisecond, and there [a b.jpg], [a+b.jpg] and [a_b.jpg] are one
    name. *)
Theorem storage_names_collide_only_within_a_millisecond :
  forall (t1 t2 : Z) (n1 n2 : jsstring),
    (0 <= t1)%Z -> (0 <= t2)%Z ->
    (storageName t1 n1 = storageName t2 n2
     <-> t1 = t2 /\ replaceOutside n1 = replaceOutside n2).
Proof.
  intros t1 t2 n1 n2 H1 H2. unfold storageName.
  rewrite !cleanFileName_replaceOutside. split.
  - intros E. change (js "-") with [45%N] in E. simpl in E.
    destruct (app_inj_pivot _ _ _ _ _ E) as [[[Hin _]|[_ Hin]]|[Hn Hc]].
    + exfalso. exact (numberToString_no_dash t1 H1 Hin).
    + exfalso. exact (numberToString_no_dash t2 H2 Hin).
    + split; [exact (numberToString_inj _ _ Hn)|exact Hc].
  - intros [-> ->]. reflexivity.
Qed.

Lemma storage_names_collide_only_within_a_millisecond_witness :
  storageName 1700000000000 (js "a b.jpg")
  = storageName 1700000000000 (js "a+b.jpg")
  /\ storageName 1700000000000 (js "a.jpg")
     <> storageName 1700000000001 (js "a.jpg").
Proof.
  split.
  - apply (storage_names_collide_only_within_a_millisecond
             1700000000000 1700000000000 (js "a b.jpg") (js "a+b.jpg"));
      [lia|lia|]. split; reflexivity.
  - intros E.
    apply (storage_names_collide_only_within_a_millisecond
             1700000000000 1700000000001 (js "a.jpg") (js "a.jpg")) in E;
      [|lia|lia].
    destruct E as [E _]. discriminate E.
Defined.

(* ------------------------------------------------------------------ *)
(** ** The extension the filter compares *)
(* ------------------------------------------------------------------ *)

Lemma takeWhile_all (f : code -> bool) (l : jsstring) :
  Forall (fun c => f c = true) (takeWhile f l).
Proof.
  induction l as [|c l IH]; simpl; [constructor|].
  destruct (f c) eqn:E; constructor; assumption.
Qed.

Lemma takeWhile_map (f : code -> bool) (g : code -> code) (l : jsstring) :
  (forall c, f (g c) = f c) ->
  takeWhile f (map g l) = map g (takeWhile f l).
Proof.
  intros H. induction l as [|c l IH]; simpl; [reflexivity|].
  rewrite H. destruct (f c); simpl; [rewrite IH|]; reflexivity.
Qed.

Lemma dropWhile_map (f : code -> bool) (g : code -> code) (l : jsstring) :
  (forall c, f (g c) = f c) ->
  dropWhile f (map g l) = map g (dropWhile f l).
Proof.
  intros H. induction l as [|c l IH]; simpl; [reflexivity|].
  rewrite H. destruct (f c); simpl; [rewrite IH|]; reflexivity.
Qed.

Lemma lowerCode_isSlash (c : code) : isSlash (lowerCode c) = isSlash c.
Proof.
  unfold lowerCode, between, isSlash, code_eqb, SLASH.
  destruct (65 <=? c)%N eqn:E1; destruct (c <=? 90)%N eqn:E2; simpl;
    try reflexivity.
  apply N.leb_le in E1, E2.
  destruct (N.eqb_spec (c + 32)%N 47%N); destruct (N.eqb_spec c 47%N);
    try reflexivity; lia.
Qed.

Lemma lowerCode_isDot (c : code) : isDot (lowerCode c) = isDot c.
Proof.
  unfold lowerCode, between, isDot, code_eqb, DOT.
  destruct (65 <=? c)%N eqn:E1; destruct (c <=? 90)%N eqn:E2; simpl;
    try reflexivity.
  apply N.leb_le in E1, E2.
  destruct (N.eqb_spec (c + 32)%N 46%N); destruct (N.eqb_spec c 46%N);
    try reflexivity; lia.
Qed.

Lemma lowerCode_idempotent (c : code) : lowerCode (lowerCode c) = lowerCode c.
Proof.
  unfold lowerCode, between.
  destruct (65 <=? c)%N eqn:E1; destruct (c <=? 90)%N eqn:E2; simpl;
    rewrite ?E1, ?E2; simpl; try reflexivity.
  apply N.leb_le in E1, E2.
  destruct (N.leb_spec 65%N (c + 32)%N); destruct (N.leb_spec (c + 32)%N 90%N);
    simpl; try reflexivity; lia.
Qed.

Lemma lowerCode_no_capital (c : code) : between 65%N 90%N (lowerCode c) = false.
Proof.
  unfold lowerCode, between.
  destruct (65 <=? c)%N eqn:E1; destruct (c <=? 90)%N eqn:E2; simpl;
    rewrite ?E1, ?E2; simpl; try reflexivity.
  apply N.leb_le in E1, E2.
  destruct (N.leb_spec 65%N (c + 32)%N); destruct (N.leb_spec (c + 32)%N 90%N);
    simpl; try reflexivity; lia.
Qed.

Lemma basename_lowerCase (p : jsstring) :
  basename (toLowerCase p) = toLowerCase (basename p).
Proof.
  unfold basename, toLowerCase.
  rewrite <- map_rev, dropWhile_map by apply lowerCode_isSlash.
  rewrite takeWhile_map, map_rev; [reflexivity|].
  intros c. rewrite lowerCode_isSlash. reflexivity.
Qed.

Lemma extname_lowerCase (p : jsstring) :
  extname (toLowerCase p) = toLowerCase (extname p).
Proof.
  unfold extname. rewrite basename_lowerCase. unfold toLowerCase.
  rewrite <- map_rev. cbv zeta.
  assert (Hdot : forall c, negb (isDot (lowerCode c)) = negb (isDot c))
    by (intros c; rewrite lowerCode_isDot; reflexivity).
  rewrite (takeWhile_map (fun c => negb (isDot c)) lowerCode _ Hdot).
  rewrite (dropWhile_map (fun c => negb (isDot c)) lowerCode _ Hdot).
  destruct (dropWhile (fun c => negb (isDot c)) (rev (basename p)))
    as [|dot before]; [reflexivity|].
  simpl map.
  destruct before as [|d [|d' before']]; [reflexivity| |].
  - simpl map.
    destruct (takeWhile (fun c => negb (isDot c)) (rev (basename p)))
      as [|x ext].
    + simpl map. rewrite lowerCode_isDot. destruct (isDot d); reflexivity.
    + simpl map at 1. cbv iota.
      change (map lowerCode (DOT :: rev (x :: ext)))
        with (DOT :: map lowerCode (rev (x :: ext))).
      rewrite map_rev. reflexivity.
  - simpl map at 1. cbv iota.
    change (map lowerCode (DOT :: rev (takeWhile (fun c => negb (isDot c))
                                         (rev (basename p)))))
      with (DOT :: map lowerCode (rev (takeWhile (fun c => negb (isDot c))
                                        (rev (basename p))))).
    rewrite map_rev. reflexivity.
Qed.

Lemma extname_shape (p : jsstring) :
  extname p = [] \/ exists e, extname p = DOT :: e /\ ~ In DOT e.
Proof.
  unfold extname. cbv zeta.
  pose proof (takeWhile_all (fun c => negb (isDot c)) (rev (basename p)))
    as Hext.
  assert (Hfree : ~ In DOT (rev (takeWhile (fun c => negb (isDot c))
                                   (rev (basename p))))).
  { intros Hin. apply in_rev in Hin. rewrite Forall_forall in Hext.
    apply Hext in Hin. discriminate. }
  destruct (dropWhile (fun c => negb (isDot c)) (rev (basename p)))
    as [|dot before]; [left; reflexivity|].
  destruct before as [|d [|d' before']]; [left; reflexivity| |].
  - destruct (takeWhile (fun c => negb (isDot c)) (rev (basename p)))
      as [|x ext] eqn:E.
    + destruct (isDot d); [left; reflexivity|].
      right. exists []. split; [reflexivity|intros []].
    + right. eexists. split; [reflexivity|exact Hfree].
  - right. eexists. split; [reflexivity|exact Hfree].
Qed.

Lemma toLowerCase_dot (s : jsstring) : In DOT (toLowerCase s) -> In DOT s.
Proof.
  unfold toLowerCase. intros H. apply in_map_iff in H.
  destruct H as [c [Hc Hin]].
  assert (E : isDot c = true).
  { rewrite <- lowerCode_isDot, Hc. reflexivity. }
  apply N.eqb_eq in E. subst c. exact Hin.
Qed.

Lemma fileExtension_no_dot (originalname : jsstring) :
  ~ In DOT (fileExtension originalname).
Proof.
  unfold fileExtension.
  destruct (extname_shape originalname) as [E|[e [E Hfree]]]; rewrite E.
  - intros [].
  - change (toLowerCase (DOT :: e)) with (DOT :: toLowerCase e).
    change (removeFirst DOT (DOT :: toLowerCase e)) with (toLowerCase e).
    intros H. apply Hfree. apply toLowerCase_dot. exact H.
Qed.

Lemma removeFirst_sub (x : code) (s : jsstring) (c : code) :
  In c (removeFirst x s) -> In c s.
Proof.
  induction s as [|y s IH]; simpl; [tauto|].
  destruct (code_eqb y x); [tauto|]. simpl. tauto.
Qed.

Lemma toLowerCase_basicLatin (s : jsstring) :
  basicLatin s -> basicLatin (toLowerCase s).
Proof.
  unfold basicLatin, toLowerCase. intros H. apply Forall_map.
  eapply Forall_impl; [|exact H]. intros c Hc. simpl in Hc.
  unfold isBasicLatin in *. apply N.ltb_lt in Hc. apply N.ltb_lt.
  unfold lowerCode, between.
  destruct (65 <=? c)%N eqn:E1; destruct (c <=? 90)%N eqn:E2; simpl;
    try exact Hc.
  apply N.leb_le in E2. lia.
Qed.

(** X18. For a name of the Basic Latin block, where [toLowerCase] changes
    the letters [A-Z] only: the extension the filter compares holds no
    dot and no capital letter, and is the same for the name and for the
    name in lower case, so that the verdict of the filter does not depend
    on the case of such a name. *)
Theorem compared_extension_is_lower_case_without_dot :
  forall originalname : jsstring,
    basicLatin originalname ->
    ~ In DOT (fileExtension originalname)
    /\ Forall (fun c => between 65%N 90%N c = false) (fileExtension originalname)
    /\ basicLatin (toLowerCase originalname)
    /\ fileExtension (toLowerCase originalname) = fileExtension originalname.
Proof.
  intros originalname Hplain. split; [apply fileExtension_no_dot|].
  split; [|split].
  - apply Forall_forall. intros c Hc. unfold fileExtension in Hc.
    apply removeFirst_sub in Hc. unfold toLowerCase in Hc.
    apply in_map_iff in Hc. destruct Hc as [c0 [<- _]].
    apply lowerCode_no_capital.
  - apply toLowerCase_basicLatin. exact Hplain.
  - unfold fileExtension. rewrite extname_lowerCase. f_equal.
    unfold toLowerCase. rewrite map_map. apply map_ext.
    apply lowerCode_idempotent.
Qed.

Lemma compared_extension_is_lower_case_without_dot_witness :
  fileExtension (js "Holiday.Photo.JPG") = js "jpg"
  /\ fileExtension (toLowerCase (js "Holiday.Photo.JPG"))
     = fileExtension (js "Holiday.Photo.JPG").
Proof.
  split; [reflexivity|].
  apply (compared_extension_is_lower_case_without_dot
           (js "Holiday.Photo.JPG")).
  repeat constructor.
Defined.

(** The first part of the body is a file with an extension outside the
    allow-list: the filter's error comes before anything is written. *)
Lemma first_part_disallowed (cfg : Settings) (part : Part)
    (rest : list Part) (w : World) :
  isFilePart part = true -> fieldname part = js "file" ->
  (0 < maxFiles cfg)%Z -> disallowed cfg part ->
  fst (run (uploadParts cfg (maxFiles cfg) [] (part :: rest)) w)
  = inl (invalidType cfg)
  /\ fs (snd (run (uploadParts cfg (maxFiles cfg) [] (part :: rest)) w))
     = fs w.
Proof.
  intros Hfile Hfield Hpos [Hne Hout].
  unfold uploadParts. simpl. unfold isFilePart in Hfile. rewrite Hfile.
  rewrite run_bind. unfold MulterMiddleware.onFile.
  rewrite run_bind, run_tryCatch.
  unfold MulterMiddleware.wrappedFileFilter.
  rewrite Hfield, streq_refl. simpl negb. simpl orb.
  destruct (maxFiles cfg <=? 0)%Z eqn:E; [apply Z.leb_le in E; lia|].
  rewrite run_bind.
  destruct (fileFilter_unlisted cfg part w Hne Hout) as [H1 [H2 _]].
  destruct (run (fileFilter cfg part) w) as [[e|b] w']; simpl in H1, H2;
    [|discriminate].
  inversion H1; subst e. simpl. split; [reflexivity|exact H2].
Qed.

(** X19. An allow-list whose entries all hold a dot (as [.jpg]) lets no
    file of a Basic Latin name through: the filter refuses every such
    part with the [Invalid file type] error, and an upload whose first
    part is such a file of the field [file] is answered 500 with that
    message, nothing being written. *)
Theorem dotted_allow_list_refuses_every_file :
  forall cfg : Settings,
    allowedExtensions cfg <> [] ->
    Forall (fun entry => In DOT entry) (allowedExtensions cfg) ->
    (forall (part : Part) (w : World),
       basicLatin (originalname part) ->
       fst (run (fileFilter cfg part) w) = inl (invalidType cfg))
    /\ (forall (part : Part) (rest : list Part) (w : World),
          basicLatin (originalname part) ->
          isFilePart part = true -> fieldname part = js "file" ->
          (0 < maxFiles cfg)%Z ->
          let result :=
            serve cfg (authorized cfg (PostUpload (Multipart (part :: rest))))
              w in
          fst result
          = inr (send 500
                   (js "Invalid file type. Allowed extensions are: "
                    ++ JS.join (js ", ") (allowedExtensions cfg)))
          /\ fs (snd result) = fs w).
Proof.
  intros cfg Hne Hdots.
  assert (Hout : forall part : Part,
            ~ In (fileExtension (originalname part)) (allowedExtensions cfg)).
  { intros part Hin. rewrite Forall_forall in Hdots.
    exact (fileExtension_no_dot _ (Hdots _ Hin)). }
  split.
  - intros part w _.
    destruct (fileFilter_unlisted cfg part w Hne (Hout part)) as [H _].
    exact H.
  - intros part rest w _ Hfile Hfield Hpos. cbv zeta.
    destruct (first_part_disallowed cfg part rest w Hfile Hfield Hpos
                (conj Hne (Hout part))) as [H1 H2].
    rewrite (serve_upload_error cfg (part :: rest) w _ H1).
    split; [reflexivity|exact H2].
Qed.

Lemma dotted_allow_list_refuses_every_file_witness :
  fst (serve (mkSettings 58080 (js "admin") (js "s3cret") (js "/srv/up")
                2 100 [js ".jpg"])
         (authorized
            (mkSettings 58080 (js "admin") (js "s3cret") (js "/srv/up")
               2 100 [js ".jpg"])
            (PostUpload (Multipart [mkPart (js "file") (js "a.jpg") 5])))
         Sample.world)
  = inr (send 500 (js "Invalid file type. Allowed extensions are: .jpg")).
Proof.
  destruct (dotted_allow_list_refuses_every_file
              (mkSettings 58080 (js "admin") (js "s3cret") (js "/srv/up")
                 2 100 [js ".jpg"])) as [_ H].
  - discriminate.
  - repeat constructor.
  - destruct (H (mkPart (js "file") (js "a.jpg") 5) [] Sample.world)
      as [Hr _]; [repeat constructor|reflexivity|reflexivity|reflexivity|].
    exact Hr.
Defined.

(* ------------------------------------------------------------------ *)
(** ** An upload without the directory *)
(* ------------------------------------------------------------------ *)



(* ------------------------------------------------------------------ *)
(** ** The allow-list read from the command line *)
(* ------------------------------------------------------------------ *)

Lemma split_length (sep : code) (s : jsstring) :
  List.length (split sep s) = S (count_occ N.eq_dec s sep).
Proof.
  induction s as [|c s IH]; [reflexivity|]. simpl split.
  unfold code_eqb. destruct (N.eqb_spec c sep) as [E|E].
  - simpl List.length. rewrite IH. simpl.
    destruct (N.eq_dec c sep); [reflexivity|contradiction].
  - simpl count_occ. destruct (N.eq_dec c sep); [contradiction|].
    destruct (split sep s) as [|piece rest] eqn:Es;
      [exfalso; exact (split_not_nil _ _ Es)|].
    exact IH.
Qed.

Lemma trimStart_head (s : jsstring) (c : code) (t : jsstring) :
  trimStart s = c :: t -> isWhiteSpace c = false.
Proof.
  induction s as [|x s IH]; simpl; [discriminate|].
  destruct (isWhiteSpace x) eqn:E; [exact IH|].
  intros H. inversion H; subst. exact E.
Qed.

Lemma trimStart_end (s : jsstring) : exists before, s = before ++ trimStart s.
Proof.
  induction s as [|x s [before IH]]; [exists []; reflexivity|]. simpl.
  destruct (isWhiteSpace x).
  - exists (x :: before). simpl. f_equal. exact IH.
  - exists []. reflexivity.
Qed.

Lemma trimEnd_start (s : jsstring) : exists after, s = trimEnd s ++ after.
Proof.
  unfold trimEnd. destruct (trimStart_end (rev s)) as [before H].
  exists (rev before). rewrite <- rev_app_distr, <- H, rev_involutive.
  reflexivity.
Qed.

Lemma trim_trimmed (s : jsstring) : trimmed (trim s).
Proof.
  unfold trim. split.
  - intros c t E. destruct (trimEnd_start (trimStart s)) as [after H].
    rewrite E in H. exact (trimStart_head s c (t ++ after) H).
  - intros c t E. unfold trimEnd in E.
    apply (f_equal (@rev code)) in E.
    rewrite rev_involutive, rev_unit in E.
    exact (trimStart_head _ _ _ E).
Qed.

Lemma trim_sub (s : jsstring) (c : code) : In c (trim s) -> In c s.
Proof.
  intros H. unfold trim in H.
  destruct (trimEnd_start (trimStart s)) as [after Ha].
  destruct (trimStart_end s) as [before Hb].
  rewrite Hb, Ha. apply in_or_app. right. apply in_or_app. left. exact H.
Qed.

Lemma lowerCode_isWhiteSpace (c : code) :
  isWhiteSpace (lowerCode c) = isWhiteSpace c.
Proof.
  unfold lowerCode. destruct (between 65%N 90%N c) eqn:E; [|reflexivity].
  unfold between in E. apply andb_true_iff in E. destruct E as [E1 E2].
  apply N.leb_le in E1, E2.
  rewrite (nameChar_not_whiteSpace c), (nameChar_not_whiteSpace (c + 32)%N);
    [reflexivity| |].
  - unfold isNameChar, between.
    destruct (N.leb_spec 97%N (c + 32)%N); [|lia].
    destruct (N.leb_spec (c + 32)%N 122%N); [reflexivity|lia].
  - unfold isNameChar, between.
    destruct (N.leb_spec 65%N c); [|lia].
    destruct (N.leb_spec c 90%N); [|lia].
    simpl. rewrite orb_true_r. reflexivity.
Qed.

Lemma toLowerCase_trimmed (s : jsstring) :
  trimmed s -> trimmed (toLowerCase s).
Proof.
  unfold toLowerCase. intros [Hhead Hlast]. split.
  - intros c t E. destruct s as [|x s']; [discriminate|].
    simpl in E. inversion E; subst.
    rewrite lowerCode_isWhiteSpace. exact (Hhead x s' eq_refl).
  - intros c t E. destruct s as [|x s'] using rev_ind;
      [destruct t; discriminate|].
    rewrite map_app in E. simpl in E. apply app_inj_tail in E.
    destruct E as [_ <-].
    rewrite lowerCode_isWhiteSpace. exact (Hlast x s' eq_refl).
Qed.

Lemma toLowerCase_comma (s : jsstring) :
  In COMMA (toLowerCase s) -> In COMMA s.
Proof.
  unfold toLowerCase. intros H. apply in_map_iff in H.
  destruct H as [c [Hc Hin]]. unfold lowerCode in Hc.
  destruct (between 65%N 90%N c) eqn:E; [|subst c; exact Hin].
  unfold between in E. apply andb_true_iff in E. destruct E as [E1 E2].
  apply N.leb_le in E1, E2. unfold COMMA in Hc. lia.
Qed.

Lemma split_sub (sep : code) (s : jsstring) :
  Forall (fun piece => forall c, In c piece -> In c s) (split sep s).
Proof.
  induction s as [|x s IH]; simpl.
  - constructor; [intros c []|constructor].
  - assert (Hstep : Forall (fun piece => forall c, In c piece -> In c (x :: s))
                      (split sep s)).
    { eapply Forall_impl; [|exact IH]. intros piece H c Hc.
      right. exact (H c Hc). }
    destruct (code_eqb x sep).
    + constructor; [intros c []|exact Hstep].
    + destruct (split sep s) as [|piece rest].
      * constructor; [|constructor]. intros c [<-|[]]. left. reflexivity.
      * inversion Hstep as [|? ? Hp Hr]; subst. constructor; [|exact Hr].
        intros c [<-|Hc]; [left; reflexivity|exact (Hp c Hc)].
Qed.

(** X21. The allow-list read from an [--extensions] of the Basic Latin
    block, where [toLowerCase] changes the letters [A-Z] only: empty only
    for the empty text, otherwise one entry for each piece between
    commas, so one more than there are commas; every entry is of the
    Basic Latin block, holds no comma and no capital letter, and neither
    starts nor ends with white space. So every such [--extensions] that
    is not empty restricts the uploads. *)
Theorem allow_list_has_an_entry_for_each_piece :
  forall extensions : jsstring,
    basicLatin extensions ->
    (parseExtensions extensions = [] <-> extensions = [])
    /\ (extensions <> [] ->
        List.length (parseExtensions extensions)
        = S (count_occ N.eq_dec extensions COMMA))
    /\ Forall (fun entry =>
                 basicLatin entry
                 /\ ~ In COMMA entry
                 /\ Forall (fun c => between 65%N 90%N c = false) entry
                 /\ trimmed entry)
         (parseExtensions extensions).
Proof.
  intros extensions Hplain. unfold parseExtensions.
  destruct extensions as [|c s]; simpl truthy; cbv iota.
  - split; [tauto|]. split; [contradiction|constructor].
  - split; [|split].
    + split; [|discriminate]. intros H. apply map_eq_nil in H.
      exfalso. exact (split_not_nil _ _ H).
    + intros _. rewrite length_map. apply split_length.
    + apply Forall_forall. intros entry Hin. apply in_map_iff in Hin.
      destruct Hin as [piece [<- Hpiece]]. split; [|split; [|split]].
      * apply toLowerCase_basicLatin. apply Forall_forall. intros x Hx.
        apply trim_sub in Hx.
        pose proof (split_sub COMMA (c :: s)) as Hsub.
        rewrite Forall_forall in Hsub.
        unfold basicLatin in Hplain. rewrite Forall_forall in Hplain.
        exact (Hplain x (Hsub _ Hpiece x Hx)).
      * intros Hc. apply toLowerCase_comma, trim_sub in Hc.
        pose proof (split_pieces_free COMMA (c :: s)) as Hfree.
        rewrite Forall_forall in Hfree. exact (Hfree _ Hpiece Hc).
      * apply Forall_forall. intros x Hx. unfold toLowerCase in Hx.
        apply in_map_iff in Hx. destruct Hx as [x0 [<- _]].
        apply lowerCode_no_capital.
      * apply toLowerCase_trimmed, trim_trimmed.
Qed.

Lemma allow_list_has_an_entry_for_each_piece_witness :
  parseExtensions (js " JPG, .Png ,") = [js "jpg"; js ".png"; js ""]
  /\ List.length (parseExtensions (js " JPG, .Png ,")) = 3%nat.
Proof.
  split; [reflexivity|].
  destruct (allow_list_has_an_entry_for_each_piece (js " JPG, .Png ,"))
    as [_ [H _]]; [repeat constructor|].
  etransitivity; [apply H; discriminate|reflexivity].
Defined.

(* ------------------------------------------------------------------ *)
(** ** Every request is answered *)
(* ------------------------------------------------------------------ *)

Lemma Sat_any {A : Type} (p : Prog A) :
  Sat (fun _ _ => True) (fun _ => True) p.
Proof. induction p as [a|e|X op k IH]; constructor; auto. Qed.

Lemma Sat_run (P : forall X : Type, Op X -> Prop) {A : Type} (Q : A -> Prop)
    (p : Prog A) :
  Sat P Q p -> forall (w : World) (a : A), fst (run p w) = inr a -> Q a.
Proof.
  intros H. induction H as [a0 Ha|e|X op k Hop Hk IH]; intros w a Hr.
  - simpl in Hr. inversion Hr; subst. exact Ha.
  - discriminate.
  - simpl in Hr.
    destruct (exec op (if isAsync op then yield w else w)) as [r w2].
    exact (IH r w2 a Hr).
Qed.

Ltac answers :=
  repeat first
    [ apply Sat_tryCatch; [|intros ?]
    | apply (Sat_bind _ (fun _ => True)); [apply Sat_any|intros ? _]
    | apply Sat_Ret; simpl; tauto
    | match goal with
      | |- Sat _ _ (if ?b then _ else _) => destruct b
      end ].

Lemma routes_answer (cfg : Settings) (req : Request) :
  (forall subpath, route req <> GetFiles subpath) ->
  Sat (fun _ _ => True)
    (fun resp => In (status resp) [200; 302; 400; 401; 404; 500]%Z)
    (dispatch cfg req).
Proof.
  intros Hroute. unfold dispatch, behindAuth.
  assert (Hauth : forall denied, auth cfg req = Some denied ->
                                 denied = unauthorized).
  { unfold auth. intros denied.
    destruct (basicAuth req) as [[user pass]|];
      [destruct (negb (streq user (username cfg))
                 || negb (streq pass (password cfg)))|];
      intros H; inversion H; reflexivity. }
  destruct (route req) as [|body|filename|filename|filename|subpath];
    try (exfalso; exact (Hroute _ eq_refl));
    (destruct (auth cfg req) as [denied|] eqn:Ea;
     [rewrite (Hauth denied eq_refl); apply Sat_Ret; simpl; tauto|]).
  - unfold getIndex, consoleError. answers.
  - unfold postUpload, postUploadHandler, consoleError, consoleLog.
    apply (Sat_bind _ (fun _ => True)); [apply Sat_any|intros files _].
    destruct files as [[|file files]|]; answers.
  - unfold getInfo, consoleError. answers.
  - unfold getDelete, consoleError, consoleWarn. answers.
  - unfold postDelete, consoleError. answers.
Qed.

(** X22. Every request to the routes of the script is answered, whatever
    the tree holds and whatever other requests do meanwhile: no error
    gets past the handlers and the global error handler, and the status
    is one of 200, 302, 400, 401, 404 and 500. *)
Theorem every_request_is_answered :
  forall (cfg : Settings) (req : Request) (w : World),
    (forall subpath, route req <> GetFiles subpath) ->
    exists resp : Response,
      fst (serve cfg req w) = inr resp
      /\ In (status resp) [200; 302; 400; 401; 404; 500]%Z.
Proof.
  intros cfg req w Hroute. unfold serve.
  destruct (refused req) as [err|] eqn:Er.
  - rewrite (app_refused cfg req err Er).
    eexists. split; [reflexivity|]. simpl. tauto.
  - rewrite (app_routed cfg req Er), run_tryCatch.
    pose proof (Sat_run _ _ _ (routes_answer cfg req Hroute) w) as Hq.
    destruct (run (dispatch cfg req) w) as [[e|resp] w'].
    + eexists. split; [reflexivity|]. simpl. tauto.
    + exists resp. split; [reflexivity|]. apply Hq. reflexivity.
Qed.

Lemma every_request_is_answered_witness :
  exists resp : Response,
    fst (serve Sample.cfg
           (mkRequest (PostUpload OtherBody) (Some (js "admin", js "s3cret"))
              None)
           (mkWorld Sample.tree 1700000000000 []
              [deleting (Fs.resolve (js "/srv"))] []))
    = inr resp
    /\ In (status resp) [200; 302; 400; 401; 404; 500]%Z.
Proof.
  apply every_request_is_answered. intros subpath. discriminate.
Defined.
